(** * PowerManager: the power activation engine of flare-engine

    A shallow embedding of [src/PowerManager.cpp]: the loaders of effect and
    power definitions ([loadEffects], [loadPowers]), the activation dispatcher
    ([activate]) with its
    six strategies ([fixed], [missile], [repeater], [spawn], [transform],
    [block]), the hazard initialiser, the effect applicator, cost payment and
    the passive trigger scanner.

    Conventions of the embedding.
    - [int] is a 32-bit two's complement integer, carried as a [Z]; arithmetic
      that can leave the range is written with [Int.wrap].  [unsigned] is 32
      bits wide, [size_t] is at least as wide.
    - [float] is IEEE binary32, carried as a [spec_float] with the rounding
      operations of the standard library at precision 24; [double] is binary64.
    - A [std::vector] is a list; [v[i]] outside the vector is undefined
      behaviour and makes the computation yield [None].
    - Member functions of [PowerManager] run in a state-and-failure monad over
      [World]: the manager's members, the collaborators it talks to (collision
      map, sound, combat text, input lock, random source) and the [StatBlock]
      behind the [src_stats] pointer of the current activation.
    - Everything the file uses but does not define (parsing helpers, math
      helpers, constants of the headers, the collision map, default
      constructors) is a field of the environment record [Env]. *)

From Stdlib Require Import ZArith List Ascii String Bool Lia.
From Stdlib Require Import Floats.SpecFloat.
From stdpp Require Import base option list gmap strings.

Open Scope Z_scope.

Notation "a =s b" := (String.eqb a b) (at level 70, no associativity).

(** ** Machine integers *)

Module Int.
Definition min_int : Z := - 2 ^ 31.
Definition max_int : Z := 2 ^ 31 - 1.   (* INT_MAX *)

Definition in_range (z : Z) : Prop := min_int <= z <= max_int.

(** Two's complement wrap-around of a mathematical result into [int]. *)
Definition wrap (z : Z) : Z := (z + 2 ^ 31) mod 2 ^ 32 - 2 ^ 31.

Definition add (a b : Z) : Z := wrap (a + b).
Definition sub (a b : Z) : Z := wrap (a - b).
Definition mul (a b : Z) : Z := wrap (a * b).
(** [/] and [%] of C++ truncate toward zero. *)
Definition div (a b : Z) : Z := wrap (Z.quot a b).
Definition rem (a b : Z) : Z := Z.rem a b.

(** [static_cast<unsigned>(i)] *)
Definition to_unsigned (z : Z) : Z := z mod 2 ^ 32.

(** [static_cast<int>(v.size())] *)
Definition of_size (n : nat) : Z := wrap (Z.of_nat n).
End Int.

(** ** Floating point *)

Definition float : Type := spec_float.

Module F32.
Definition prec : Z := 24.
Definition emax : Z := 128.

Definition add : float -> float -> float := SFadd prec emax.
Definition sub : float -> float -> float := SFsub prec emax.
Definition mul : float -> float -> float := SFmul prec emax.
Definition div : float -> float -> float := SFdiv prec emax.
Definition ltb : float -> float -> bool := SFltb.
Definition eqb : float -> float -> bool := SFeqb.

Definition zero : float := S754_zero false.

(** [static_cast<float>(i)] for an integer [i] *)
Definition of_Z (z : Z) : float := binary_normalize prec emax z 0 false.

(** [static_cast<float>(d)] for a double [d] *)
Definition of_double (d : spec_float) : float :=
  match d with
  | S754_finite s m e => binary_normalize prec emax (cond_Zopp s (Zpos m)) e s
  | _ => d
  end.

(** [static_cast<int>(f)]: truncation toward zero; undefined when the value
    is not finite or does not fit an [int]. *)
Definition to_int (f : float) : option Z :=
  match f with
  | S754_zero _ => Some 0
  | S754_finite s m e =>
      let v := cond_Zopp s (if 0 <=? e then Zpos m * 2 ^ e
                            else Z.quot (Zpos m) (2 ^ (- e))) in
      if (Int.min_int <=? v) && (v <=? Int.max_int) then Some v else None
  | _ => None
  end.
End F32.

Module F64.
Definition prec : Z := 53.
Definition emax : Z := 1024.

Definition mul : spec_float -> spec_float -> spec_float := SFmul prec emax.
Definition div : spec_float -> spec_float -> spec_float := SFdiv prec emax.
Definition of_Z (z : Z) : spec_float := binary_normalize prec emax z 0 false.

(** [pow(-1.0f, k)] for an [int] exponent: the arguments are promoted to
    [double], and the result is 1 or -1 by the parity of [k]. *)
Definition pow_neg1 (k : Z) : spec_float :=
  if Z.even k then of_Z 1 else of_Z (-1).

(** [M_PI] of <cmath>: 0x400921FB54442D18 *)
Definition M_PI : spec_float := S754_finite false 7074237752028440 (-51).
End F64.

(** [static_cast<float>(M_PI)] *)
Definition M_PI_f : float := F32.of_double F64.M_PI.

(** 30 degrees in radians, as the code computes it: [30 * M_PI / 180.0f]. *)
Definition deg30 : float :=
  F32.div (F32.mul (F32.of_Z 30) M_PI_f) (F32.of_Z 180).

Record FPoint := { fp_x : float; fp_y : float }.
Record Point := { pt_x : Z; pt_y : Z }.

(** ** Enumerations of PowerManager.h

    The named constants of an enumeration are pairwise distinct; the extra
    constructor stands for every other value of the underlying [int] (the value
    of a field no record has set). *)

Inductive PowType :=
  | POWTYPE_FIXED | POWTYPE_MISSILE | POWTYPE_REPEATER | POWTYPE_SPAWN
  | POWTYPE_TRANSFORM | POWTYPE_BLOCK | POWTYPE_NONE.

Inductive PowState := POWSTATE_INSTANT | POWSTATE_ATTACK | POWSTATE_NONE.

Inductive BaseDamage :=
  | BASE_DAMAGE_NONE | BASE_DAMAGE_MELEE | BASE_DAMAGE_RANGED | BASE_DAMAGE_MENT.

Inductive StartingPos :=
  | STARTING_POS_SOURCE | STARTING_POS_TARGET | STARTING_POS_MELEE
  | STARTING_POS_NONE.

Inductive StatModifierMode :=
  | STAT_MODIFIER_MODE_MULTIPLY | STAT_MODIFIER_MODE_ADD
  | STAT_MODIFIER_MODE_ABSOLUTE | STAT_MODIFIER_MODE_NONE.

Inductive SpawnLimitMode :=
  | SPAWN_LIMIT_MODE_FIXED | SPAWN_LIMIT_MODE_STAT | SPAWN_LIMIT_MODE_UNLIMITED
  | SPAWN_LIMIT_MODE_NONE.

Inductive SpawnLevelMode :=
  | SPAWN_LEVEL_MODE_DEFAULT | SPAWN_LEVEL_MODE_FIXED | SPAWN_LEVEL_MODE_STAT
  | SPAWN_LEVEL_MODE_LEVEL | SPAWN_LEVEL_MODE_NONE.

Inductive SpawnStat :=
  | SPAWN_STAT_PHYSICAL | SPAWN_STAT_MENTAL | SPAWN_STAT_OFFENSE
  | SPAWN_STAT_DEFENSE | SPAWN_STAT_NONE.

Inductive Movement := MOVEMENT_NORMAL | MOVEMENT_FLYING | MOVEMENT_INTANGIBLE.

(** The stats this file reads through [StatBlock::get]. *)
Inductive Stat :=
  | STAT_HP_MAX | STAT_ACCURACY | STAT_CRIT
  | STAT_DMG_MELEE_MIN | STAT_DMG_MELEE_MAX
  | STAT_DMG_RANGED_MIN | STAT_DMG_RANGED_MAX
  | STAT_DMG_MENT_MIN | STAT_DMG_MENT_MAX.

#[global] Instance PowType_eq_dec : EqDecision PowType.
Proof. solve_decision. Defined.
#[global] Instance StartingPos_eq_dec : EqDecision StartingPos.
Proof. solve_decision. Defined.
#[global] Instance BaseDamage_eq_dec : EqDecision BaseDamage.
Proof. solve_decision. Defined.
#[global] Instance StatModifierMode_eq_dec : EqDecision StatModifierMode.
Proof. solve_decision. Defined.
#[global] Instance SpawnLimitMode_eq_dec : EqDecision SpawnLimitMode.
Proof. solve_decision. Defined.
#[global] Instance SpawnLevelMode_eq_dec : EqDecision SpawnLevelMode.
Proof. solve_decision. Defined.

(** ** Record update

    [setter eta proj] builds the function that overwrites field [proj], from
    the eta-expansion [eta] of the record's constructor. *)

Ltac setter eta proj :=
  let t := eval cbv delta [eta] in eta in
  match eval pattern proj in t with
  | ?F _ => let r := eval cbv beta in (fun v p => F (fun _ => v) p) in exact r
  end.

(** ** Data of the power definitions *)

(** [StatBlock *]: an address; the pointee lives in the [World]. *)
Definition StatPtr : Type := Z.

(** [SoundManager::SoundID] *)
Definition SoundID : Type := Z.

Record PostEffect := { pe_id : string; pe_magnitude : Z; pe_duration : Z }.

Record Event_Component := {
  ec_type : string; ec_s : string;
  ec_x : Z; ec_y : Z; ec_z : Z;
  ec_a : Z; ec_b : Z; ec_c : Z }.

Definition ec_set_xy (x y : Z) (e : Event_Component) : Event_Component :=
  {| ec_type := ec_type e; ec_s := ec_s e; ec_x := x; ec_y := y; ec_z := ec_z e;
     ec_a := ec_a e; ec_b := ec_b e; ec_c := ec_c e |}.

Module EffectDef.
Record t := {
  id : string; type : string; icon : Z; animation : string;
  can_stack : bool; render_above : bool }.
Definition eta (e : t) : t :=
  Build_t (id e) (type e) (icon e) (animation e) (can_stack e) (render_above e).
Definition set_id : string -> t -> t := ltac:(setter eta id).
Definition set_type : string -> t -> t := ltac:(setter eta type).
Definition set_icon : Z -> t -> t := ltac:(setter eta icon).
Definition set_animation : string -> t -> t := ltac:(setter eta animation).
Definition set_can_stack : bool -> t -> t := ltac:(setter eta can_stack).
Definition set_render_above : bool -> t -> t := ltac:(setter eta render_above).
End EffectDef.

Module Power.
Record t := {
  (* base info *)
  type : PowType;
  name : string;
  description : string;
  icon : Z;
  new_state : PowState;
  attack_anim : string;
  face : bool;
  source_type : Z;
  beacon : bool;
  count : Z;
  passive : bool;
  passive_trigger : Z;
  meta_power : bool;
  (* power requirements *)
  requires_flags : gset string;
  requires_mp : Z;
  requires_hp : Z;
  sacrifice : bool;
  requires_los : bool;
  requires_empty_target : bool;
  requires_item : Z;
  requires_item_quantity : Z;
  requires_equipped_item : Z;
  requires_equipped_item_quantity : Z;
  requires_targeting : bool;
  cooldown : Z;
  (* animation info *)
  animation_name : string;
  sfx_index : Z;
  directional : bool;
  visual_random : Z;
  visual_option : Z;
  aim_assist : bool;
  speed : float;
  lifespan : Z;
  floor : bool;
  complete_animation : bool;
  (* hazard traits *)
  use_hazard : bool;
  no_attack : bool;
  radius : float;
  base_damage : BaseDamage;
  starting_pos : StartingPos;
  multitarget : bool;
  trait_armor_penetration : bool;
  trait_avoidance_ignore : bool;
  trait_crits_impaired : Z;
  trait_elemental : Z;
  target_range : float;
  (* steal effects *)
  hp_steal : Z;
  mp_steal : Z;
  (* missile traits *)
  missile_angle : Z;
  angle_variance : Z;
  speed_variance : float;
  (* repeater traits *)
  delay : Z;
  (* transform *)
  transform_duration : Z;
  manual_untransform : bool;
  keep_equipment : bool;
  untransform_on_hit : bool;
  (* buffs *)
  buff : bool;
  buff_teleport : bool;
  buff_party : bool;
  buff_party_power_id : Z;
  post_effects : list PostEffect;
  (* chained powers *)
  post_power : Z;
  wall_power : Z;
  (* spawn info *)
  spawn_type : string;
  target_neighbor : Z;
  spawn_limit_mode : SpawnLimitMode;
  spawn_limit_qty : Z;
  spawn_limit_every : Z;
  spawn_limit_stat : SpawnStat;
  spawn_level_mode : SpawnLevelMode;
  spawn_level_qty : Z;
  spawn_level_every : Z;
  spawn_level_stat : SpawnStat;
  (* targeting *)
  target_party : bool;
  target_categories : list string;
  (* stat modifiers *)
  mod_accuracy_mode : StatModifierMode;
  mod_accuracy_value : Z;
  mod_damage_mode : StatModifierMode;
  mod_damage_value_min : Z;
  mod_damage_value_max : Z;
  mod_crit_mode : StatModifierMode;
  mod_crit_value : Z;
  loot : list Event_Component;
  target_movement_normal : bool;
  target_movement_flying : bool;
  target_movement_intangible : bool;
  walls_block_aoe : bool }.

Definition eta (p : t) : t :=
  Build_t (type p) (name p) (description p) (icon p) (new_state p)
    (attack_anim p) (face p) (source_type p) (beacon p) (count p) (passive p)
    (passive_trigger p) (meta_power p) (requires_flags p) (requires_mp p)
    (requires_hp p) (sacrifice p) (requires_los p) (requires_empty_target p)
    (requires_item p) (requires_item_quantity p) (requires_equipped_item p)
    (requires_equipped_item_quantity p) (requires_targeting p) (cooldown p)
    (animation_name p) (sfx_index p) (directional p) (visual_random p)
    (visual_option p) (aim_assist p) (speed p) (lifespan p) (floor p)
    (complete_animation p) (use_hazard p) (no_attack p) (radius p)
    (base_damage p) (starting_pos p) (multitarget p)
    (trait_armor_penetration p) (trait_avoidance_ignore p)
    (trait_crits_impaired p) (trait_elemental p) (target_range p)
    (hp_steal p) (mp_steal p) (missile_angle p) (angle_variance p)
    (speed_variance p) (delay p) (transform_duration p)
    (manual_untransform p) (keep_equipment p) (untransform_on_hit p)
    (buff p) (buff_teleport p) (buff_party p) (buff_party_power_id p)
    (post_effects p) (post_power p) (wall_power p) (spawn_type p)
    (target_neighbor p) (spawn_limit_mode p) (spawn_limit_qty p)
    (spawn_limit_every p) (spawn_limit_stat p) (spawn_level_mode p)
    (spawn_level_qty p) (spawn_level_every p) (spawn_level_stat p)
    (target_party p) (target_categories p) (mod_accuracy_mode p)
    (mod_accuracy_value p) (mod_damage_mode p) (mod_damage_value_min p)
    (mod_damage_value_max p) (mod_crit_mode p) (mod_crit_value p) (loot p)
    (target_movement_normal p) (target_movement_flying p)
    (target_movement_intangible p) (walls_block_aoe p).

Definition set_type : PowType -> t -> t := ltac:(setter eta type).
Definition set_name : string -> t -> t := ltac:(setter eta name).
Definition set_description : string -> t -> t := ltac:(setter eta description).
Definition set_icon : Z -> t -> t := ltac:(setter eta icon).
Definition set_new_state : PowState -> t -> t := ltac:(setter eta new_state).
Definition set_attack_anim : string -> t -> t := ltac:(setter eta attack_anim).
Definition set_face : bool -> t -> t := ltac:(setter eta face).
Definition set_source_type : Z -> t -> t := ltac:(setter eta source_type).
Definition set_beacon : bool -> t -> t := ltac:(setter eta beacon).
Definition set_count : Z -> t -> t := ltac:(setter eta count).
Definition set_passive : bool -> t -> t := ltac:(setter eta passive).
Definition set_passive_trigger : Z -> t -> t := ltac:(setter eta passive_trigger).
Definition set_meta_power : bool -> t -> t := ltac:(setter eta meta_power).
Definition set_requires_flags : gset string -> t -> t := ltac:(setter eta requires_flags).
Definition set_requires_mp : Z -> t -> t := ltac:(setter eta requires_mp).
Definition set_requires_hp : Z -> t -> t := ltac:(setter eta requires_hp).
Definition set_sacrifice : bool -> t -> t := ltac:(setter eta sacrifice).
Definition set_requires_los : bool -> t -> t := ltac:(setter eta requires_los).
Definition set_requires_empty_target : bool -> t -> t := ltac:(setter eta requires_empty_target).
Definition set_requires_item : Z -> t -> t := ltac:(setter eta requires_item).
Definition set_requires_item_quantity : Z -> t -> t := ltac:(setter eta requires_item_quantity).
Definition set_requires_equipped_item : Z -> t -> t := ltac:(setter eta requires_equipped_item).
Definition set_requires_equipped_item_quantity : Z -> t -> t :=
  ltac:(setter eta requires_equipped_item_quantity).
Definition set_requires_targeting : bool -> t -> t := ltac:(setter eta requires_targeting).
Definition set_cooldown : Z -> t -> t := ltac:(setter eta cooldown).
Definition set_animation_name : string -> t -> t := ltac:(setter eta animation_name).
Definition set_sfx_index : Z -> t -> t := ltac:(setter eta sfx_index).
Definition set_directional : bool -> t -> t := ltac:(setter eta directional).
Definition set_visual_random : Z -> t -> t := ltac:(setter eta visual_random).
Definition set_visual_option : Z -> t -> t := ltac:(setter eta visual_option).
Definition set_aim_assist : bool -> t -> t := ltac:(setter eta aim_assist).
Definition set_speed : float -> t -> t := ltac:(setter eta speed).
Definition set_lifespan : Z -> t -> t := ltac:(setter eta lifespan).
Definition set_floor : bool -> t -> t := ltac:(setter eta floor).
Definition set_complete_animation : bool -> t -> t := ltac:(setter eta complete_animation).
Definition set_use_hazard : bool -> t -> t := ltac:(setter eta use_hazard).
Definition set_no_attack : bool -> t -> t := ltac:(setter eta no_attack).
Definition set_radius : float -> t -> t := ltac:(setter eta radius).
Definition set_base_damage : BaseDamage -> t -> t := ltac:(setter eta base_damage).
Definition set_starting_pos : StartingPos -> t -> t := ltac:(setter eta starting_pos).
Definition set_multitarget : bool -> t -> t := ltac:(setter eta multitarget).
Definition set_trait_armor_penetration : bool -> t -> t :=
  ltac:(setter eta trait_armor_penetration).
Definition set_trait_avoidance_ignore : bool -> t -> t :=
  ltac:(setter eta trait_avoidance_ignore).
Definition set_trait_crits_impaired : Z -> t -> t := ltac:(setter eta trait_crits_impaired).
Definition set_trait_elemental : Z -> t -> t := ltac:(setter eta trait_elemental).
Definition set_target_range : float -> t -> t := ltac:(setter eta target_range).
Definition set_hp_steal : Z -> t -> t := ltac:(setter eta hp_steal).
Definition set_mp_steal : Z -> t -> t := ltac:(setter eta mp_steal).
Definition set_missile_angle : Z -> t -> t := ltac:(setter eta missile_angle).
Definition set_angle_variance : Z -> t -> t := ltac:(setter eta angle_variance).
Definition set_speed_variance : float -> t -> t := ltac:(setter eta speed_variance).
Definition set_delay : Z -> t -> t := ltac:(setter eta delay).
Definition set_transform_duration : Z -> t -> t := ltac:(setter eta transform_duration).
Definition set_manual_untransform : bool -> t -> t := ltac:(setter eta manual_untransform).
Definition set_keep_equipment : bool -> t -> t := ltac:(setter eta keep_equipment).
Definition set_untransform_on_hit : bool -> t -> t := ltac:(setter eta untransform_on_hit).
Definition set_buff : bool -> t -> t := ltac:(setter eta buff).
Definition set_buff_teleport : bool -> t -> t := ltac:(setter eta buff_teleport).
Definition set_buff_party : bool -> t -> t := ltac:(setter eta buff_party).
Definition set_buff_party_power_id : Z -> t -> t := ltac:(setter eta buff_party_power_id).
Definition set_post_effects : list PostEffect -> t -> t := ltac:(setter eta post_effects).
Definition set_post_power : Z -> t -> t := ltac:(setter eta post_power).
Definition set_wall_power : Z -> t -> t := ltac:(setter eta wall_power).
Definition set_spawn_type : string -> t -> t := ltac:(setter eta spawn_type).
Definition set_target_neighbor : Z -> t -> t := ltac:(setter eta target_neighbor).
Definition set_spawn_limit_mode : SpawnLimitMode -> t -> t := ltac:(setter eta spawn_limit_mode).
Definition set_spawn_limit_qty : Z -> t -> t := ltac:(setter eta spawn_limit_qty).
Definition set_spawn_limit_every : Z -> t -> t := ltac:(setter eta spawn_limit_every).
Definition set_spawn_limit_stat : SpawnStat -> t -> t := ltac:(setter eta spawn_limit_stat).
Definition set_spawn_level_mode : SpawnLevelMode -> t -> t := ltac:(setter eta spawn_level_mode).
Definition set_spawn_level_qty : Z -> t -> t := ltac:(setter eta spawn_level_qty).
Definition set_spawn_level_every : Z -> t -> t := ltac:(setter eta spawn_level_every).
Definition set_spawn_level_stat : SpawnStat -> t -> t := ltac:(setter eta spawn_level_stat).
Definition set_target_party : bool -> t -> t := ltac:(setter eta target_party).
Definition set_target_categories : list string -> t -> t := ltac:(setter eta target_categories).
Definition set_mod_accuracy_mode : StatModifierMode -> t -> t := ltac:(setter eta mod_accuracy_mode).
Definition set_mod_accuracy_value : Z -> t -> t := ltac:(setter eta mod_accuracy_value).
Definition set_mod_damage_mode : StatModifierMode -> t -> t := ltac:(setter eta mod_damage_mode).
Definition set_mod_damage_value_min : Z -> t -> t := ltac:(setter eta mod_damage_value_min).
Definition set_mod_damage_value_max : Z -> t -> t := ltac:(setter eta mod_damage_value_max).
Definition set_mod_crit_mode : StatModifierMode -> t -> t := ltac:(setter eta mod_crit_mode).
Definition set_mod_crit_value : Z -> t -> t := ltac:(setter eta mod_crit_value).
Definition set_loot : list Event_Component -> t -> t := ltac:(setter eta loot).
Definition set_target_movement_normal : bool -> t -> t :=
  ltac:(setter eta target_movement_normal).
Definition set_target_movement_flying : bool -> t -> t :=
  ltac:(setter eta target_movement_flying).
Definition set_target_movement_intangible : bool -> t -> t :=
  ltac:(setter eta target_movement_intangible).
Definition set_walls_block_aoe : bool -> t -> t := ltac:(setter eta walls_block_aoe).
End Power.

(** ** Actors, hazards and spawn requests *)

(** One entry of [EffectManager::effect_list]: the arguments [addEffect]
    was called with. *)
Record Effect := {
  eff_def : EffectDef.t;
  eff_duration : Z;
  eff_magnitude : Z;
  eff_item : bool;
  eff_trigger : Z;
  eff_passive_id : Z;
  eff_source_type : Z }.

Module EffectManager.
Record t := {
  effect_list : list Effect;
  triggered_others : bool;
  triggered_block : bool;
  triggered_hit : bool;
  triggered_halfdeath : bool;
  triggered_joincombat : bool;
  triggered_death : bool }.
Definition eta (e : t) : t :=
  Build_t (effect_list e) (triggered_others e) (triggered_block e)
    (triggered_hit e) (triggered_halfdeath e) (triggered_joincombat e)
    (triggered_death e).
Definition set_effect_list : list Effect -> t -> t := ltac:(setter eta effect_list).
Definition set_triggered_others : bool -> t -> t := ltac:(setter eta triggered_others).
Definition set_triggered_block : bool -> t -> t := ltac:(setter eta triggered_block).
Definition set_triggered_hit : bool -> t -> t := ltac:(setter eta triggered_hit).
Definition set_triggered_halfdeath : bool -> t -> t :=
  ltac:(setter eta triggered_halfdeath).
Definition set_triggered_joincombat : bool -> t -> t :=
  ltac:(setter eta triggered_joincombat).
Definition set_triggered_death : bool -> t -> t := ltac:(setter eta triggered_death).
End EffectManager.

Module StatBlock.
Record t := {
  hero : bool;
  hero_ally : bool;
  hp : Z;
  mp : Z;
  pos : FPoint;
  direction : Z;
  melee_range : float;
  speed_default : float;
  in_combat : bool;
  refresh_stats : bool;
  transformed : bool;
  transform_duration : Z;
  transform_type : string;
  manual_untransform : bool;
  transform_with_equipment : bool;
  untransform_on_hit : bool;
  teleportation : bool;
  teleport_destination : FPoint;
  knockback_srcpos : FPoint;
  knockback_destpos : FPoint;
  powers_passive : list Z;
  powers_list_items : list Z;
  effects : EffectManager.t;
  (** [get(STAT_...)] *)
  get : Stat -> Z }.
Definition eta (s : t) : t :=
  Build_t (hero s) (hero_ally s) (hp s) (mp s) (pos s) (direction s)
    (melee_range s) (speed_default s) (in_combat s) (refresh_stats s)
    (transformed s) (transform_duration s) (transform_type s)
    (manual_untransform s) (transform_with_equipment s) (untransform_on_hit s)
    (teleportation s) (teleport_destination s) (knockback_srcpos s)
    (knockback_destpos s) (powers_passive s) (powers_list_items s)
    (effects s) (get s).
Definition set_hp : Z -> t -> t := ltac:(setter eta hp).
Definition set_mp : Z -> t -> t := ltac:(setter eta mp).
Definition set_refresh_stats : bool -> t -> t := ltac:(setter eta refresh_stats).
Definition set_transform_duration : Z -> t -> t := ltac:(setter eta transform_duration).
Definition set_transform_type : string -> t -> t := ltac:(setter eta transform_type).
Definition set_manual_untransform : bool -> t -> t := ltac:(setter eta manual_untransform).
Definition set_transform_with_equipment : bool -> t -> t :=
  ltac:(setter eta transform_with_equipment).
Definition set_untransform_on_hit : bool -> t -> t := ltac:(setter eta untransform_on_hit).
Definition set_teleportation : bool -> t -> t := ltac:(setter eta teleportation).
Definition set_teleport_destination : FPoint -> t -> t :=
  ltac:(setter eta teleport_destination).
Definition set_knockback_srcpos : FPoint -> t -> t := ltac:(setter eta knockback_srcpos).
Definition set_knockback_destpos : FPoint -> t -> t := ltac:(setter eta knockback_destpos).
Definition set_effects : EffectManager.t -> t -> t := ltac:(setter eta effects).
End StatBlock.

Module Hazard.
Record t := {
  src_stats : StatPtr;
  power_index : Z;
  source_type : Z;
  target_party : bool;
  crit_chance : Z;
  accuracy : Z;
  dmg_min : Z;
  dmg_max : Z;
  animation_name : string;
  directional : bool;
  animationKind : Z;
  base_lifespan : Z;
  lifespan : Z;
  on_floor : bool;
  base_speed : float;
  complete_animation : bool;
  radius : float;
  trait_elemental : Z;
  active : bool;
  multitarget : bool;
  trait_armor_penetration : bool;
  trait_crits_impaired : Z;
  beacon : bool;
  hp_steal : Z;
  mp_steal : Z;
  pos : FPoint;
  speed : FPoint;
  angle : float;
  post_power : Z;
  wall_power : Z;
  loot : list Event_Component;
  missile : bool;
  target_movement_normal : bool;
  target_movement_flying : bool;
  target_movement_intangible : bool;
  walls_block_aoe : bool;
  delay_frames : Z }.
Definition eta (h : t) : t :=
  Build_t (src_stats h) (power_index h) (source_type h) (target_party h)
    (crit_chance h) (accuracy h) (dmg_min h) (dmg_max h) (animation_name h)
    (directional h) (animationKind h) (base_lifespan h) (lifespan h)
    (on_floor h) (base_speed h) (complete_animation h) (radius h)
    (trait_elemental h) (active h) (multitarget h) (trait_armor_penetration h)
    (trait_crits_impaired h) (beacon h) (hp_steal h) (mp_steal h) (pos h)
    (speed h) (angle h) (post_power h) (wall_power h) (loot h) (missile h)
    (target_movement_normal h) (target_movement_flying h)
    (target_movement_intangible h) (walls_block_aoe h) (delay_frames h).
Definition set_src_stats : StatPtr -> t -> t := ltac:(setter eta src_stats).
Definition set_power_index : Z -> t -> t := ltac:(setter eta power_index).
Definition set_source_type : Z -> t -> t := ltac:(setter eta source_type).
Definition set_target_party : bool -> t -> t := ltac:(setter eta target_party).
Definition set_crit_chance : Z -> t -> t := ltac:(setter eta crit_chance).
Definition set_accuracy : Z -> t -> t := ltac:(setter eta accuracy).
Definition set_dmg_min : Z -> t -> t := ltac:(setter eta dmg_min).
Definition set_dmg_max : Z -> t -> t := ltac:(setter eta dmg_max).
Definition set_animation_name : string -> t -> t := ltac:(setter eta animation_name).
Definition set_directional : bool -> t -> t := ltac:(setter eta directional).
Definition set_animationKind : Z -> t -> t := ltac:(setter eta animationKind).
Definition set_base_lifespan : Z -> t -> t := ltac:(setter eta base_lifespan).
Definition set_lifespan : Z -> t -> t := ltac:(setter eta lifespan).
Definition set_on_floor : bool -> t -> t := ltac:(setter eta on_floor).
Definition set_base_speed : float -> t -> t := ltac:(setter eta base_speed).
Definition set_complete_animation : bool -> t -> t := ltac:(setter eta complete_animation).
Definition set_radius : float -> t -> t := ltac:(setter eta radius).
Definition set_trait_elemental : Z -> t -> t := ltac:(setter eta trait_elemental).
Definition set_active : bool -> t -> t := ltac:(setter eta active).
Definition set_multitarget : bool -> t -> t := ltac:(setter eta multitarget).
Definition set_trait_armor_penetration : bool -> t -> t :=
  ltac:(setter eta trait_armor_penetration).
Definition set_trait_crits_impaired : Z -> t -> t := ltac:(setter eta trait_crits_impaired).
Definition set_beacon : bool -> t -> t := ltac:(setter eta beacon).
Definition set_hp_steal : Z -> t -> t := ltac:(setter eta hp_steal).
Definition set_mp_steal : Z -> t -> t := ltac:(setter eta mp_steal).
Definition set_pos : FPoint -> t -> t := ltac:(setter eta pos).
Definition set_speed : FPoint -> t -> t := ltac:(setter eta speed).
Definition set_angle : float -> t -> t := ltac:(setter eta angle).
Definition set_post_power : Z -> t -> t := ltac:(setter eta post_power).
Definition set_wall_power : Z -> t -> t := ltac:(setter eta wall_power).
Definition set_loot : list Event_Component -> t -> t := ltac:(setter eta loot).
Definition set_missile : bool -> t -> t := ltac:(setter eta missile).
Definition set_target_movement_normal : bool -> t -> t :=
  ltac:(setter eta target_movement_normal).
Definition set_target_movement_flying : bool -> t -> t :=
  ltac:(setter eta target_movement_flying).
Definition set_target_movement_intangible : bool -> t -> t :=
  ltac:(setter eta target_movement_intangible).
Definition set_walls_block_aoe : bool -> t -> t := ltac:(setter eta walls_block_aoe).
Definition set_delay_frames : Z -> t -> t := ltac:(setter eta delay_frames).
End Hazard.

Module Map_Enemy.
Record t := {
  type : string;
  pos : FPoint;
  direction : Z;
  summoner : StatPtr;
  summon_power_index : Z;
  hero_ally : bool }.
Definition eta (m : t) : t :=
  Build_t (type m) (pos m) (direction m) (summoner m) (summon_power_index m)
    (hero_ally m).
Definition set_type : string -> t -> t := ltac:(setter eta type).
Definition set_pos : FPoint -> t -> t := ltac:(setter eta pos).
Definition set_direction : Z -> t -> t := ltac:(setter eta direction).
Definition set_summoner : StatPtr -> t -> t := ltac:(setter eta summoner).
Definition set_summon_power_index : Z -> t -> t :=
  ltac:(setter eta summon_power_index).
Definition set_hero_ally : bool -> t -> t := ltac:(setter eta hero_ally).
End Map_Enemy.

(** What [infile.error] and [logError] report while loading. *)
Inductive LoadError :=
  | ErrIndexOutOfBounds
  | ErrUnknownType (val : string)
  | ErrUnknownSourceType (val : string)
  | ErrUnknownPassiveTrigger (val : string)
  | ErrEquippedItemQuantity
  | ErrUnknownBaseDamage (val : string)
  | ErrUnknownStartingPos (val : string)
  | ErrUnknownEffect (id : string)
  | ErrUnknownSpawnLimitMode (mode : string)
  | ErrUnknownSpawnLimitStat (stat : string)
  | ErrUnknownSpawnLevelMode (mode : string)
  | ErrUnknownSpawnLevelStat (stat : string)
  | ErrUnknownStatModifierMode (mode : string)
  | ErrInvalidKey (key : string)
  | ErrInvalidPowerId (power_id : Z).

(** ** The environment: what PowerManager.cpp uses and does not define *)

Record Env := {
  (* UtilsParsing.h, FileParser.h, MessageEngine.h *)
  toInt : string -> Z -> Z;                 (* toInt(s, default) *)
  toBool : string -> bool;
  toFloat : string -> float;
  parse_duration : string -> Z;
  popFirstString : string -> string * string;   (* token, rest of the value *)
  popFirstInt : string -> Z * string;
  nextValue : string -> string * string;        (* FileParser::nextValue on val *)
  msg_get : string -> string;
  msg_get_int : string -> Z -> string;          (* msg->get(format, int) *)
  (* Settings.h, Stats.h *)
  ELEMENTS : list string;                       (* the ids of ELEMENTS *)
  STAT_KEY : list string;
  MAX_FRAMES_PER_SEC : Z;
  RAND_MAX : Z;
  (* constants of PowerManager.h, Utils.h, CombatText.h *)
  TRIGGER_BLOCK : Z;
  TRIGGER_HIT : Z;
  TRIGGER_HALFDEATH : Z;
  TRIGGER_JOINCOMBAT : Z;
  TRIGGER_DEATH : Z;
  SOURCE_TYPE_HERO : Z;
  SOURCE_TYPE_NEUTRAL : Z;
  SOURCE_TYPE_ENEMY : Z;
  SOURCE_TYPE_ALLY : Z;
  COMBAT_MESSAGE_BUFF : Z;
  (* the default argument of verifyID's allow_zero *)
  verifyID_allow_zero : bool;
  (* default constructors *)
  Power_default : Power.t;
  Hazard_default : Hazard.t;
  EffectDef_default : EffectDef.t;
  Event_Component_default : Event_Component;
  Map_Enemy_default : Map_Enemy.t;
  (* LootManager::parseLoot(infile, &loot.back(), &loot) on the loot vector *)
  parseLoot : string -> list Event_Component -> list Event_Component;
  (* SoundManager::load *)
  snd_load : string -> SoundID;
  (* the shared pseudo-random source: rand() and randBetween *)
  Rng : Type;
  rand : Rng -> Z * Rng;
  randBetween : Z -> Z -> Rng -> Z * Rng;
  (* MapCollision *)
  Collider : Type;
  is_empty : Collider -> float -> float -> bool;
  is_wall : Collider -> float -> float -> bool;
  is_valid_position : Collider -> float -> float -> Movement -> bool -> bool;
  get_random_neighbor : Collider -> Point -> Z -> bool -> Rng -> FPoint * Rng;
  unblock : Collider -> float -> float -> Collider;
  block_tile : Collider -> float -> float -> bool -> Collider;
  (* Utils.h, UtilsMath.h, <cmath> *)
  calcTheta : float -> float -> float -> float -> float;
  calcDirection : float -> float -> float -> float -> Z;
  calcVector : FPoint -> Z -> float -> FPoint;
  floor_FPoint : FPoint -> Point;               (* floor(FPoint) *)
  FPoint_of_Point : Point -> FPoint;            (* the conversion FPoint(Point) *)
  floorf : float -> float;                      (* floor(float) *)
  cosf : float -> float;                        (* static_cast<float>(cos(x)) *)
  sinf : float -> float;
  (* Hazard.h *)
  loadAnimation : string -> Hazard.t -> Hazard.t;
  setAngle : float -> Hazard.t -> Hazard.t;
  (* EffectManager::addEffect on the effect list *)
  addEffect : Effect -> list Effect -> list Effect }.

(** Modelled from the spec: clampCeil of UtilsMath.h, which is not part of the
    sources; the spec has the equipped-item quantity "clamped to at most 1",
    and the source calls it under the comment "a maximum of 1 equipped item can
    be consumed at a time". *)
Definition clampCeil (value ceil : Z) : Z := if ceil <? value then ceil else value.

(** ** The state-and-failure monad *)

Definition M (S A : Type) : Type := S -> option (A * S).

Definition ret {S A} (a : A) : M S A := fun w => Some (a, w).

Definition bind {S A B} (m : M S A) (f : A -> M S B) : M S B :=
  fun w => match m w with Some (a, w') => f a w' | None => None end.

(** Undefined behaviour, or recursion deeper than the fuel. *)
Definition undefined {S A} : M S A := fun _ => None.

Definition gets {S A} (f : S -> A) : M S A := fun w => Some (f w, w).

Definition modify {S} (f : S -> S) : M S unit := fun w => Some (tt, f w).

Definition lift_option {S A} (o : option A) : M S A :=
  match o with Some a => ret a | None => undefined end.

Definition when_ {S} (b : bool) (m : M S unit) : M S unit :=
  if b then m else ret tt.

Notation "'let*' x := m 'in' k" := (bind m (fun x => k))
  (at level 10, x pattern, m at level 100, k at level 200).
Notation "m >> k" := (bind m (fun _ => k)) (at level 90, right associativity).

(** ** The model of PowerManager *)

Section Model.

Variable E : Env.

(** The members of PowerManager, the collaborators behind its global pointers
    ([collider], [snd], [comb], [inpt], the random source), and the [StatBlock]
    that the [src_stats] pointer of the running activation refers to. *)
Record World := {
  powers : list Power.t;
  effects : list EffectDef.t;
  sfx : list SoundID;
  hazards : list Hazard.t;            (* std::queue: push appends *)
  enemies : list Map_Enemy.t;         (* std::queue *)
  loot : list Event_Component;
  party_buffs : list Z;               (* std::queue *)
  used_items : list Z;
  used_equipped_items : list Z;
  log_msg : string;
  collider : option (Collider E);     (* NULL until handleNewMap *)
  rng : Rng E;
  sounds_played : list SoundID;       (* snd->play *)
  combat_text : list (string * FPoint * Z);   (* comb->addMessage *)
  action_bar_locked : bool;           (* inpt->lockActionBar / unlockActionBar *)
  errors : list LoadError;            (* infile.error, logError *)
  stats : StatBlock.t }.

Definition World_eta (w : World) : World :=
  Build_World (powers w) (effects w) (sfx w) (hazards w) (enemies w) (loot w)
    (party_buffs w) (used_items w) (used_equipped_items w) (log_msg w)
    (collider w) (rng w) (sounds_played w) (combat_text w)
    (action_bar_locked w) (errors w) (stats w).

Definition set_powers : list Power.t -> World -> World := ltac:(setter World_eta powers).
Definition set_sfx : list SoundID -> World -> World := ltac:(setter World_eta sfx).
Definition set_errors : list LoadError -> World -> World := ltac:(setter World_eta errors).
Definition set_hazards : list Hazard.t -> World -> World := ltac:(setter World_eta hazards).
Definition set_enemies : list Map_Enemy.t -> World -> World := ltac:(setter World_eta enemies).
Definition set_loot : list Event_Component -> World -> World := ltac:(setter World_eta loot).
Definition set_party_buffs : list Z -> World -> World := ltac:(setter World_eta party_buffs).
Definition set_used_items : list Z -> World -> World := ltac:(setter World_eta used_items).
Definition set_used_equipped_items : list Z -> World -> World :=
  ltac:(setter World_eta used_equipped_items).
Definition set_log_msg : string -> World -> World := ltac:(setter World_eta log_msg).
Definition set_collider : option (Collider E) -> World -> World :=
  ltac:(setter World_eta collider).
Definition set_rng : Rng E -> World -> World := ltac:(setter World_eta rng).
Definition set_sounds_played : list SoundID -> World -> World :=
  ltac:(setter World_eta sounds_played).
Definition set_combat_text : list (string * FPoint * Z) -> World -> World :=
  ltac:(setter World_eta combat_text).
Definition set_action_bar_locked : bool -> World -> World :=
  ltac:(setter World_eta action_bar_locked).
Definition set_stats : StatBlock.t -> World -> World := ltac:(setter World_eta stats).

(** *** Access to the state *)

(** [powers[power_index]] *)
Definition power_at (power_index : Z) : M World Power.t :=
  let* ps := gets powers in
  if power_index <? 0 then undefined
  else lift_option (ps !! Z.to_nat power_index).

(** [powers[power_index].f = v] *)
Definition update_power (power_index : Z) (f : Power.t -> Power.t) : M World unit :=
  let* p := power_at power_index in
  modify (fun w => set_powers (<[Z.to_nat power_index := f p]> (powers w)) w).

(** [*src_stats]; a null pointer is address 0. *)
Definition deref (src_stats : StatPtr) : M World StatBlock.t :=
  if src_stats =? 0 then undefined else gets stats.

Definition update_stats (src_stats : StatPtr) (f : StatBlock.t -> StatBlock.t)
  : M World unit :=
  if src_stats =? 0 then undefined else modify (fun w => set_stats (f (stats w)) w).

(** [*collider] *)
Definition the_collider : M World (Collider E) :=
  let* c := gets collider in lift_option c.

Definition with_rng {A} (f : Rng E -> A * Rng E) : M World A :=
  fun w => let (a, r) := f (rng w) in Some (a, set_rng r w).

Definition push_hazard (haz : Hazard.t) : M World unit :=
  modify (fun w => set_hazards (hazards w ++ [haz]) w).

(** *** getEffectDef, handleNewMap, limitRange, hasValidTarget *)

Definition getEffectDef (effs : list EffectDef.t) (id : string) : option EffectDef.t :=
  find (fun e => EffectDef.id e =s id) effs.

Definition handleNewMap (c : option (Collider E)) : M World unit :=
  modify (set_collider c).

Definition limitRange (range : float) (src target : FPoint) : FPoint :=
  if F32.ltb F32.zero range then
    let x := fp_x target in
    let x := if F32.ltb (F32.add (fp_x src) range) x then F32.add (fp_x src) range else x in
    let x := if F32.ltb x (F32.sub (fp_x src) range) then F32.sub (fp_x src) range else x in
    let y := fp_y target in
    let y := if F32.ltb (F32.add (fp_y src) range) y then F32.add (fp_y src) range else y in
    let y := if F32.ltb y (F32.sub (fp_y src) range) then F32.sub (fp_y src) range else y in
    {| fp_x := x; fp_y := y |}
  else target.

Definition hasValidTarget (power_index : Z) (src_stats : StatPtr) (target : FPoint)
  : M World bool :=
  let* oc := gets collider in
  match oc with
  | None => ret false
  | Some c =>
      let* p := power_at power_index in
      let* s := deref src_stats in
      let target := limitRange (Power.target_range p) (StatBlock.pos s) target in
      if (negb (is_empty E c (fp_x target) (fp_y target))
          || is_wall E c (fp_x target) (fp_y target))
         && Power.buff_teleport p
      then ret false
      else ret true
  end.

(** *** initHazard *)

Definition initHazard (power_index : Z) (src_stats : StatPtr) (target : FPoint)
    (haz : Hazard.t) : M World Hazard.t :=
  let* p := power_at power_index in
  let* s := deref src_stats in
  (* the hazard holds the statblock of its source *)
  let haz := Hazard.set_src_stats src_stats haz in
  let haz := Hazard.set_power_index power_index haz in
  let haz :=
    if Power.source_type p =? -1 then
      if StatBlock.hero s then Hazard.set_source_type (SOURCE_TYPE_HERO E) haz
      else if StatBlock.hero_ally s then Hazard.set_source_type (SOURCE_TYPE_ALLY E) haz
      else Hazard.set_source_type (SOURCE_TYPE_ENEMY E) haz
    else Hazard.set_source_type (Power.source_type p) haz in
  let haz := Hazard.set_target_party (Power.target_party p) haz in
  (* hazard attributes based on power source *)
  let haz := Hazard.set_crit_chance (StatBlock.get s STAT_CRIT) haz in
  let haz := Hazard.set_accuracy (StatBlock.get s STAT_ACCURACY) haz in
  (* base damage, unless an earlier call already set it *)
  let haz :=
    if Hazard.dmg_max haz =? 0 then
      match Power.base_damage p with
      | BASE_DAMAGE_MELEE =>
          Hazard.set_dmg_max (StatBlock.get s STAT_DMG_MELEE_MAX)
            (Hazard.set_dmg_min (StatBlock.get s STAT_DMG_MELEE_MIN) haz)
      | BASE_DAMAGE_RANGED =>
          Hazard.set_dmg_max (StatBlock.get s STAT_DMG_RANGED_MAX)
            (Hazard.set_dmg_min (StatBlock.get s STAT_DMG_RANGED_MIN) haz)
      | BASE_DAMAGE_MENT =>
          Hazard.set_dmg_max (StatBlock.get s STAT_DMG_MENT_MAX)
            (Hazard.set_dmg_min (StatBlock.get s STAT_DMG_MENT_MIN) haz)
      | BASE_DAMAGE_NONE => haz
      end
    else haz in
  (* animation properties *)
  let haz :=
    if Power.animation_name p =s "" then haz
    else loadAnimation E (Power.animation_name p) haz in
  let* haz :=
    if Power.directional p then
      ret (Hazard.set_animationKind
             (calcDirection E (fp_x (StatBlock.pos s)) (fp_y (StatBlock.pos s))
                (fp_x target) (fp_y target))
             (Hazard.set_directional (Power.directional p) haz))
    else if negb (Power.visual_random p =? 0) then
      let* r := with_rng (rand E) in
      ret (Hazard.set_animationKind (Int.rem r (Power.visual_random p)) haz)
    else if negb (Power.visual_option p =? 0) then
      ret (Hazard.set_animationKind (Power.visual_option p) haz)
    else ret haz in
  let haz := Hazard.set_lifespan (Power.lifespan p)
               (Hazard.set_base_lifespan (Power.lifespan p) haz) in
  let haz := Hazard.set_on_floor (Power.floor p) haz in
  let haz := Hazard.set_base_speed (Power.speed p) haz in
  let haz := Hazard.set_complete_animation (Power.complete_animation p) haz in
  (* combat traits *)
  let haz := Hazard.set_radius (Power.radius p) haz in
  let haz := Hazard.set_trait_elemental (Power.trait_elemental p) haz in
  let haz := Hazard.set_active (negb (Power.no_attack p)) haz in
  let haz := Hazard.set_multitarget (Power.multitarget p) haz in
  let haz := Hazard.set_trait_armor_penetration (Power.trait_armor_penetration p) haz in
  let haz := Hazard.set_trait_crits_impaired
               (Int.add (Hazard.trait_crits_impaired haz) (Power.trait_crits_impaired p))
               haz in
  let haz := Hazard.set_beacon (Power.beacon p) haz in
  (* steal effects *)
  let haz := Hazard.set_hp_steal (Int.add (Hazard.hp_steal haz) (Power.hp_steal p)) haz in
  let haz := Hazard.set_mp_steal (Int.add (Hazard.mp_steal haz) (Power.mp_steal p)) haz in
  (* hazard starting position *)
  let haz :=
    match Power.starting_pos p with
    | STARTING_POS_SOURCE => Hazard.set_pos (StatBlock.pos s) haz
    | STARTING_POS_TARGET =>
        Hazard.set_pos (limitRange (Power.target_range p) (StatBlock.pos s) target) haz
    | STARTING_POS_MELEE =>
        Hazard.set_pos
          (calcVector E (StatBlock.pos s) (StatBlock.direction s)
             (StatBlock.melee_range s)) haz
    | STARTING_POS_NONE => haz
    end in
  let* haz :=
    if 0 <? Power.target_neighbor p then
      let* c := the_collider in
      let* np := with_rng (get_random_neighbor E c (floor_FPoint E (StatBlock.pos s))
                             (Power.target_neighbor p) true) in
      ret (Hazard.set_pos np haz)
    else ret haz in
  (* pre/post power effects *)
  let haz := Hazard.set_post_power (Power.post_power p) haz in
  let haz := Hazard.set_wall_power (Power.wall_power p) haz in
  (* handle loot *)
  let haz :=
    match Power.loot p with
    | [] => haz
    | _ :: _ => Hazard.set_loot (Power.loot p) haz
    end in
  (* flag missile powers for reflection *)
  let haz := Hazard.set_missile (bool_decide (Power.type p = POWTYPE_MISSILE)) haz in
  (* targeting by movement type *)
  let haz := Hazard.set_target_movement_normal (Power.target_movement_normal p) haz in
  let haz := Hazard.set_target_movement_flying (Power.target_movement_flying p) haz in
  let haz := Hazard.set_target_movement_intangible
               (Power.target_movement_intangible p) haz in
  ret (Hazard.set_walls_block_aoe (Power.walls_block_aoe p) haz).

(** *** playSound, payPowerCost *)

Definition playSound (power_index : Z) : M World unit :=
  let* p := power_at power_index in
  if Power.sfx_index p =? -1 then ret tt
  else
    let* sounds := gets sfx in
    if Power.sfx_index p <? 0 then undefined
    else
      let* sid := lift_option (sounds !! Z.to_nat (Power.sfx_index p)) in
      modify (fun w => set_sounds_played (sounds_played w ++ [sid]) w).

(** [while (quantity > 0) { v.push_back(item); quantity--; }] *)
Definition push_back_n (quantity item : Z) (v : list Z) : list Z :=
  v ++ replicate (Z.to_nat quantity) item.

Definition payPowerCost (power_index : Z) (src_stats : StatPtr) : M World unit :=
  if src_stats =? 0 then ret tt
  else
    let* p := power_at power_index in
    let* s := deref src_stats in
    when_ (StatBlock.hero s)
      (update_stats src_stats
         (fun s => StatBlock.set_mp (Int.sub (StatBlock.mp s) (Power.requires_mp p)) s) >>
       (* carried items *)
       when_ (negb (Power.requires_item p =? -1))
         (modify (fun w =>
            set_used_items
              (push_back_n (Power.requires_item_quantity p) (Power.requires_item p)
                 (used_items w)) w)) >>
       (* equipped item: only one instance of an item at a time in the queue *)
       let* queue := gets used_equipped_items in
       when_ (negb (Power.requires_equipped_item p =? -1)
              && negb (bool_decide (Power.requires_equipped_item p ∈ queue)))
         (modify (fun w =>
            set_used_equipped_items
              (push_back_n (Power.requires_equipped_item_quantity p)
                 (Power.requires_equipped_item p) (used_equipped_items w)) w))) >>
    update_stats src_stats
      (fun s => StatBlock.set_hp (Int.sub (StatBlock.hp s) (Power.requires_hp p)) s) >>
    update_stats src_stats
      (fun s => StatBlock.set_hp (if StatBlock.hp s <? 0 then 0 else StatBlock.hp s) s).

(** *** effect

    Every call in this file passes the same pointer for [src_stats] and
    [caster_stats]; the loop body does not write the power table, so the loop
    runs over the [post_effects] read on entry. *)

Definition source_type_of (s : StatBlock.t) : Z :=
  if StatBlock.hero s then SOURCE_TYPE_HERO E
  else if StatBlock.hero_ally s then SOURCE_TYPE_ALLY E
  else SOURCE_TYPE_ENEMY E.

Definition add_effect (p : Power.t) (power_index : Z) (src_stats : StatPtr)
    (source_type : Z) (effect_data : EffectDef.t) (duration magnitude : Z)
  : M World unit :=
  let passive_id := if Power.passive p then power_index else 0 in
  update_stats src_stats (fun s =>
    StatBlock.set_effects
      (EffectManager.set_effect_list
         (addEffect E
            {| eff_def := effect_data; eff_duration := duration;
               eff_magnitude := magnitude; eff_item := false;
               eff_trigger := Power.passive_trigger p;
               eff_passive_id := passive_id; eff_source_type := source_type |}
            (EffectManager.effect_list (StatBlock.effects s)))
         (StatBlock.effects s)) s).

Definition add_combat_text (text : string) (pos : FPoint) (kind : Z) : M World unit :=
  modify (fun w => set_combat_text (combat_text w ++ [(text, pos, kind)]) w).

Definition effect_step (p : Power.t) (power_index : Z) (src_stats : StatPtr)
    (source_type : Z) (pe : PostEffect) : M World unit :=
  let magnitude := pe_magnitude pe in
  let duration := pe_duration pe in
  let* effs := gets effects in
  match getEffectDef effs (pe_id pe) with
  | Some effect_data =>
      (* effects loaded from powers/effects.txt *)
      if EffectDef.type effect_data =s "shield" then
        let* s := deref src_stats in
        let* magnitude :=
          match Power.mod_damage_mode p with
          | STAT_MODIFIER_MODE_MULTIPLY =>
              ret (Int.div (Int.mul (StatBlock.get s STAT_DMG_MENT_MAX)
                              (Power.mod_damage_value_min p)) 100)
          | STAT_MODIFIER_MODE_ADD =>
              ret (Int.add (StatBlock.get s STAT_DMG_MENT_MAX)
                     (Power.mod_damage_value_min p))
          | STAT_MODIFIER_MODE_ABSOLUTE =>
              with_rng (randBetween E (Power.mod_damage_value_min p)
                          (Power.mod_damage_value_max p))
          | STAT_MODIFIER_MODE_NONE => ret (StatBlock.get s STAT_DMG_MENT_MAX)
          end in
        add_combat_text (msg_get_int E "+%d Shield" magnitude) (StatBlock.pos s)
          (COMBAT_MESSAGE_BUFF E) >>
        add_effect p power_index src_stats source_type effect_data duration magnitude
      else if EffectDef.type effect_data =s "heal" then
        let* s := deref src_stats in
        let* magnitude :=
          with_rng (randBetween E (StatBlock.get s STAT_DMG_MENT_MIN)
                      (StatBlock.get s STAT_DMG_MENT_MAX)) in
        let* magnitude :=
          match Power.mod_damage_mode p with
          | STAT_MODIFIER_MODE_MULTIPLY =>
              ret (Int.div (Int.mul magnitude (Power.mod_damage_value_min p)) 100)
          | STAT_MODIFIER_MODE_ADD =>
              ret (Int.add magnitude (Power.mod_damage_value_min p))
          | STAT_MODIFIER_MODE_ABSOLUTE =>
              with_rng (randBetween E (Power.mod_damage_value_min p)
                          (Power.mod_damage_value_max p))
          | STAT_MODIFIER_MODE_NONE => ret magnitude
          end in
        add_combat_text (msg_get_int E "+%d HP" magnitude) (StatBlock.pos s)
          (COMBAT_MESSAGE_BUFF E) >>
        update_stats src_stats
          (fun s => StatBlock.set_hp (Int.add (StatBlock.hp s) magnitude) s) >>
        update_stats src_stats
          (fun s => if StatBlock.get s STAT_HP_MAX <? StatBlock.hp s
                    then StatBlock.set_hp (StatBlock.get s STAT_HP_MAX) s else s) >>
        add_effect p power_index src_stats source_type effect_data duration magnitude
      else if EffectDef.type effect_data =s "knockback" then
        let* s := deref src_stats in
        if F32.eqb (StatBlock.speed_default s) F32.zero then
          (* enemies that can't move can't be knocked back *)
          ret tt
        else
          update_stats src_stats
            (fun s => StatBlock.set_knockback_destpos (StatBlock.pos s)
                        (StatBlock.set_knockback_srcpos (StatBlock.pos s) s)) >>
          add_effect p power_index src_stats source_type effect_data duration magnitude
      else
        add_effect p power_index src_stats source_type effect_data duration magnitude
  | None =>
      (* all other effects *)
      let effect_data :=
        EffectDef.set_id (pe_id pe)
          (EffectDef.set_type (pe_id pe) (EffectDef_default E)) in
      add_effect p power_index src_stats source_type effect_data duration magnitude
  end.

Fixpoint effect_loop (p : Power.t) (power_index : Z) (src_stats : StatPtr)
    (source_type : Z) (pes : list PostEffect) : M World unit :=
  match pes with
  | [] => ret tt
  | pe :: rest =>
      effect_step p power_index src_stats source_type pe >>
      effect_loop p power_index src_stats source_type rest
  end.

Definition effect (src_stats : StatPtr) (power_index : Z) (source_type : Z)
  : M World bool :=
  let* p := power_at power_index in
  effect_loop p power_index src_stats source_type (Power.post_effects p) >>
  ret true.

(** *** buff

    [activate] is the dispatcher, which [buff] re-enters for the post power. *)

Section Strategies.

Variable activate : Z -> StatPtr -> FPoint -> M World bool.

Fixpoint buff_loot (pos : FPoint) (items : list Event_Component) : M World unit :=
  match items with
  | [] => ret tt
  | item :: rest =>
      let* x := lift_option (F32.to_int (fp_x pos)) in
      let* y := lift_option (F32.to_int (fp_y pos)) in
      modify (fun w => set_loot (loot w ++ [ec_set_xy x y item]) w) >>
      buff_loot pos rest
  end.

Definition buff (power_index : Z) (src_stats : StatPtr) (target : FPoint)
  : M World unit :=
  let* p := power_at power_index in
  (* teleport to the target location *)
  (if Power.buff_teleport p then
     let* s := deref src_stats in
     let target := limitRange (Power.target_range p) (StatBlock.pos s) target in
     if 0 <? Power.target_neighbor p then
       let* c := the_collider in
       let* new_target :=
         with_rng (get_random_neighbor E c (floor_FPoint E target)
                     (Power.target_neighbor p) false) in
       if F32.eqb (floorf E (fp_x new_target)) (floorf E (fp_x target))
          && F32.eqb (floorf E (fp_y new_target)) (floorf E (fp_y target))
       then update_stats src_stats (StatBlock.set_teleportation false)
       else
         update_stats src_stats
           (fun s => StatBlock.set_teleport_destination new_target
                       (StatBlock.set_teleportation true s))
     else
       update_stats src_stats
         (fun s => StatBlock.set_teleport_destination target
                     (StatBlock.set_teleportation true s))
   else ret tt) >>
  (* handle all other effects *)
  let* s := deref src_stats in
  when_ (Power.buff p || (Power.buff_party p && StatBlock.hero_ally s))
    (effect src_stats power_index (source_type_of s) >> ret tt) >>
  when_ (Power.buff_party p && negb (Power.passive p))
    (modify (fun w => set_party_buffs (party_buffs w ++ [power_index]) w)) >>
  (* activate any post powers here if the power doesn't use a hazard *)
  when_ (negb (Power.use_hazard p))
    (let* s := deref src_stats in
     activate (Power.post_power p) src_stats (StatBlock.pos s) >>
     (* handle loot *)
     let* p := power_at power_index in
     let* s := deref src_stats in
     buff_loot (StatBlock.pos s) (Power.loot p)).

(** *** fixed *)

Fixpoint fixed_loop (n : nat) (power_index : Z) (src_stats : StatPtr)
    (target : FPoint) (delay_iterator : Z) : M World unit :=
  match n with
  | O => ret tt
  | S n' =>
      let* p := power_at power_index in
      let* haz := initHazard power_index src_stats target (Hazard_default E) in
      (* add optional delay *)
      push_hazard (Hazard.set_delay_frames delay_iterator haz) >>
      fixed_loop n' power_index src_stats target
        (Int.add delay_iterator (Power.delay p))
  end.

Definition fixed (power_index : Z) (src_stats : StatPtr) (target : FPoint)
  : M World bool :=
  let* p := power_at power_index in
  when_ (Power.use_hazard p)
    (fixed_loop (Z.to_nat (Power.count p)) power_index src_stats target 0) >>
  buff power_index src_stats target >>
  (* If there's a sound effect, play it here *)
  playSound power_index >>
  payPowerCost power_index src_stats >>
  ret true.

(** *** missile *)

(** [((1.0f - count)/2 + i) * (missile_angle * M_PI / 180.0f)], all in [float] *)
Definition missile_offset_angle (count missile_angle i : Z) : float :=
  F32.mul
    (F32.add (F32.div (F32.sub (F32.of_Z 1) (F32.of_Z count)) (F32.of_Z 2))
       (F32.of_Z i))
    (F32.div (F32.mul (F32.of_Z missile_angle) M_PI_f) (F32.of_Z 180)).

(** [pow(-1.0f, (rand() % 2) - 1) * (rand() % angle_variance) * M_PI / 180.0f],
    computed in [double] and converted to [float]; the two calls of [rand]
    are taken left to right. *)
Definition missile_variance (angle_variance : Z) : M World float :=
  if angle_variance =? 0 then ret F32.zero
  else
    let* r1 := with_rng (rand E) in
    let* r2 := with_rng (rand E) in
    ret (F32.of_double
           (F64.div
              (F64.mul
                 (F64.mul (F64.pow_neg1 (Int.sub (Int.rem r1 2) 1))
                    (F64.of_Z (Int.rem r2 angle_variance)))
                 F64.M_PI)
              (F64.of_Z 180))).

(** [((var * 2.0f * rand()) / RAND_MAX) - var] *)
Definition missile_speed_var (speed_variance : float) : M World float :=
  if F32.eqb speed_variance F32.zero then ret F32.zero
  else
    let var := speed_variance in
    let* r := with_rng (rand E) in
    ret (F32.sub
           (F32.div (F32.mul (F32.mul var (F32.of_Z 2)) (F32.of_Z r))
              (F32.of_Z (RAND_MAX E)))
           var).

Fixpoint missile_loop (n : nat) (power_index : Z) (src_stats : StatPtr)
    (target : FPoint) (theta : float) (i delay_iterator : Z) : M World unit :=
  match n with
  | O => ret tt
  | S n' =>
      let* p := power_at power_index in
      let* haz := initHazard power_index src_stats target (Hazard_default E) in
      (* calculate individual missile angle *)
      let offset_angle :=
        missile_offset_angle (Power.count p) (Power.missile_angle p) i in
      let* variance := missile_variance (Power.angle_variance p) in
      let alpha := F32.add (F32.add theta offset_angle) variance in
      (* calculate the missile velocity *)
      let* speed_var := missile_speed_var (Power.speed_variance p) in
      (* set speed and angle *)
      let haz := Hazard.set_base_speed (F32.add (Hazard.base_speed haz) speed_var) haz in
      let haz := setAngle E alpha haz in
      (* add optional delay *)
      push_hazard (Hazard.set_delay_frames delay_iterator haz) >>
      missile_loop n' power_index src_stats target theta (i + 1)
        (Int.add delay_iterator (Power.delay p))
  end.

Definition missile (power_index : Z) (src_stats : StatPtr) (target : FPoint)
  : M World bool :=
  let* p := power_at power_index in
  let* s := deref src_stats in
  let src :=
    match Power.starting_pos p with
    | STARTING_POS_TARGET => target
    | _ => StatBlock.pos s
    end in
  (* calculate polar coordinates angle *)
  let theta := calcTheta E (fp_x src) (fp_y src) (fp_x target) (fp_y target) in
  (* generate hazards *)
  missile_loop (Z.to_nat (Power.count p)) power_index src_stats target theta 0 0 >>
  payPowerCost power_index src_stats >>
  playSound power_index >>
  ret true.

(** *** repeater *)

Fixpoint repeater_loop (n : nat) (power_index : Z) (src_stats : StatPtr)
    (target : FPoint) (speed location_iterator : FPoint) (delay_iterator : Z)
  : M World unit :=
  match n with
  | O => ret tt
  | S n' =>
      let location_iterator :=
        {| fp_x := F32.add (fp_x location_iterator) (fp_x speed);
           fp_y := F32.add (fp_y location_iterator) (fp_y speed) |} in
      let* c := the_collider in
      (* only travels until it hits a wall *)
      if is_wall E c (fp_x location_iterator) (fp_y location_iterator) then
        ret tt (* no more hazards *)
      else
        let* p := power_at power_index in
        let* haz := initHazard power_index src_stats target (Hazard_default E) in
        let haz := Hazard.set_pos location_iterator haz in
        push_hazard (Hazard.set_delay_frames delay_iterator haz) >>
        repeater_loop n' power_index src_stats target speed location_iterator
          (Int.add delay_iterator (Power.delay p))
  end.

Definition repeater (power_index : Z) (src_stats : StatPtr) (target : FPoint)
  : M World bool :=
  payPowerCost power_index src_stats >>
  let* p := power_at power_index in
  let* s := deref src_stats in
  (* calculate polar coordinates angle *)
  let theta :=
    calcTheta E (fp_x (StatBlock.pos s)) (fp_y (StatBlock.pos s))
      (fp_x target) (fp_y target) in
  let speed :=
    {| fp_x := F32.mul (Power.speed p) (cosf E theta);
       fp_y := F32.mul (Power.speed p) (sinf E theta) |} in
  let location_iterator := StatBlock.pos s in
  playSound power_index >>
  repeater_loop (Z.to_nat (Power.count p)) power_index src_stats target speed
    location_iterator 0 >>
  ret true.

(** *** spawn *)

(** The tile a power-driven spawn ends up on: the declared starting position,
    replaced by a random neighbour of the source when [target_neighbor] is
    positive or the starting position is blocked. *)
Definition spawn_pos (p : Power.t) (s : StatBlock.t) (target : FPoint)
    (c : Collider E) (r : Rng E) : FPoint * Rng E :=
  let pos :=
    match Power.starting_pos p with
    | STARTING_POS_SOURCE => StatBlock.pos s
    | STARTING_POS_TARGET => target
    | STARTING_POS_MELEE =>
        calcVector E (StatBlock.pos s) (StatBlock.direction s)
          (StatBlock.melee_range s)
    | STARTING_POS_NONE => Map_Enemy.pos (Map_Enemy_default E)
    end in
  (* force target_neighbor if our initial target is blocked *)
  let target_neighbor := Power.target_neighbor p in
  let target_neighbor :=
    if negb (is_empty E c (fp_x pos) (fp_y pos)) && (target_neighbor <? 1)
    then 1 else target_neighbor in
  if 0 <? target_neighbor then
    let (np, r) := get_random_neighbor E c (floor_FPoint E (StatBlock.pos s))
                     target_neighbor false r in
    (FPoint_of_Point E (floor_FPoint E np), r)
  else (pos, r).

Definition spawn (power_index : Z) (src_stats : StatPtr) (target : FPoint)
  : M World bool :=
  let* p := power_at power_index in
  let* s := deref src_stats in
  let espawn := Map_Enemy.set_type (Power.spawn_type p) (Map_Enemy_default E) in
  let espawn := Map_Enemy.set_summoner src_stats espawn in
  (* enemy spawning position *)
  let* c := the_collider in
  let* pos := with_rng (spawn_pos p s target c) in
  let espawn := Map_Enemy.set_pos pos espawn in
  (* can't spawn on a blocked tile *)
  if negb (is_empty E c (fp_x pos) (fp_y pos)) then ret false
  else
    let espawn :=
      Map_Enemy.set_direction
        (calcDirection E (fp_x (StatBlock.pos s)) (fp_y (StatBlock.pos s))
           (fp_x target) (fp_y target)) espawn in
    let espawn := Map_Enemy.set_summon_power_index power_index espawn in
    let espawn :=
      Map_Enemy.set_hero_ally (StatBlock.hero s || StatBlock.hero_ally s) espawn in
    modify (fun w =>
      set_enemies (enemies w ++ replicate (Z.to_nat (Power.count p)) espawn) w) >>
    payPowerCost power_index src_stats >>
    (* apply any buffs *)
    buff power_index src_stats target >>
    (* If there's a sound effect, play it here *)
    playSound power_index >>
    ret true.

(** A simpler spawn routine for map events *)
Definition spawn_at (enemy_type : string) (target : Point) : M World bool :=
  let espawn := Map_Enemy.set_type enemy_type (Map_Enemy_default E) in
  let espawn := Map_Enemy.set_pos (FPoint_of_Point E target) espawn in
  (* quick spawns start facing a random direction *)
  let* r := with_rng (rand E) in
  let espawn := Map_Enemy.set_direction (Int.rem r 8) espawn in
  modify (fun w => set_enemies (enemies w ++ [espawn]) w) >>
  ret true.

(** *** transform *)

Definition transform (power_index : Z) (src_stats : StatPtr) (target : FPoint)
  : M World bool :=
  (* locking the actionbar prevents power usage until after the hero is transformed *)
  modify (set_action_bar_locked true) >>
  let* p := power_at power_index in
  let* s := deref src_stats in
  if StatBlock.transformed s && negb (Power.spawn_type p =s "untransform") then
    modify (set_log_msg (msg_get E "You are already transformed, untransform first.")) >>
    ret false
  else
    let* proceed :=
      (* execute untransform powers *)
      if (Power.spawn_type p =s "untransform") && StatBlock.transformed s then
        let x := fp_x (StatBlock.pos s) in
        let y := fp_y (StatBlock.pos s) in
        let* c := the_collider in
        let c := unblock E c x y in
        modify (set_collider (Some c)) >>
        if is_valid_position E c x y MOVEMENT_NORMAL true then
          update_stats src_stats
            (fun s => StatBlock.set_transform_type "untransform"
                        (StatBlock.set_transform_duration 0 s)) >>
          modify (set_collider (Some (block_tile E c x y false))) >>
          ret true
        else
          modify (set_log_msg (msg_get E "Could not untransform at this position.")) >>
          modify (set_action_bar_locked false) >>
          modify (set_collider (Some (block_tile E c x y false))) >>
          ret false
      else
        (if Power.transform_duration p =? 0 then
           (* permanent transformation *)
           update_stats src_stats (StatBlock.set_transform_duration (-1))
         else if 0 <? Power.transform_duration p then
           (* timed transformation *)
           update_stats src_stats
             (StatBlock.set_transform_duration (Power.transform_duration p))
         else ret tt) >>
        update_stats src_stats (StatBlock.set_transform_type (Power.spawn_type p)) >>
        ret true in
    if negb proceed then ret false
    else
      (* apply any buffs *)
      buff power_index src_stats target >>
      let* p := power_at power_index in
      update_stats src_stats
        (fun s =>
           StatBlock.set_untransform_on_hit (Power.untransform_on_hit p)
             (StatBlock.set_transform_with_equipment (Power.keep_equipment p)
                (StatBlock.set_manual_untransform (Power.manual_untransform p) s))) >>
      (* If there's a sound effect, play it here *)
      playSound power_index >>
      payPowerCost power_index src_stats >>
      ret true.

(** *** block *)

Definition block (power_index : Z) (src_stats : StatPtr) : M World bool :=
  let* s := deref src_stats in
  (* if the hero is blocking, we can't activate any more blocking powers *)
  if EffectManager.triggered_block (StatBlock.effects s) then ret false
  else
    update_stats src_stats
      (fun s => StatBlock.set_effects
                  (EffectManager.set_triggered_block true (StatBlock.effects s)) s) >>
    (* passive_trigger MUST be "TRIGGER_BLOCK", since that is how we will later
       remove effects added by blocking *)
    update_power power_index (Power.set_passive_trigger (TRIGGER_BLOCK E)) >>
    effect src_stats power_index (SOURCE_TYPE_HERO E) >>
    (* If there's a sound effect, play it here *)
    playSound power_index >>
    payPowerCost power_index src_stats >>
    ret true.

(** *** activate: one level of the dispatcher *)

Definition activate_body (power_index : Z) (src_stats : StatPtr) (target : FPoint)
  : M World bool :=
  let* ps := gets powers in
  if Z.of_nat (length ps) <=? Int.to_unsigned power_index then ret false
  else
    let* s := deref src_stats in
    let* p := power_at power_index in
    if StatBlock.hero s && (StatBlock.mp s <? Power.requires_mp p) then ret false
    else if (0 <? StatBlock.hp s) && negb (Power.sacrifice p)
            && (StatBlock.hp s <=? Power.requires_hp p) then ret false
    else if bool_decide (Power.type p = POWTYPE_BLOCK) then block power_index src_stats
    else
      (* logic for different types of powers are very different *)
      match Power.type p with
      | POWTYPE_FIXED => fixed power_index src_stats target
      | POWTYPE_MISSILE => missile power_index src_stats target
      | POWTYPE_REPEATER => repeater power_index src_stats target
      | POWTYPE_SPAWN => spawn power_index src_stats target
      | POWTYPE_TRANSFORM => transform power_index src_stats target
      | POWTYPE_BLOCK | POWTYPE_NONE => ret false
      end.

End Strategies.

(** [activate], with the depth of its recursion through [buff] bounded by
    [fuel]; a chain of post powers longer than the fuel yields [None]. *)
Fixpoint activate (fuel : nat) (power_index : Z) (src_stats : StatPtr)
    (target : FPoint) : M World bool :=
  match fuel with
  | O => undefined
  | S fuel' => activate_body (activate fuel') power_index src_stats target
  end.

(** *** activatePassives, activateSinglePassive *)

(** The body of both loops of [activatePassives], for the power [id] of the
    list; the result is the new value of the local [triggered_others]. *)
Definition passive_step (fuel : nat) (src_stats : StatPtr) (triggered_others : bool)
    (id : Z) : M World bool :=
  let* p := power_at id in
  if negb (Power.passive p) then ret triggered_others
  else
    let trigger := Power.passive_trigger p in
    let* s := deref src_stats in
    let em := StatBlock.effects s in
    let fire (triggered_others : bool) : M World bool :=
      let* s := deref src_stats in
      activate fuel id src_stats (StatBlock.pos s) >>
      update_stats src_stats (StatBlock.set_refresh_stats true) >>
      ret triggered_others in
    let set_flag (f : EffectManager.t -> EffectManager.t) : M World unit :=
      update_stats src_stats
        (fun s => StatBlock.set_effects (f (StatBlock.effects s)) s) in
    if trigger =? -1 then
      if EffectManager.triggered_others em then ret triggered_others
      else fire true
    else if (trigger =? TRIGGER_BLOCK E) && negb (EffectManager.triggered_block em)
    then ret triggered_others
    else if (trigger =? TRIGGER_HIT E) && negb (EffectManager.triggered_hit em)
    then ret triggered_others
    else if (trigger =? TRIGGER_HALFDEATH E)
            && negb (EffectManager.triggered_halfdeath em) then
      if Int.div (StatBlock.get s STAT_HP_MAX) 2 <? StatBlock.hp s
      then ret triggered_others
      else set_flag (EffectManager.set_triggered_halfdeath true) >>
           fire triggered_others
    else if (trigger =? TRIGGER_JOINCOMBAT E)
            && negb (EffectManager.triggered_joincombat em) then
      if negb (StatBlock.in_combat s) then ret triggered_others
      else set_flag (EffectManager.set_triggered_joincombat true) >>
           fire triggered_others
    else if (trigger =? TRIGGER_DEATH E) && negb (EffectManager.triggered_death em)
    then ret triggered_others
    else fire triggered_others.

Fixpoint passive_loop (fuel : nat) (src_stats : StatPtr) (triggered_others : bool)
    (ids : list Z) : M World bool :=
  match ids with
  | [] => ret triggered_others
  | id :: rest =>
      let* triggered_others := passive_step fuel src_stats triggered_others id in
      passive_loop fuel src_stats triggered_others rest
  end.

Definition activatePassives (fuel : nat) (src_stats : StatPtr) : M World unit :=
  let triggered_others := false in
  (* unlocked powers *)
  let* s := deref src_stats in
  let* triggered_others :=
    passive_loop fuel src_stats triggered_others (StatBlock.powers_passive s) in
  (* item powers *)
  let* s := deref src_stats in
  let* triggered_others :=
    passive_loop fuel src_stats triggered_others (StatBlock.powers_list_items s) in
  (* Only trigger normal passives once *)
  when_ triggered_others
    (update_stats src_stats
       (fun s => StatBlock.set_effects
                   (EffectManager.set_triggered_others true (StatBlock.effects s)) s)) >>
  (* the hit/death triggers can be triggered more than once, so reset them here *)
  update_stats src_stats
    (fun s => StatBlock.set_effects
                (EffectManager.set_triggered_death false
                   (EffectManager.set_triggered_hit false (StatBlock.effects s))) s).

Definition activateSinglePassive (fuel : nat) (src_stats : StatPtr) (id : Z)
  : M World unit :=
  let* p := power_at id in
  if negb (Power.passive p) then ret tt
  else if Power.passive_trigger p =? -1 then
    let* s := deref src_stats in
    activate fuel id src_stats (StatBlock.pos s) >>
    update_stats src_stats (StatBlock.set_refresh_stats true) >>
    update_stats src_stats
      (fun s => StatBlock.set_effects
                  (EffectManager.set_triggered_others true (StatBlock.effects s)) s)
  else ret tt.

(** *** verifyID, isValidEffect, loadSFX *)

Definition log_error (e : LoadError) : M World unit :=
  modify (fun w => set_errors (errors w ++ [e]) w).

Definition verifyID (power_id : Z) (allow_zero : bool) : M World Z :=
  let* ps := gets powers in
  let lower_bound :=
    (allow_zero && (power_id <? 0)) || (negb allow_zero && (power_id <? 1)) in
  if lower_bound || (Z.of_nat (length ps) <=? Int.to_unsigned power_id) then
    log_error (ErrInvalidPowerId power_id) >> ret 0
  else ret power_id.

Definition isValidEffect (effs : list EffectDef.t) (type : string) : bool :=
  if type =s "speed" then true
  else if type =s "physical" then true
  else if type =s "mental" then true
  else if type =s "offense" then true
  else if type =s "defense" then true
  else if existsb (fun k => type =s k) (STAT_KEY E) then true
  else if existsb (fun e => type =s (e +:+ "_resist")) (ELEMENTS E) then true
  else match getEffectDef effs type with Some _ => true | None => false end.

Definition loadSFX (filename : string) : M World Z :=
  let sid := snd_load E filename in
  let* sounds := gets sfx in
  match list_find (fun x => x = sid) sounds with
  | None =>
      modify (set_sfx (sounds ++ [sid])) >>
      ret (Int.sub (Int.of_size (length (sounds ++ [sid]))) 1)
  | Some (i, _) => ret (Int.wrap (Z.of_nat i))
  end.

(** *** loadPowers *)

(** [toInt(s, default_value)]: the result is an [int]. *)
Definition to_int (s : string) (default_value : Z) : Z :=
  Int.wrap (toInt E s default_value).

(** The tokens of a value up to the first empty one:
    [while ((t = pop(val)) != "") ...].  A real value is exhausted after at
    most one pop per character; more pops than that do not terminate. *)
Fixpoint pop_tokens (pop : string -> string * string) (fuel : nat) (val : string)
  : option (list string) :=
  let (t, rest) := pop val in
  if t =s "" then Some []
  else match fuel with
       | O => None
       | S fuel' => cons t <$> pop_tokens pop fuel' rest
       end.

(** The local variables of the loop of [loadPowers]. *)
Record LoadLoop := {
  clear_post_effects : bool;
  clear_loot : bool;
  input_id : Z;
  skippingEntry : bool }.

Definition parse_stat_modifier_mode (mode : string) : option StatModifierMode :=
  if mode =s "multiply" then Some STAT_MODIFIER_MODE_MULTIPLY
  else if mode =s "add" then Some STAT_MODIFIER_MODE_ADD
  else if mode =s "absolute" then Some STAT_MODIFIER_MODE_ABSOLUTE
  else None.

Definition parse_spawn_stat (stat : string) : option SpawnStat :=
  if stat =s "physical" then Some SPAWN_STAT_PHYSICAL
  else if stat =s "mental" then Some SPAWN_STAT_MENTAL
  else if stat =s "offense" then Some SPAWN_STAT_OFFENSE
  else if stat =s "defense" then Some SPAWN_STAT_DEFENSE
  else None.

(** [trait_elemental]: every element whose id equals the value writes its
    index, so the last one stays. *)
Fixpoint load_trait_elemental (id : Z) (val : string) (i : Z) (elements : list string)
  : M World unit :=
  match elements with
  | [] => ret tt
  | e :: rest =>
      when_ (val =s e) (update_power id (Power.set_trait_elemental i)) >>
      load_trait_elemental id val (i + 1) rest
  end.

(** The record [requires_equipped_item = item, quantity]. *)
Definition load_requires_equipped_item (val : string) (id : Z) (st : LoadLoop)
  : M World LoadLoop :=
  let (item, rest) := nextValue E val in
  let (quantity, _) := nextValue E rest in
  update_power id
    (fun p => Power.set_requires_equipped_item_quantity (to_int quantity 0)
                (Power.set_requires_equipped_item (to_int item 0) p)) >>
  (* a maximum of 1 equipped item can be consumed at a time *)
  let* p := power_at id in
  if 1 <? Power.requires_equipped_item_quantity p then
    log_error ErrEquippedItemQuantity >>
    update_power id
      (fun p => Power.set_requires_equipped_item_quantity
                  (clampCeil (Power.requires_equipped_item_quantity p) 1) p) >>
    ret st
  else ret st.

(** [pe.id, pe.magnitude, pe.duration] popped from the value of a
    [post_effect] record. *)
Definition parse_post_effect (val : string) : PostEffect :=
  let (pe_id, rest) := popFirstString E val in
  let (magnitude, rest) := popFirstInt E rest in
  let (duration, _) := popFirstString E rest in
  {| pe_id := pe_id; pe_magnitude := Int.wrap magnitude;
     pe_duration := parse_duration E duration |}.

(** The record [post_effect = effect_id, magnitude, duration]. *)
Definition load_post_effect (val : string) (id : Z) (st : LoadLoop)
  : M World LoadLoop :=
  when_ (clear_post_effects st) (update_power id (Power.set_post_effects [])) >>
  let st := {| clear_post_effects := false; clear_loot := clear_loot st;
               input_id := input_id st; skippingEntry := skippingEntry st |} in
  let pe := parse_post_effect val in
  let* effs := gets effects in
  if negb (isValidEffect effs (pe_id pe)) then
    log_error (ErrUnknownEffect (pe_id pe)) >> ret st
  else
    update_power id (fun p => Power.set_post_effects (Power.post_effects p ++ [pe]) p) >>
    ret st.

(** The record [spawn_limit = mode, qty, every, stat]. *)
Definition load_spawn_limit (val : string) (id : Z) (st : LoadLoop)
  : M World LoadLoop :=
  let (mode, rest) := popFirstString E val in
  (if mode =s "fixed" then update_power id (Power.set_spawn_limit_mode SPAWN_LIMIT_MODE_FIXED)
   else if mode =s "stat" then update_power id (Power.set_spawn_limit_mode SPAWN_LIMIT_MODE_STAT)
   else if mode =s "unlimited" then
     update_power id (Power.set_spawn_limit_mode SPAWN_LIMIT_MODE_UNLIMITED)
   else log_error (ErrUnknownSpawnLimitMode mode)) >>
  let* p := power_at id in
  if bool_decide (Power.spawn_limit_mode p = SPAWN_LIMIT_MODE_UNLIMITED) then ret st
  else
    let (qty, rest) := popFirstInt E rest in
    update_power id (Power.set_spawn_limit_qty (Int.wrap qty)) >>
    if bool_decide (Power.spawn_limit_mode p = SPAWN_LIMIT_MODE_STAT) then
      let (every, rest) := popFirstInt E rest in
      update_power id (Power.set_spawn_limit_every (Int.wrap every)) >>
      let (stat, _) := popFirstString E rest in
      match parse_spawn_stat stat with
      | Some v => update_power id (Power.set_spawn_limit_stat v) >> ret st
      | None => log_error (ErrUnknownSpawnLimitStat stat) >> ret st
      end
    else ret st.

(** The record [spawn_level = mode, qty, every, stat]. *)
Definition load_spawn_level (val : string) (id : Z) (st : LoadLoop)
  : M World LoadLoop :=
  let (mode, rest) := popFirstString E val in
  (if mode =s "default" then
     update_power id (Power.set_spawn_level_mode SPAWN_LEVEL_MODE_DEFAULT)
   else if mode =s "fixed" then
     update_power id (Power.set_spawn_level_mode SPAWN_LEVEL_MODE_FIXED)
   else if mode =s "stat" then
     update_power id (Power.set_spawn_level_mode SPAWN_LEVEL_MODE_STAT)
   else if mode =s "level" then
     update_power id (Power.set_spawn_level_mode SPAWN_LEVEL_MODE_LEVEL)
   else log_error (ErrUnknownSpawnLevelMode mode)) >>
  let* p := power_at id in
  if bool_decide (Power.spawn_level_mode p = SPAWN_LEVEL_MODE_DEFAULT) then ret st
  else
    let (qty, rest) := popFirstInt E rest in
    update_power id (Power.set_spawn_level_qty (Int.wrap qty)) >>
    if bool_decide (Power.spawn_level_mode p = SPAWN_LEVEL_MODE_FIXED) then ret st
    else
      let (every, rest) := popFirstInt E rest in
      update_power id (Power.set_spawn_level_every (Int.wrap every)) >>
      if bool_decide (Power.spawn_level_mode p = SPAWN_LEVEL_MODE_STAT) then
        let (stat, _) := popFirstString E rest in
        match parse_spawn_stat stat with
        | Some v => update_power id (Power.set_spawn_level_stat v) >> ret st
        | None => log_error (ErrUnknownSpawnLevelStat stat) >> ret st
        end
      else ret st.

(** The record [loot = ...]. *)
Definition load_loot (lootm : bool) (val : string) (id : Z) (st : LoadLoop)
  : M World LoadLoop :=
  when_ (clear_loot st) (update_power id (Power.set_loot [])) >>
  let st := {| clear_post_effects := clear_post_effects st; clear_loot := false;
               input_id := input_id st; skippingEntry := skippingEntry st |} in
  when_ lootm
    (update_power id
       (fun p => Power.set_loot
                   (parseLoot E val (Power.loot p ++ [Event_Component_default E])) p)) >>
  ret st.

(** One record [key = val] for the power [id] of the current block. *)
Definition loadPowers_key (lootm : bool) (key val : string) (id : Z) (st : LoadLoop)
  : M World LoadLoop :=
  let set (f : Power.t -> Power.t) : M World LoadLoop := update_power id f >> ret st in
  let error (e : LoadError) : M World LoadLoop := log_error e >> ret st in
  if key =s "type" then
    if val =s "fixed" then set (Power.set_type POWTYPE_FIXED)
    else if val =s "missile" then set (Power.set_type POWTYPE_MISSILE)
    else if val =s "repeater" then set (Power.set_type POWTYPE_REPEATER)
    else if val =s "spawn" then set (Power.set_type POWTYPE_SPAWN)
    else if val =s "transform" then set (Power.set_type POWTYPE_TRANSFORM)
    else if val =s "block" then set (Power.set_type POWTYPE_BLOCK)
    else error (ErrUnknownType val)
  else if key =s "name" then set (Power.set_name (msg_get E val))
  else if key =s "description" then set (Power.set_description (msg_get E val))
  else if key =s "icon" then set (Power.set_icon (to_int val 0))
  else if key =s "new_state" then
    if val =s "instant" then set (Power.set_new_state POWSTATE_INSTANT)
    else set (fun p => Power.set_attack_anim val (Power.set_new_state POWSTATE_ATTACK p))
  else if key =s "face" then set (Power.set_face (toBool E val))
  else if key =s "source_type" then
    if val =s "hero" then set (Power.set_source_type (SOURCE_TYPE_HERO E))
    else if val =s "neutral" then set (Power.set_source_type (SOURCE_TYPE_NEUTRAL E))
    else if val =s "enemy" then set (Power.set_source_type (SOURCE_TYPE_ENEMY E))
    else error (ErrUnknownSourceType val)
  else if key =s "beacon" then set (Power.set_beacon (toBool E val))
  else if key =s "count" then set (Power.set_count (to_int val 0))
  else if key =s "passive" then set (Power.set_passive (toBool E val))
  else if key =s "passive_trigger" then
    if val =s "on_block" then set (Power.set_passive_trigger (TRIGGER_BLOCK E))
    else if val =s "on_hit" then set (Power.set_passive_trigger (TRIGGER_HIT E))
    else if val =s "on_halfdeath" then set (Power.set_passive_trigger (TRIGGER_HALFDEATH E))
    else if val =s "on_joincombat" then set (Power.set_passive_trigger (TRIGGER_JOINCOMBAT E))
    else if val =s "on_death" then set (Power.set_passive_trigger (TRIGGER_DEATH E))
    else error (ErrUnknownPassiveTrigger val)
  else if key =s "meta_power" then set (Power.set_meta_power (toBool E val))
  (* power requirements *)
  else if key =s "requires_flags" then
    update_power id (Power.set_requires_flags ∅) >>
    let* flags := lift_option (pop_tokens (popFirstString E) (String.length val) val) in
    set (fun p => Power.set_requires_flags
                    (Power.requires_flags p ∪ list_to_set flags) p)
  else if key =s "requires_mp" then set (Power.set_requires_mp (to_int val 0))
  else if key =s "requires_hp" then set (Power.set_requires_hp (to_int val 0))
  else if key =s "sacrifice" then set (Power.set_sacrifice (toBool E val))
  else if key =s "requires_los" then set (Power.set_requires_los (toBool E val))
  else if key =s "requires_empty_target" then
    set (Power.set_requires_empty_target (toBool E val))
  else if key =s "requires_item" then
    let (item, rest) := nextValue E val in
    let (quantity, _) := nextValue E rest in
    set (fun p => Power.set_requires_item_quantity (to_int quantity 1)
                    (Power.set_requires_item (to_int item 0) p))
  else if key =s "requires_equipped_item" then load_requires_equipped_item val id st
  else if key =s "requires_targeting" then
    set (Power.set_requires_targeting (toBool E val))
  else if key =s "cooldown" then set (Power.set_cooldown (parse_duration E val))
  (* animation info *)
  else if key =s "animation" then set (Power.set_animation_name val)
  else if key =s "soundfx" then
    let* i := loadSFX val in set (Power.set_sfx_index i)
  else if key =s "directional" then set (Power.set_directional (toBool E val))
  else if key =s "visual_random" then set (Power.set_visual_random (to_int val 0))
  else if key =s "visual_option" then set (Power.set_visual_option (to_int val 0))
  else if key =s "aim_assist" then set (Power.set_aim_assist (toBool E val))
  else if key =s "speed" then
    set (Power.set_speed (F32.div (toFloat E val) (F32.of_Z (MAX_FRAMES_PER_SEC E))))
  else if key =s "lifespan" then set (Power.set_lifespan (parse_duration E val))
  else if key =s "floor" then set (Power.set_floor (toBool E val))
  else if key =s "complete_animation" then
    set (Power.set_complete_animation (toBool E val))
  (* hazard traits *)
  else if key =s "use_hazard" then set (Power.set_use_hazard (toBool E val))
  else if key =s "no_attack" then set (Power.set_no_attack (toBool E val))
  else if key =s "radius" then set (Power.set_radius (toFloat E val))
  else if key =s "base_damage" then
    if val =s "none" then set (Power.set_base_damage BASE_DAMAGE_NONE)
    else if val =s "melee" then set (Power.set_base_damage BASE_DAMAGE_MELEE)
    else if val =s "ranged" then set (Power.set_base_damage BASE_DAMAGE_RANGED)
    else if val =s "ment" then set (Power.set_base_damage BASE_DAMAGE_MENT)
    else error (ErrUnknownBaseDamage val)
  else if key =s "starting_pos" then
    if val =s "source" then set (Power.set_starting_pos STARTING_POS_SOURCE)
    else if val =s "target" then set (Power.set_starting_pos STARTING_POS_TARGET)
    else if val =s "melee" then set (Power.set_starting_pos STARTING_POS_MELEE)
    else error (ErrUnknownStartingPos val)
  else if key =s "multitarget" then set (Power.set_multitarget (toBool E val))
  else if key =s "trait_armor_penetration" then
    set (Power.set_trait_armor_penetration (toBool E val))
  else if key =s "trait_avoidance_ignore" then
    set (Power.set_trait_avoidance_ignore (toBool E val))
  else if key =s "trait_crits_impaired" then
    set (Power.set_trait_crits_impaired (to_int val 0))
  else if key =s "trait_elemental" then
    load_trait_elemental id val 0 (ELEMENTS E) >> ret st
  else if key =s "target_range" then
    set (Power.set_target_range (toFloat E (fst (nextValue E val))))
  (* steal effects *)
  else if key =s "hp_steal" then set (Power.set_hp_steal (to_int val 0))
  else if key =s "mp_steal" then set (Power.set_mp_steal (to_int val 0))
  (* missile modifiers *)
  else if key =s "missile_angle" then set (Power.set_missile_angle (to_int val 0))
  else if key =s "angle_variance" then set (Power.set_angle_variance (to_int val 0))
  else if key =s "speed_variance" then set (Power.set_speed_variance (toFloat E val))
  (* repeater modifiers *)
  else if key =s "delay" then set (Power.set_delay (parse_duration E val))
  (* buff/debuff durations *)
  else if key =s "transform_duration" then
    set (Power.set_transform_duration (parse_duration E val))
  else if key =s "manual_untransform" then
    set (Power.set_manual_untransform (toBool E val))
  else if key =s "keep_equipment" then set (Power.set_keep_equipment (toBool E val))
  else if key =s "untransform_on_hit" then
    set (Power.set_untransform_on_hit (toBool E val))
  (* buffs *)
  else if key =s "buff" then set (Power.set_buff (toBool E val))
  else if key =s "buff_teleport" then set (Power.set_buff_teleport (toBool E val))
  else if key =s "buff_party" then set (Power.set_buff_party (toBool E val))
  else if key =s "buff_party_power_id" then
    set (Power.set_buff_party_power_id (to_int val 0))
  else if key =s "post_effect" then load_post_effect val id st
  (* pre and post power effects *)
  else if key =s "post_power" then set (Power.set_post_power (to_int val 0))
  else if key =s "wall_power" then set (Power.set_wall_power (to_int val 0))
  (* spawn info *)
  else if key =s "spawn_type" then set (Power.set_spawn_type val)
  else if key =s "target_neighbor" then set (Power.set_target_neighbor (to_int val 0))
  else if key =s "spawn_limit" then load_spawn_limit val id st
  else if key =s "spawn_level" then load_spawn_level val id st
  else if key =s "target_party" then set (Power.set_target_party (toBool E val))
  else if key =s "target_categories" then
    update_power id (Power.set_target_categories []) >>
    let* cats := lift_option (pop_tokens (nextValue E) (String.length val) val) in
    set (fun p => Power.set_target_categories (Power.target_categories p ++ cats) p)
  else if key =s "modifier_accuracy" then
    let (mode, rest) := popFirstString E val in
    match parse_stat_modifier_mode mode with
    | Some m => update_power id (Power.set_mod_accuracy_mode m)
    | None => log_error (ErrUnknownStatModifierMode mode)
    end >>
    set (Power.set_mod_accuracy_value (Int.wrap (fst (popFirstInt E rest))))
  else if key =s "modifier_damage" then
    let (mode, rest) := popFirstString E val in
    match parse_stat_modifier_mode mode with
    | Some m => update_power id (Power.set_mod_damage_mode m)
    | None => log_error (ErrUnknownStatModifierMode mode)
    end >>
    let (vmin, rest) := popFirstInt E rest in
    let (vmax, _) := popFirstInt E rest in
    set (fun p => Power.set_mod_damage_value_max (Int.wrap vmax)
                    (Power.set_mod_damage_value_min (Int.wrap vmin) p))
  else if key =s "modifier_critical" then
    let (mode, rest) := popFirstString E val in
    match parse_stat_modifier_mode mode with
    | Some m => update_power id (Power.set_mod_crit_mode m)
    | None => log_error (ErrUnknownStatModifierMode mode)
    end >>
    set (Power.set_mod_crit_value (Int.wrap (fst (popFirstInt E rest))))
  else if key =s "loot" then load_loot lootm val id st
  else if key =s "target_movement_normal" then
    set (Power.set_target_movement_normal (toBool E val))
  else if key =s "target_movement_flying" then
    set (Power.set_target_movement_flying (toBool E val))
  else if key =s "target_movement_intangible" then
    set (Power.set_target_movement_intangible (toBool E val))
  else if key =s "walls_block_aoe" then
    set (Power.set_walls_block_aoe (toBool E val))
  else error (ErrInvalidKey key).

(** One turn of [while (infile.next())]. *)
Definition loadPowers_line (lootm : bool) (line : string * string) (st : LoadLoop)
  : M World LoadLoop :=
  let (key, val) := line in
  (* id needs to be the first component of each power *)
  if key =s "id" then
    let input_id := to_int val 0 in
    let skippingEntry := input_id <? 1 in
    when_ skippingEntry (log_error ErrIndexOutOfBounds) >>
    let* ps := gets powers in
    when_ (Int.of_size (length ps) <? Int.add input_id 1)
      (modify (set_powers
                 (resize (Z.to_nat (Int.add input_id 1 mod 2 ^ 64))
                    (Power_default E) ps))) >>
    ret {| clear_post_effects := true; clear_loot := true;
           input_id := input_id; skippingEntry := skippingEntry |}
  else if skippingEntry st then ret st
  else loadPowers_key lootm key val (input_id st) st.

Fixpoint loadPowers_loop (lootm : bool) (lines : list (string * string))
    (st : LoadLoop) : M World LoadLoop :=
  match lines with
  | [] => ret st
  | line :: rest =>
      let* st := loadPowers_line lootm line st in
      loadPowers_loop lootm rest st
  end.

(** [verify wall/post power ids]: the loop over the whole table. *)
Fixpoint loadPowers_verify (n : nat) (i : Z) : M World unit :=
  match n with
  | O => ret tt
  | S n' =>
      let* p := power_at i in
      let* wall := verifyID (Power.wall_power p) (verifyID_allow_zero E) in
      update_power i (Power.set_wall_power wall) >>
      let* p := power_at i in
      let* post := verifyID (Power.post_power p) (verifyID_allow_zero E) in
      update_power i (Power.set_post_power post) >>
      loadPowers_verify n' (i + 1)
  end.

(** [loadPowers]; [file] is [None] when powers/powers.txt cannot be opened,
    [lootm] tells whether the loot manager pointer is set. *)
Definition loadPowers (lootm : bool) (file : option (list (string * string)))
  : M World unit :=
  match file with
  | None => ret tt
  | Some lines =>
      loadPowers_loop lootm lines
        {| clear_post_effects := true; clear_loot := true;
           input_id := 0; skippingEntry := false |} >>
      let* ps := gets powers in
      loadPowers_verify (length ps) 0
  end.

(** ** Vocabulary of the properties *)

(** What an activation may change is stated on the [view] of the state that
    the claims are about: the power table and the queue of used equipped
    items.  [preserves Q m] says that every terminating run of [m] relates the
    views before and after by [Q]. *)
Definition view (w : World) : list Power.t * list Z :=
  (powers w, used_equipped_items w).

Definition preserves (Q : relation (list Power.t * list Z)) {A}
    (m : M World A) : Prop :=
  forall w a w', m w = Some (a, w') -> Q (view w) (view w').

(** A power definition as an activation may leave it: untouched, or, for a
    power of type block, with its passive trigger set to [TRIGGER_BLOCK]. *)
Definition power_kept (p p' : Power.t) : Prop :=
  p' = p
  \/ (Power.type p = POWTYPE_BLOCK
      /\ p' = Power.set_passive_trigger (TRIGGER_BLOCK E) p).

Definition table_kept (T T' : list Power.t) : Prop := Forall2 power_kept T T'.

(** At most one equipped item is consumed per activation. *)
Definition equipped_quantity_ok (p : Power.t) : Prop :=
  Power.requires_equipped_item_quantity p <= 1.

(** The two frame relations of the claims: the table is kept, and the queue
    of used equipped items stays free of duplicates while every power
    consumes at most one equipped item. *)
Definition Q_table : relation (list Power.t * list Z) :=
  fun v v' => table_kept (fst v) (fst v').

Definition Q_queue : relation (list Power.t * list Z) :=
  fun v v' =>
    Forall equipped_quantity_ok (fst v) /\ NoDup (snd v) ->
    Forall equipped_quantity_ok (fst v') /\ NoDup (snd v').

(** The frame relation of an invariant [I] of the power table. *)
Definition Q_invariant (I : list Power.t -> Prop) : relation (list Power.t * list Z) :=
  fun v v' => I (fst v) -> I (fst v').

(** The table holds at most [INT_MAX] entries. *)
Definition table_fits (T : list Power.t) : Prop :=
  Z.of_nat (length T) <= Int.max_int.

(** The preconditions [activate] tests before it dispatches: a hero has the
    mp, and the hp cost is not lethal unless sacrifice is allowed. *)
Definition affordable (s : StatBlock.t) (p : Power.t) : Prop :=
  (StatBlock.hero s = true -> Power.requires_mp p <= StatBlock.mp s)
  /\ (0 < StatBlock.hp s -> Power.sacrifice p = false ->
      Power.requires_hp p < StatBlock.hp s).

(** The power has no sound, or its [sfx_index] is an index into [sfx]. *)
Definition sound_ready (w : World) (p : Power.t) : Prop :=
  Power.sfx_index p = -1
  \/ (0 <= Power.sfx_index p
      /\ is_Some (sfx w !! Z.to_nat (Power.sfx_index p))).

(** [m] runs to completion from every state that holds [p] at [power_index]
    and has a collision map, and changes nothing but the random source. *)
Definition draws_only (power_index : Z) (p : Power.t) {A} (m : M World A) : Prop :=
  forall w,
    powers w !! Z.to_nat power_index = Some p ->
    is_Some (collider w) ->
    exists a r, m w = Some (a, set_rng r w).

(** The walk of a repeater: its step, and the place after [j] steps. *)
Definition repeater_speed (p : Power.t) (s : StatBlock.t) (target : FPoint) : FPoint :=
  let theta :=
    calcTheta E (fp_x (StatBlock.pos s)) (fp_y (StatBlock.pos s))
      (fp_x target) (fp_y target) in
  {| fp_x := F32.mul (Power.speed p) (cosf E theta);
     fp_y := F32.mul (Power.speed p) (sinf E theta) |}.

Definition repeater_step (speed loc : FPoint) : FPoint :=
  {| fp_x := F32.add (fp_x loc) (fp_x speed);
     fp_y := F32.add (fp_y loc) (fp_y speed) |}.

Definition repeater_location (speed start : FPoint) (j : nat) : FPoint :=
  Nat.iter j (repeater_step speed) start.

Definition wall_at (c : Collider E) (loc : FPoint) : bool :=
  is_wall E c (fp_x loc) (fp_y loc).

(** The bearing of a missile power: from the source, or from the target
    itself when the power starts at the target. *)
Definition missile_theta (p : Power.t) (s : StatBlock.t) (target : FPoint) : float :=
  let src :=
    match Power.starting_pos p with
    | STARTING_POS_TARGET => target
    | _ => StatBlock.pos s
    end in
  calcTheta E (fp_x src) (fp_y src) (fp_x target) (fp_y target).

(** The angle of missile [i] when there is no angle variance:
    [theta + offset_angle + 0]. *)
Definition missile_alpha (theta : float) (count missile_angle i : Z) : float :=
  F32.add (F32.add theta (missile_offset_angle count missile_angle i)) F32.zero.

(** A hazard that was given the angle [alpha] by [setAngle], and then its
    delay. *)
Definition aimed (alpha : float) (h : Hazard.t) : Prop :=
  exists g d, h = Hazard.set_delay_frames d (setAngle E alpha g).

(** A power with no buff, no teleport and no chain through [buff]: its
    [buff] step does nothing. *)
Definition plain (p : Power.t) : Prop :=
  Power.buff_teleport p = false /\ Power.buff p = false
  /\ Power.buff_party p = false /\ Power.use_hazard p = true.

(** The [StatBlock] after [payPowerCost] for the power [p]. *)
Definition paid (p : Power.t) (s : StatBlock.t) : StatBlock.t :=
  let s := if StatBlock.hero s
           then StatBlock.set_mp (Int.sub (StatBlock.mp s) (Power.requires_mp p)) s
           else s in
  let s := StatBlock.set_hp (Int.sub (StatBlock.hp s) (Power.requires_hp p)) s in
  StatBlock.set_hp (if StatBlock.hp s <? 0 then 0 else StatBlock.hp s) s.

(** The transform state [transform] records on its ordinary branch. *)
Definition transformed_into (p : Power.t) (s : StatBlock.t) : StatBlock.t :=
  let s := if Power.transform_duration p =? 0
           then StatBlock.set_transform_duration (-1) s
           else if 0 <? Power.transform_duration p
           then StatBlock.set_transform_duration (Power.transform_duration p) s
           else s in
  StatBlock.set_transform_type (Power.spawn_type p) s.

(** What is left of [transform] once the transform state is recorded. *)
Definition transform_commit (act : Z -> StatPtr -> FPoint -> M World bool)
    (power_index : Z) (src_stats : StatPtr) (target : FPoint) : M World bool :=
  buff act power_index src_stats target >>
  (let* p := power_at power_index in
   update_stats src_stats
     (fun s =>
        StatBlock.set_untransform_on_hit (Power.untransform_on_hit p)
          (StatBlock.set_transform_with_equipment (Power.keep_equipment p)
             (StatBlock.set_manual_untransform (Power.manual_untransform p) s))) >>
   playSound power_index >>
   payPowerCost power_index src_stats >>
   ret true).



(** What a record other than a [post_effect] record keeps: the effect
    definitions and the post effects of the entry [k] of the table; and, of
    the loop variables, the id of the block, the skip flag and the flag that
    says whether the next [post_effect] record clears the list. *)
Definition post_effects_kept (k : nat) (w w' : World) : Prop :=
  effects w' = effects w
  /\ Power.post_effects <$> powers w' !! k = Power.post_effects <$> powers w !! k.

Definition same_clearing (st st' : LoadLoop) : Prop :=
  clear_post_effects st' = clear_post_effects st
  /\ input_id st' = input_id st
  /\ skippingEntry st' = skippingEntry st.


(** ** Vocabulary of the further properties *)

(** A power id that the bounds test of [activate] lets through: it is not
    negative, and below the size of the table under the unsigned comparison. *)
Definition in_table (T : list Power.t) (id : Z) : Prop :=
  0 <= id /\ Int.to_unsigned id < Z.of_nat (length T).

(** The ids a power chains to are ids of the table. *)
Definition chain_ids_ok (T : list Power.t) (p : Power.t) : Prop :=
  in_table T (Power.post_power p) /\ in_table T (Power.wall_power p).

(** [p'] is [p] but for its two chained ids. *)
Definition same_but_chain_ids (p p' : Power.t) : Prop :=
  exists post wall, p' = Power.set_post_power post (Power.set_wall_power wall p).

(** The lower bound [verifyID] asks of an id. *)
Definition verifyID_accepts (T : list Power.t) (power_id : Z) (allow_zero : bool) : Prop :=
  (if allow_zero then 0 <= power_id else 1 <= power_id)
  /\ Int.to_unsigned power_id < Z.of_nat (length T).

(** [m] relates the state before and the state after each of its runs by
    [R]. *)
Definition keeps (R : relation World) {A} (m : M World A) : Prop :=
  forall w a w', m w = Some (a, w') -> R w w'.

(** A trigger flag of the actor that is set stays set. *)
Definition flag_stays (flag : EffectManager.t -> bool) (w w' : World) : Prop :=
  flag (StatBlock.effects (stats w)) = true ->
  flag (StatBlock.effects (stats w')) = true.

(** The footprint of an activation: the queues that other managers drain are
    only appended to, the loaded definitions and the error log are not
    touched, the table keeps its size, and the trigger flags that an
    activation may set are not cleared. *)
Record activation_frame (w w' : World) : Prop := {
  af_hazards : hazards w `prefix_of` hazards w';
  af_enemies : enemies w `prefix_of` enemies w';
  af_loot : loot w `prefix_of` loot w';
  af_party_buffs : party_buffs w `prefix_of` party_buffs w';
  af_used_items : used_items w `prefix_of` used_items w';
  af_used_equipped_items : used_equipped_items w `prefix_of` used_equipped_items w';
  af_sounds_played : sounds_played w `prefix_of` sounds_played w';
  af_combat_text : combat_text w `prefix_of` combat_text w';
  af_sfx : sfx w' = sfx w;
  af_effects : effects w' = effects w;
  af_errors : errors w' = errors w;
  af_table : length (powers w') = length (powers w);
  af_blocking : flag_stays EffectManager.triggered_block w w';
  af_others : flag_stays EffectManager.triggered_others w w';
  af_halfdeath : flag_stays EffectManager.triggered_halfdeath w w';
  af_joincombat : flag_stays EffectManager.triggered_joincombat w w' }.

(** A power of the actor's passive lists that the scan leaves alone once the
    normal passives have fired: it is not passive, or it is a normal passive
    (no trigger). *)
Definition normal_or_inactive (T : list Power.t) (id : Z) : Prop :=
  0 <= id
  /\ exists p, T !! Z.to_nat id = Some p
               /\ (Power.passive p = false \/ Power.passive_trigger p = -1).

(** The trigger flags as [activatePassives] leaves them on return. *)
Definition hit_and_death_reset (s : StatBlock.t) : StatBlock.t :=
  StatBlock.set_effects
    (EffectManager.set_triggered_death false
       (EffectManager.set_triggered_hit false (StatBlock.effects s))) s.

(** What a hazard carries of the power it was initialised for. *)
Definition carries_power (p : Power.t) (h : Hazard.t) : Prop :=
  Hazard.lifespan h = Power.lifespan p
  /\ Hazard.base_lifespan h = Power.lifespan p
  /\ Hazard.base_speed h = Power.speed p
  /\ Hazard.radius h = Power.radius p
  /\ Hazard.active h = negb (Power.no_attack p)
  /\ Hazard.post_power h = Power.post_power p
  /\ Hazard.wall_power h = Power.wall_power p
  /\ Hazard.missile h = bool_decide (Power.type p = POWTYPE_MISSILE)
  /\ (Power.loot p <> [] -> Hazard.loot h = Power.loot p).

(** The delay of the [k]-th hazard of a power: [delay] frames more than the
    one before, from [0]. *)
Definition staggered (delay : Z) (k : nat) : Z :=
  Nat.iter k (fun d => Int.add d delay) 0.

(** Every result of [m] satisfies [P]. *)
Definition yields {A} (P : A -> Prop) (m : M World A) : Prop :=
  forall w a w', m w = Some (a, w') -> P a.

(** The table after a write to the entry [k]: the size and the other entries
    are as before. *)
Definition other_entries_kept (k : nat) (w w' : World) : Prop :=
  length (powers w') = length (powers w)
  /\ forall i, i <> k -> powers w' !! i = powers w !! i.

(** The loop variables after a record that is not an [id] record: the id of
    the block and the skip flag are as before. *)
Definition same_block (st st' : LoadLoop) : Prop :=
  input_id st' = input_id st /\ skippingEntry st' = skippingEntry st.

(** ** loadEffects

    [infile.next()] of powers/effects.txt yields the records of the file one
    by one; each comes with the section it stands in and with a flag that
    tells whether it is the first record of its section. *)

Record EffectLine := {
  new_section : bool;
  section : string;
  key : string;
  val : string }.

Definition set_effect_defs : list EffectDef.t -> World -> World :=
  ltac:(setter World_eta effects).

(** [if (!effects.empty() && effects.back().id == "") effects.pop_back();] *)
Definition drop_unnamed (effs : list EffectDef.t) : list EffectDef.t :=
  match last effs with
  | Some e => if EffectDef.id e =s "" then removelast effs else effs
  | None => effs
  end.

(** [effects.back().f = v] *)
Definition update_back (f : EffectDef.t -> EffectDef.t) : M World unit :=
  let* effs := gets effects in
  let* e := lift_option (last effs) in
  modify (set_effect_defs (removelast effs ++ [f e])).

(** One turn of [while (infile.next())]. *)
Definition loadEffects_line (l : EffectLine) : M World unit :=
  when_ (new_section l && (section l =s "effect"))
    ((* check if the previous effect and remove it if there is no identifier *)
     modify (fun w =>
       set_effect_defs (drop_unnamed (effects w) ++ [EffectDef_default E]) w)) >>
  let* effs := gets effects in
  if bool_decide (effs = []) || negb (section l =s "effect") then ret tt
  else if key l =s "id" then update_back (EffectDef.set_id (val l))
  else if key l =s "type" then update_back (EffectDef.set_type (val l))
  else if key l =s "icon" then update_back (EffectDef.set_icon (to_int (val l) 0))
  else if key l =s "animation" then update_back (EffectDef.set_animation (val l))
  else if key l =s "can_stack" then
    update_back (EffectDef.set_can_stack (toBool E (val l)))
  else if key l =s "render_above" then
    update_back (EffectDef.set_render_above (toBool E (val l)))
  else log_error (ErrInvalidKey (key l)).

Fixpoint loadEffects_loop (lines : list EffectLine) : M World unit :=
  match lines with
  | [] => ret tt
  | l :: rest => loadEffects_line l >> loadEffects_loop rest
  end.

(** [loadEffects]; [file] is [None] when powers/effects.txt cannot be
    opened. *)
Definition loadEffects (file : option (list EffectLine)) : M World unit :=
  match file with
  | None => ret tt
  | Some lines =>
      loadEffects_loop lines >>
      (* check if the last effect and remove it if there is no identifier *)
      modify (fun w => set_effect_defs (drop_unnamed (effects w)) w)
  end.

(** An effect definition with an identifier. *)
Definition named (e : EffectDef.t) : Prop := EffectDef.id e <> ""%string.

(** Every power of the table has no sound, or a sound of [sfx]. *)
Definition sounds_ok (w : World) : Prop := Forall (sound_ready w) (powers w).

(** What [loadPowers] keeps of the sounds: the sounds loaded stay where they
    are, and, as long as their number fits an [int], every power keeps a sound
    of [sfx]. *)
Definition sounds_kept (w w' : World) : Prop :=
  sfx w `prefix_of` sfx w'
  /\ (Z.of_nat (length (sfx w')) <= Int.max_int -> sounds_ok w -> sounds_ok w').

(** The hp of the actor does not get above its maximum. *)
Definition hp_capped (w w' : World) : Prop :=
  StatBlock.hp (stats w) <= StatBlock.get (stats w) STAT_HP_MAX ->
  StatBlock.hp (stats w') <= StatBlock.get (stats w') STAT_HP_MAX.

(** The effect ids that are valid without a definition in powers/effects.txt. *)
Definition builtin_effects : list string :=
  ["speed"; "physical"; "mental"; "offense"; "defense"]%string.

End Model.

Arguments powers {E} w.
Arguments effects {E} w.
Arguments sfx {E} w.
Arguments hazards {E} w.
Arguments enemies {E} w.
Arguments loot {E} w.
Arguments party_buffs {E} w.
Arguments used_items {E} w.
Arguments used_equipped_items {E} w.
Arguments log_msg {E} w.
Arguments collider {E} w.
Arguments rng {E} w.
Arguments sounds_played {E} w.
Arguments combat_text {E} w.
Arguments action_bar_locked {E} w.
Arguments errors {E} w.
Arguments stats {E} w.
Arguments set_powers {E} _ _.
Arguments set_sfx {E} _ _.
Arguments set_errors {E} _ _.
Arguments set_hazards {E} _ _.
Arguments set_enemies {E} _ _.
Arguments set_loot {E} _ _.
Arguments set_party_buffs {E} _ _.
Arguments set_used_items {E} _ _.
Arguments set_used_equipped_items {E} _ _.
Arguments set_log_msg {E} _ _.
Arguments set_collider {E} _ _.
Arguments set_rng {E} _ _.
Arguments set_sounds_played {E} _ _.
Arguments set_combat_text {E} _ _.
Arguments set_action_bar_locked {E} _ _.
Arguments set_stats {E} _ _.
Arguments set_effect_defs {E} _ _.
Arguments view {E} w.
Arguments sound_ready {E} w p.

(** ** A small concrete environment

    An instance of [Env] on which the model runs: decimal parsing,
    comma-separated values, a collision map given by its wall and blocked
    tiles, a counter as random source.  The examples below are evaluated in
    it. *)

Module Demo.

Definition digit_of (c : Ascii.ascii) : option Z :=
  let n := Z.of_nat (Ascii.nat_of_ascii c) in
  if (48 <=? n) && (n <=? 57) then Some (n - 48) else None.

Fixpoint digits (s : string) (acc : Z) : option Z :=
  match s with
  | EmptyString => Some acc
  | String c rest =>
      match digit_of c with
      | Some d => digits rest (10 * acc + d)
      | None => None
      end
  end.

Definition parse_int (s : string) (default_value : Z) : Z :=
  match s with
  | EmptyString => default_value
  | String "-"%char rest =>
      match digits rest 0 with Some n => - n | None => default_value end
  | _ => match digits s 0 with Some n => n | None => default_value end
  end.

Definition parse_bool (s : string) : bool := (s =s "true") || (s =s "1").

(** The text before the first comma, and the text after it. *)
Fixpoint pop_first (s : string) : string * string :=
  match s with
  | EmptyString => (EmptyString, EmptyString)
  | String ","%char rest => (EmptyString, rest)
  | String c rest =>
      let (t, r) := pop_first rest in (String c t, r)
  end.

Definition pop_int (s : string) : Z * string :=
  let (t, r) := pop_first s in (parse_int t 0, r).

Record Tiles := {
  walls : list (Z * Z);
  blocked : list (Z * Z) }.

Definition tile (x y : float) : Z * Z :=
  (default 0 (F32.to_int x), default 0 (F32.to_int y)).

Definition wall_at (c : Tiles) (x y : float) : bool :=
  bool_decide (tile x y ∈ walls c).

Definition empty_at (c : Tiles) (x y : float) : bool :=
  negb (bool_decide (tile x y ∈ walls c)) && negb (bool_decide (tile x y ∈ blocked c)).

Definition unblock_at (c : Tiles) (x y : float) : Tiles :=
  {| walls := walls c;
     blocked := filter (fun t => t ≠ tile x y) (blocked c) |}.

Definition block_at (c : Tiles) (x y : float) (is_ally : bool) : Tiles :=
  {| walls := walls c; blocked := tile x y :: blocked c |}.

Definition to_fpoint (p : Point) : FPoint :=
  {| fp_x := F32.of_Z (pt_x p); fp_y := F32.of_Z (pt_y p) |}.

Definition to_point (p : FPoint) : Point :=
  {| pt_x := default 0 (F32.to_int (fp_x p));
     pt_y := default 0 (F32.to_int (fp_y p)) |}.

Definition blank_power : Power.t :=
  {| Power.type := POWTYPE_NONE; Power.name := ""; Power.description := "";
     Power.icon := -1; Power.new_state := POWSTATE_NONE; Power.attack_anim := "";
     Power.face := false; Power.source_type := -1; Power.beacon := false;
     Power.count := 1; Power.passive := false; Power.passive_trigger := -1;
     Power.meta_power := false; Power.requires_flags := ∅;
     Power.requires_mp := 0; Power.requires_hp := 0; Power.sacrifice := false;
     Power.requires_los := false; Power.requires_empty_target := false;
     Power.requires_item := -1; Power.requires_item_quantity := 0;
     Power.requires_equipped_item := -1;
     Power.requires_equipped_item_quantity := 0;
     Power.requires_targeting := false; Power.cooldown := 0;
     Power.animation_name := ""; Power.sfx_index := -1;
     Power.directional := false; Power.visual_random := 0;
     Power.visual_option := 0; Power.aim_assist := false;
     Power.speed := F32.zero; Power.lifespan := 0; Power.floor := false;
     Power.complete_animation := false; Power.use_hazard := false;
     Power.no_attack := false; Power.radius := F32.zero;
     Power.base_damage := BASE_DAMAGE_NONE;
     Power.starting_pos := STARTING_POS_SOURCE; Power.multitarget := false;
     Power.trait_armor_penetration := false;
     Power.trait_avoidance_ignore := false; Power.trait_crits_impaired := 0;
     Power.trait_elemental := -1; Power.target_range := F32.zero;
     Power.hp_steal := 0; Power.mp_steal := 0; Power.missile_angle := 0;
     Power.angle_variance := 0; Power.speed_variance := F32.zero;
     Power.delay := 0; Power.transform_duration := 0;
     Power.manual_untransform := false; Power.keep_equipment := false;
     Power.untransform_on_hit := false; Power.buff := false;
     Power.buff_teleport := false; Power.buff_party := false;
     Power.buff_party_power_id := 0; Power.post_effects := [];
     Power.post_power := 0; Power.wall_power := 0; Power.spawn_type := "";
     Power.target_neighbor := 0;
     Power.spawn_limit_mode := SPAWN_LIMIT_MODE_UNLIMITED;
     Power.spawn_limit_qty := 1; Power.spawn_limit_every := 1;
     Power.spawn_limit_stat := SPAWN_STAT_MENTAL;
     Power.spawn_level_mode := SPAWN_LEVEL_MODE_DEFAULT;
     Power.spawn_level_qty := 0; Power.spawn_level_every := 0;
     Power.spawn_level_stat := SPAWN_STAT_MENTAL;
     Power.target_party := false; Power.target_categories := [];
     Power.mod_accuracy_mode := STAT_MODIFIER_MODE_NONE;
     Power.mod_accuracy_value := 100;
     Power.mod_damage_mode := STAT_MODIFIER_MODE_NONE;
     Power.mod_damage_value_min := 100; Power.mod_damage_value_max := 0;
     Power.mod_crit_mode := STAT_MODIFIER_MODE_NONE;
     Power.mod_crit_value := 100; Power.loot := [];
     Power.target_movement_normal := true;
     Power.target_movement_flying := true;
     Power.target_movement_intangible := true;
     Power.walls_block_aoe := false |}.

Definition origin : FPoint := {| fp_x := F32.zero; fp_y := F32.zero |}.

Definition blank_hazard : Hazard.t :=
  {| Hazard.src_stats := 0; Hazard.power_index := 0; Hazard.source_type := 0;
     Hazard.target_party := false; Hazard.crit_chance := 0;
     Hazard.accuracy := 0; Hazard.dmg_min := 0; Hazard.dmg_max := 0;
     Hazard.animation_name := ""; Hazard.directional := false;
     Hazard.animationKind := 0; Hazard.base_lifespan := 1;
     Hazard.lifespan := 1; Hazard.on_floor := false;
     Hazard.base_speed := F32.zero; Hazard.complete_animation := false;
     Hazard.radius := F32.zero; Hazard.trait_elemental := -1;
     Hazard.active := true; Hazard.multitarget := false;
     Hazard.trait_armor_penetration := false;
     Hazard.trait_crits_impaired := 0; Hazard.beacon := false;
     Hazard.hp_steal := 0; Hazard.mp_steal := 0; Hazard.pos := origin;
     Hazard.speed := origin; Hazard.angle := F32.zero;
     Hazard.post_power := 0; Hazard.wall_power := 0; Hazard.loot := [];
     Hazard.missile := false; Hazard.target_movement_normal := true;
     Hazard.target_movement_flying := true;
     Hazard.target_movement_intangible := true;
     Hazard.walls_block_aoe := false; Hazard.delay_frames := 0 |}.

Definition env : Env :=
  {| toInt := parse_int;
     toBool := parse_bool;
     toFloat := fun s => F32.of_Z (parse_int s 0);
     parse_duration := fun s => parse_int s 0;
     popFirstString := pop_first;
     popFirstInt := pop_int;
     nextValue := pop_first;
     msg_get := fun s => s;
     msg_get_int := fun s _ => s;
     ELEMENTS := ["fire"; "ice"]%string;
     STAT_KEY := ["hp"; "mp"; "accuracy"]%string;
     MAX_FRAMES_PER_SEC := 60;
     RAND_MAX := 2147483647;
     TRIGGER_BLOCK := 0;
     TRIGGER_HIT := 1;
     TRIGGER_HALFDEATH := 2;
     TRIGGER_JOINCOMBAT := 3;
     TRIGGER_DEATH := 4;
     SOURCE_TYPE_HERO := 0;
     SOURCE_TYPE_NEUTRAL := 1;
     SOURCE_TYPE_ENEMY := 2;
     SOURCE_TYPE_ALLY := 3;
     COMBAT_MESSAGE_BUFF := 3;
     verifyID_allow_zero := false;
     Power_default := blank_power;
     Hazard_default := blank_hazard;
     EffectDef_default :=
       {| EffectDef.id := ""; EffectDef.type := ""; EffectDef.icon := -1;
          EffectDef.animation := ""; EffectDef.can_stack := true;
          EffectDef.render_above := false |};
     Event_Component_default :=
       {| ec_type := ""; ec_s := ""; ec_x := 0; ec_y := 0; ec_z := 0;
          ec_a := 0; ec_b := 0; ec_c := 0 |};
     Map_Enemy_default :=
       {| Map_Enemy.type := ""; Map_Enemy.pos := origin;
          Map_Enemy.direction := 0; Map_Enemy.summoner := 0;
          Map_Enemy.summon_power_index := 0; Map_Enemy.hero_ally := false |};
     parseLoot := fun _ l => l;
     snd_load := fun s => Z.of_nat (String.length s);
     Rng := nat;
     rand := fun r => (Z.of_nat r, S r);
     randBetween := fun lo _ r => (lo, S r);
     Collider := Tiles;
     is_empty := empty_at;
     is_wall := wall_at;
     is_valid_position := fun c x y _ _ => empty_at c x y;
     get_random_neighbor := fun _ p _ _ r => (to_fpoint p, r);
     unblock := unblock_at;
     block_tile := block_at;
     calcTheta := fun _ _ _ _ => F32.zero;
     calcDirection := fun _ _ _ _ => 0;
     calcVector := fun p _ _ => p;
     floor_FPoint := to_point;
     FPoint_of_Point := to_fpoint;
     floorf := fun x => F32.of_Z (default 0 (F32.to_int x));
     cosf := fun _ => F32.of_Z 1;
     sinf := fun _ => F32.zero;
     loadAnimation := Hazard.set_animation_name;
     setAngle := Hazard.set_angle;
     addEffect := fun e l => l ++ [e] |}.

Definition hero : StatBlock.t :=
  {| StatBlock.hero := true; StatBlock.hero_ally := false;
     StatBlock.hp := 10; StatBlock.mp := 10; StatBlock.pos := origin;
     StatBlock.direction := 0; StatBlock.melee_range := F32.of_Z 1;
     StatBlock.speed_default := F32.of_Z 1; StatBlock.in_combat := false;
     StatBlock.refresh_stats := false; StatBlock.transformed := false;
     StatBlock.transform_duration := 0; StatBlock.transform_type := "";
     StatBlock.manual_untransform := false;
     StatBlock.transform_with_equipment := false;
     StatBlock.untransform_on_hit := false; StatBlock.teleportation := false;
     StatBlock.teleport_destination := origin;
     StatBlock.knockback_srcpos := origin;
     StatBlock.knockback_destpos := origin; StatBlock.powers_passive := [];
     StatBlock.powers_list_items := [];
     StatBlock.effects :=
       {| EffectManager.effect_list := [];
          EffectManager.triggered_others := false;
          EffectManager.triggered_block := false;
          EffectManager.triggered_hit := false;
          EffectManager.triggered_halfdeath := false;
          EffectManager.triggered_joincombat := false;
          EffectManager.triggered_death := false |};
     StatBlock.get := fun _ => 20 |}.

(** The world after construction and [handleNewMap], with the given power
    table: one wall tile at (2, 0). *)
Definition world (table : list Power.t) : World env :=
  {| powers := table; effects := []; sfx := []; hazards := []; enemies := [];
     loot := []; party_buffs := []; used_items := [];
     used_equipped_items := []; log_msg := "";
     collider := (Some {| walls := [(2, 0)]; blocked := [] |} : option (Collider env));
     rng := (0%nat : Rng env); sounds_played := []; combat_text := [];
     action_bar_locked := false; errors := []; stats := hero |}.

(** The address of the hero's [StatBlock]. *)
Definition hero_ptr : StatPtr := 1.

(** A table of seven powers, ids 1 to 7 (slot 0 is never a power). *)
Definition repeater_power : Power.t :=
  Power.set_count 5
    (Power.set_speed (F32.of_Z 1) (Power.set_type POWTYPE_REPEATER blank_power)).

Definition missile_power : Power.t :=
  Power.set_missile_angle 30
    (Power.set_count 3 (Power.set_type POWTYPE_MISSILE blank_power)).

Definition block_power : Power.t :=
  Power.set_requires_mp 50 (Power.set_type POWTYPE_BLOCK blank_power).

Definition untransform_power : Power.t :=
  Power.set_use_hazard true
    (Power.set_requires_hp 3
       (Power.set_spawn_type "untransform"
          (Power.set_type POWTYPE_TRANSFORM blank_power))).

Definition spawn_power : Power.t :=
  Power.set_spawn_type "zombie" (Power.set_type POWTYPE_SPAWN blank_power).

Definition costly_power : Power.t :=
  Power.set_requires_hp 10 (Power.set_type POWTYPE_FIXED blank_power).

Definition ring_power : Power.t :=
  Power.set_requires_equipped_item_quantity 1
    (Power.set_requires_equipped_item 7 (Power.set_type POWTYPE_FIXED blank_power)).

Definition shield_power : Power.t := Power.set_type POWTYPE_BLOCK blank_power.

Definition table : list Power.t :=
  [blank_power; repeater_power; missile_power; block_power; untransform_power;
   spawn_power; costly_power; ring_power; shield_power].

(** The world of the examples. *)
Definition w0 : World env := world table.

(** The hero stands on a tile that something else blocks. *)
Definition crowded (w : World env) : World env :=
  set_collider (Some {| walls := []; blocked := [(0, 0)] |} : option (Collider env)) w.

(** The hero is already blocking. *)
Definition blocking (w : World env) : World env :=
  set_stats
    (StatBlock.set_effects
       (EffectManager.set_triggered_block true (StatBlock.effects (stats w)))
       (stats w)) w.

(** The hero has the 50 mp of [block_power]. *)
Definition rested (w : World env) : World env :=
  set_stats (StatBlock.set_mp 50 (stats w)) w.

(** The ring of [ring_power] is already queued for consumption. *)
Definition ring_pending (w : World env) : World env :=
  set_used_equipped_items [7] w.


Definition speed_effect : PostEffect :=
  {| pe_id := "speed"; pe_magnitude := 1; pe_duration := 100 |}.


(** powers.txt with one power that chains to an id outside the table and to
    itself. *)
Definition chained_file : list (string * string) :=
  [("id", "1"); ("type", "fixed"); ("post_power", "7"); ("wall_power", "1")]%string.

(** More powers, ids 9 to 13. *)
Definition wolf_power : Power.t :=
  Power.set_use_hazard true
    (Power.set_spawn_type "wolf" (Power.set_type POWTYPE_TRANSFORM blank_power)).

Definition aura_power : Power.t :=
  Power.set_passive true
    (Power.set_use_hazard true (Power.set_type POWTYPE_FIXED blank_power)).

Definition volley_power : Power.t :=
  Power.set_delay 5
    (Power.set_count 3
       (Power.set_use_hazard true (Power.set_type POWTYPE_FIXED blank_power))).

Definition summon_power : Power.t :=
  Power.set_count 2 (Power.set_use_hazard true spawn_power).

Definition blink_power : Power.t :=
  Power.set_buff_teleport true
    (Power.set_use_hazard true (Power.set_type POWTYPE_FIXED blank_power)).

Definition table2 : list Power.t :=
  table ++ [wolf_power; aura_power; volley_power; summon_power; blink_power].

(** The actor [s] with the given transformation flag and passive powers. *)
Definition with_passives (transformed : bool) (passives : list Z) (s : StatBlock.t)
  : StatBlock.t :=
  {| StatBlock.hero := StatBlock.hero s;
     StatBlock.hero_ally := StatBlock.hero_ally s;
     StatBlock.hp := StatBlock.hp s; StatBlock.mp := StatBlock.mp s;
     StatBlock.pos := StatBlock.pos s; StatBlock.direction := StatBlock.direction s;
     StatBlock.melee_range := StatBlock.melee_range s;
     StatBlock.speed_default := StatBlock.speed_default s;
     StatBlock.in_combat := StatBlock.in_combat s;
     StatBlock.refresh_stats := StatBlock.refresh_stats s;
     StatBlock.transformed := transformed;
     StatBlock.transform_duration := StatBlock.transform_duration s;
     StatBlock.transform_type := StatBlock.transform_type s;
     StatBlock.manual_untransform := StatBlock.manual_untransform s;
     StatBlock.transform_with_equipment := StatBlock.transform_with_equipment s;
     StatBlock.untransform_on_hit := StatBlock.untransform_on_hit s;
     StatBlock.teleportation := StatBlock.teleportation s;
     StatBlock.teleport_destination := StatBlock.teleport_destination s;
     StatBlock.knockback_srcpos := StatBlock.knockback_srcpos s;
     StatBlock.knockback_destpos := StatBlock.knockback_destpos s;
     StatBlock.powers_passive := passives;
     StatBlock.powers_list_items := StatBlock.powers_list_items s;
     StatBlock.effects := StatBlock.effects s;
     StatBlock.get := StatBlock.get s |}.

(** The world of the further examples: the hero knows the passive power 10. *)
Definition w1 : World env :=
  set_stats (with_passives false [10] hero) (world table2).

(** The hero is transformed. *)
Definition transformed (w : World env) : World env :=
  set_stats (with_passives true [10] (stats w)) w.

(** The hero stands inside a wall. *)
Definition walled_in (w : World env) : World env :=
  set_collider (Some {| walls := [(0, 0)]; blocked := [] |} : option (Collider env)) w.

(** The normal passives of the hero have fired. *)
Definition fired (w : World env) : World env :=
  set_stats
    (StatBlock.set_effects
       (EffectManager.set_triggered_others true (StatBlock.effects (stats w)))
       (stats w)) w.

(** An effect definition of type heal, and a power (id 14) that applies it. *)
Definition mend_def : EffectDef.t :=
  {| EffectDef.id := "mend"; EffectDef.type := "heal"; EffectDef.icon := -1;
     EffectDef.animation := ""; EffectDef.can_stack := true;
     EffectDef.render_above := false |}.

Definition mend_power : Power.t :=
  Power.set_post_effects
    [{| pe_id := "mend"; pe_magnitude := 0; pe_duration := 100 |}]
    (Power.set_buff true
       (Power.set_use_hazard true (Power.set_type POWTYPE_FIXED blank_power))).

Definition w2 : World env :=
  set_effect_defs [mend_def] (set_powers (table2 ++ [mend_power]) w1).

(** powers.txt with a sound for power 1. *)
Definition sound_file : list (string * string) :=
  [("id", "1"); ("type", "fixed"); ("soundfx", "ab")]%string.

(** powers/effects.txt with two sections; the first names no id. *)
Definition effects_file : list EffectLine :=
  [ {| new_section := true; section := "effect"; key := "type"; val := "shield" |};
    {| new_section := true; section := "effect"; key := "id"; val := "ward" |};
    {| new_section := false; section := "effect"; key := "type"; val := "shield" |} ]%string.

End Demo.

(** * Properties of the model *)

(** ** Machine integers *)

Lemma to_unsigned_nonneg (z : Z) :
  0 <= z <= Int.max_int -> Int.to_unsigned z = z.
Proof.
  unfold Int.to_unsigned, Int.max_int. intros H.
  apply Z.mod_small. lia.
Qed.

Lemma to_unsigned_neg (z : Z) :
  Int.min_int <= z < 0 -> Int.to_unsigned z = z + 2 ^ 32.
Proof.
  unfold Int.to_unsigned, Int.min_int. intros H.
  rewrite <- (Z.mod_add z 1 (2 ^ 32)) by lia.
  rewrite Z.mul_1_l. apply Z.mod_small. lia.
Qed.

Lemma wrap_in_range (z : Z) : Int.in_range (Int.wrap z).
Proof.
  unfold Int.in_range, Int.wrap, Int.min_int, Int.max_int.
  pose proof (Z.mod_pos_bound (z + 2 ^ 31) (2 ^ 32)). lia.
Qed.

Lemma wrap_small (z : Z) : Int.in_range z -> Int.wrap z = z.
Proof.
  unfold Int.in_range, Int.wrap, Int.min_int, Int.max_int. intros H.
  rewrite Z.mod_small by lia. lia.
Qed.

(** ** Running the monad *)

Section Run.

Context {S : Type}.

Lemma bind_eq {A B} (m : M S A) (f : A -> M S B) w a w1 :
  m w = Some (a, w1) -> bind m f w = f a w1.
Proof. unfold bind. intros ->. reflexivity. Qed.

Lemma bind_inv {A B} (m : M S A) (f : A -> M S B) w b w' :
  bind m f w = Some (b, w') ->
  exists a w1, m w = Some (a, w1) /\ f a w1 = Some (b, w').
Proof.
  unfold bind. destruct (m w) as [[a w1]|] eqn:Hm; [|discriminate].
  intros H. exists a, w1. split; [reflexivity | exact H].
Qed.

Lemma ret_inv {A} (a b : A) (w w' : S) : ret a w = Some (b, w') -> b = a /\ w' = w.
Proof. unfold ret. intros H. inversion H. split; reflexivity. Qed.

Lemma gets_inv {A} (f : S -> A) (w : S) a w' :
  gets f w = Some (a, w') -> a = f w /\ w' = w.
Proof. unfold gets. intros H. inversion H. split; reflexivity. Qed.

Lemma modify_inv (f : S -> S) (w : S) u w' :
  modify f w = Some (u, w') -> w' = f w.
Proof. unfold modify. intros H. inversion H. reflexivity. Qed.

Lemma lift_option_inv {A} (o : option A) (w : S) a w' :
  lift_option o w = Some (a, w') -> o = Some a /\ w' = w.
Proof.
  destruct o as [x|]; cbn; [|discriminate].
  intros H. inversion H. split; reflexivity.
Qed.

Lemma bind_ret {A B} (a : A) (f : A -> M S B) w : bind (ret a) f w = f a w.
Proof. reflexivity. Qed.

Lemma bind_gets {A B} (g : S -> A) (f : A -> M S B) w : bind (gets g) f w = f (g w) w.
Proof. reflexivity. Qed.

Lemma bind_modify {B} (g : S -> S) (f : unit -> M S B) w :
  bind (modify g) f w = f tt (g w).
Proof. reflexivity. Qed.

Lemma bind_assoc {A B C} (m : M S A) (f : A -> M S B) (g : B -> M S C) w :
  bind (bind m f) g w = bind m (fun a => bind (f a) g) w.
Proof. unfold bind. destruct (m w) as [[a w1]|]; reflexivity. Qed.

Lemma bind_lift_option {A B} (o : option A) (f : A -> M S B) a w :
  o = Some a -> bind (lift_option o) f w = f a w.
Proof. intros ->. reflexivity. Qed.

End Run.

Section Proofs.

Variable E : Env.

Implicit Types (w : World E) (p : Power.t) (power_index : Z) (src_stats : StatPtr).

(** ** Reading the state *)

Lemma power_at_eq power_index w p :
  0 <= power_index ->
  powers w !! Z.to_nat power_index = Some p ->
  power_at E power_index w = Some (p, w).
Proof.
  intros Hi Hp. unfold power_at, bind, gets.
  destruct (Z.ltb_spec power_index 0) as [?|_]; [lia|].
  rewrite Hp. reflexivity.
Qed.

Lemma power_at_inv power_index w p w' :
  power_at E power_index w = Some (p, w') ->
  0 <= power_index /\ powers w !! Z.to_nat power_index = Some p /\ w' = w.
Proof.
  unfold power_at, bind, gets.
  destruct (Z.ltb_spec power_index 0) as [?|Hi]; [discriminate|].
  intros H. apply lift_option_inv in H as [H ->]. auto.
Qed.

Lemma deref_eq src_stats w :
  src_stats <> 0 -> deref E src_stats w = Some (stats w, w).
Proof.
  intros H. unfold deref. destruct (Z.eqb_spec src_stats 0); [contradiction|].
  reflexivity.
Qed.

Lemma deref_inv src_stats w s w' :
  deref E src_stats w = Some (s, w') -> src_stats <> 0 /\ s = stats w /\ w' = w.
Proof.
  unfold deref. destruct (Z.eqb_spec src_stats 0); [discriminate|].
  intros H. apply gets_inv in H as [-> ->]. auto.
Qed.

Lemma update_stats_eq src_stats f w :
  src_stats <> 0 ->
  update_stats E src_stats f w = Some (tt, set_stats (f (stats w)) w).
Proof.
  intros H. unfold update_stats. destruct (Z.eqb_spec src_stats 0); [contradiction|].
  reflexivity.
Qed.

Lemma update_stats_inv src_stats f w u w' :
  update_stats E src_stats f w = Some (u, w') ->
  src_stats <> 0 /\ w' = set_stats (f (stats w)) w.
Proof.
  unfold update_stats. destruct (Z.eqb_spec src_stats 0); [discriminate|].
  intros H. apply modify_inv in H. auto.
Qed.

Lemma bind_power_at {B} power_index p (f : Power.t -> M (World E) B) w :
  0 <= power_index ->
  powers w !! Z.to_nat power_index = Some p ->
  bind (power_at E power_index) f w = f p w.
Proof. intros Hi Hp. apply bind_eq. apply power_at_eq; assumption. Qed.

Lemma bind_deref {B} src_stats (f : StatBlock.t -> M (World E) B) w :
  src_stats <> 0 -> bind (deref E src_stats) f w = f (stats w) w.
Proof. intros H. apply bind_eq. apply deref_eq; assumption. Qed.

Lemma bind_update_stats {B} src_stats g (f : unit -> M (World E) B) w :
  src_stats <> 0 ->
  bind (update_stats E src_stats g) f w = f tt (set_stats (g (stats w)) w).
Proof. intros H. apply bind_eq. apply update_stats_eq; assumption. Qed.

Lemma the_collider_eq w c :
  collider w = Some c -> the_collider E w = Some (c, w).
Proof. intros H. unfold the_collider, bind, gets. rewrite H. reflexivity. Qed.

(** What [payPowerCost] does to the view: the table stays, and the queue
    stays or receives the equipped item of the power, which it did not hold. *)
Lemma payPowerCost_view power_index src_stats w a w' :
  payPowerCost E power_index src_stats w = Some (a, w') ->
  powers w' = powers w
  /\ (used_equipped_items w' = used_equipped_items w
      \/ exists p,
           powers w !! Z.to_nat power_index = Some p
           /\ (Power.requires_equipped_item p ∉ used_equipped_items w)
           /\ used_equipped_items w'
              = push_back_n (Power.requires_equipped_item_quantity p)
                  (Power.requires_equipped_item p) (used_equipped_items w)).
Proof.
  intros H. unfold payPowerCost in H.
  destruct (src_stats =? 0).
  { apply ret_inv in H as [_ ->]. auto. }
  apply bind_inv in H as (p & w1 & H1 & H).
  apply power_at_inv in H1 as (Hi & Hp & ->).
  apply bind_inv in H as (s & w1 & H1 & H).
  apply deref_inv in H1 as (Hsrc & -> & ->).
  apply bind_inv in H as ([] & w3 & H1 & H).
  apply bind_inv in H as ([] & w7 & H7 & H).
  apply update_stats_inv in H7 as [_ ->].
  apply update_stats_inv in H as [_ ->].
  cbn [powers used_equipped_items set_stats].
  destruct (StatBlock.hero (stats w)); cbn [when_] in H1.
  2:{ apply ret_inv in H1 as [_ ->]. auto. }
  apply bind_inv in H1 as ([] & w4 & H2 & H1).
  apply update_stats_inv in H2 as [_ ->].
  apply bind_inv in H1 as ([] & w5 & H2 & H1).
  assert (Hv : powers w5 = powers w /\ used_equipped_items w5 = used_equipped_items w).
  { destruct (negb (Power.requires_item p =? -1)); cbn [when_] in H2.
    - apply modify_inv in H2 as ->. auto.
    - apply ret_inv in H2 as [_ ->]. auto. }
  clear H2. destruct Hv as [Hv1 Hv2].
  apply bind_inv in H1 as (queue & w6 & H2 & H1).
  apply gets_inv in H2 as [-> ->].
  destruct (negb (Power.requires_equipped_item p =? -1)
            && negb (bool_decide (Power.requires_equipped_item p
                                  ∈ used_equipped_items w5))) eqn:Hc;
    cbn [when_] in H1.
  - apply modify_inv in H1 as ->.
    apply andb_prop in Hc as [_ Hc]. apply negb_true_iff in Hc.
    apply bool_decide_eq_false in Hc.
    cbn [powers used_equipped_items set_used_equipped_items].
    rewrite Hv2 in *. split; [assumption|]. right. exists p. auto.
  - apply ret_inv in H1 as [_ ->]. auto.
Qed.

(** A table of fewer than 2^31 entries: the unsigned comparison of [activate]
    and [verifyID] is the test [0 <= power_index < size]. *)
Lemma bounds_guard power_index (n : nat) :
  Int.in_range power_index ->
  Z.of_nat n <= Int.max_int ->
  (Z.of_nat n <=? Int.to_unsigned power_index)
  = negb ((0 <=? power_index) && (power_index <? Z.of_nat n)).
Proof.
  unfold Int.in_range. intros Hr Hn.
  destruct (Z.leb_spec 0 power_index) as [Hp|Hp]; cbn [andb negb].
  - rewrite to_unsigned_nonneg by lia.
    destruct (Z.leb_spec (Z.of_nat n) power_index), (Z.ltb_spec power_index (Z.of_nat n));
      cbn; try reflexivity; lia.
  - rewrite to_unsigned_neg by lia.
    unfold Int.max_int, Int.min_int in *.
    destruct (Z.leb_spec (Z.of_nat n) (power_index + 2 ^ 32)); cbn; [reflexivity | lia].
Qed.


Lemma set_rng_same w : set_rng (rng w) w = w.
Proof. destruct w. reflexivity. Qed.

Lemma with_rng_eq {A} (f : Rng E -> A * Rng E) w :
  with_rng E f w = Some (fst (f (rng w)), set_rng (snd (f (rng w))) w).
Proof. unfold with_rng. destruct (f (rng w)). reflexivity. Qed.

Lemma bind_the_collider {B} c (f : Collider E -> M (World E) B) w :
  collider w = Some c -> bind (the_collider E) f w = f c w.
Proof. intros H. apply bind_eq. apply the_collider_eq; assumption. Qed.

Lemma bind_with_rng {A B} (g : Rng E -> A * Rng E) (f : A -> M (World E) B) w :
  bind (with_rng E g) f w = f (fst (g (rng w))) (set_rng (snd (g (rng w))) w).
Proof. apply bind_eq. apply with_rng_eq. Qed.

(** Reduction of the projections of an updated state. *)
Ltac wsimpl :=
  cbn [powers effects sfx hazards enemies loot party_buffs used_items
       used_equipped_items log_msg collider rng sounds_played combat_text
       action_bar_locked errors stats
       set_powers set_sfx set_errors set_hazards set_enemies set_loot
       set_party_buffs set_used_items set_used_equipped_items set_log_msg
       set_collider set_rng set_sounds_played set_combat_text
       set_action_bar_locked set_stats].

Tactic Notation "wsimpl" "in" hyp(H) :=
  cbn [powers effects sfx hazards enemies loot party_buffs used_items
       used_equipped_items log_msg collider rng sounds_played combat_text
       action_bar_locked errors stats
       set_powers set_sfx set_errors set_hazards set_enemies set_loot
       set_party_buffs set_used_items set_used_equipped_items set_log_msg
       set_collider set_rng set_sounds_played set_combat_text
       set_action_bar_locked set_stats] in H.

(** Symbolic execution of the head of a computation applied to a state. *)
Ltac mrun_step :=
  first
    [ rewrite bind_assoc
    | rewrite bind_ret
    | rewrite bind_gets
    | rewrite bind_modify
    | rewrite bind_with_rng
    | rewrite bind_update_stats by assumption
    | rewrite bind_deref by assumption
    | erewrite bind_power_at by (wsimpl; eassumption)
    | erewrite bind_the_collider by (wsimpl; eassumption)
    | progress cbn [when_]
    | progress cbv beta ].

Ltac mrun := repeat mrun_step.

(** The table lookup behind a call that passed the bounds test. *)
Lemma lookup_bounds power_index w p :
  0 <= power_index ->
  powers w !! Z.to_nat power_index = Some p ->
  power_index < Z.of_nat (length (powers w)).
Proof.
  intros Hi Hp. apply lookup_lt_Some in Hp. lia.
Qed.

(** ** Frame properties *)

Lemma preserves_run Q {A} (m : M (World E) A) w a w' :
  m w = Some (a, w') -> preserves E Q m -> Q (view w) (view w').
Proof. intros H Hm. exact (Hm w a w' H). Qed.

Section Structure.

Context (Q : relation (list Power.t * list Z)) `{!PreOrder Q}.

Lemma preserves_ret {A} (a : A) : preserves E Q (ret a).
Proof. intros w b w' H. apply ret_inv in H as [_ ->]. reflexivity. Qed.

Lemma preserves_undefined {A} : preserves E Q (@undefined (World E) A).
Proof. intros w b w' H. discriminate. Qed.

Lemma preserves_gets {A} (f : World E -> A) : preserves E Q (gets f).
Proof. intros w b w' H. apply gets_inv in H as [_ ->]. reflexivity. Qed.

Lemma preserves_lift_option {A} (o : option A) : preserves E Q (lift_option o).
Proof. intros w b w' H. apply lift_option_inv in H as [_ ->]. reflexivity. Qed.

Lemma preserves_bind {A B} (m : M (World E) A) (f : A -> M (World E) B) :
  preserves E Q m -> (forall a, preserves E Q (f a)) -> preserves E Q (bind m f).
Proof.
  intros Hm Hf w b w' H. apply bind_inv in H as (a & w1 & H1 & H2).
  transitivity (view w1); [eapply Hm | eapply Hf]; eassumption.
Qed.

Lemma preserves_when (b : bool) (m : M (World E) unit) :
  preserves E Q m -> preserves E Q (when_ b m).
Proof. intros Hm. destruct b; [exact Hm | apply preserves_ret]. Qed.

Lemma preserves_modify (f : World E -> World E) :
  (forall w, view (f w) = view w) -> preserves E Q (modify f).
Proof.
  intros Hf w b w' H. apply modify_inv in H as ->. rewrite Hf. reflexivity.
Qed.

Lemma preserves_with_rng {A} (f : Rng E -> A * Rng E) : preserves E Q (with_rng E f).
Proof.
  intros w b w' H. rewrite with_rng_eq in H. inversion H. reflexivity.
Qed.

Lemma preserves_update_stats src_stats f : preserves E Q (update_stats E src_stats f).
Proof.
  unfold update_stats. destruct (src_stats =? 0); [apply preserves_undefined|].
  apply preserves_modify. reflexivity.
Qed.

Lemma preserves_power_at power_index : preserves E Q (power_at E power_index).
Proof. intros w b w' H. apply power_at_inv in H as (_ & _ & ->). reflexivity. Qed.

Lemma preserves_deref src_stats : preserves E Q (deref E src_stats).
Proof. intros w b w' H. apply deref_inv in H as (_ & _ & ->). reflexivity. Qed.

Lemma preserves_the_collider : preserves E Q (the_collider E).
Proof.
  unfold the_collider. apply preserves_bind; [apply preserves_gets|].
  intros c. apply preserves_lift_option.
Qed.

Lemma preserves_push_hazard haz : preserves E Q (push_hazard E haz).
Proof. unfold push_hazard. apply preserves_modify. reflexivity. Qed.

Lemma preserves_log_error e : preserves E Q (log_error E e).
Proof. unfold log_error. apply preserves_modify. reflexivity. Qed.

Lemma preserves_add_combat_text text pos kind :
  preserves E Q (add_combat_text E text pos kind).
Proof. unfold add_combat_text. apply preserves_modify. reflexivity. Qed.

End Structure.

Create HintDb frame.

(** One step of a frame proof: split the computation at its head. *)
Ltac frame_step :=
  lazymatch goal with
  | |- preserves _ _ (bind _ _) => apply preserves_bind; [exact _ | |intro]
  | |- preserves _ _ (ret _) => apply preserves_ret; exact _
  | |- preserves _ _ undefined => apply preserves_undefined
  | |- preserves _ _ (gets _) => apply preserves_gets; exact _
  | |- preserves _ _ (lift_option _) => apply preserves_lift_option; exact _
  | |- preserves _ _ (when_ _ _) => apply preserves_when; [exact _|]
  | |- preserves _ _ (modify _) =>
      apply preserves_modify; [exact _ | intro; reflexivity]
  | |- preserves _ _ (with_rng _ _) => apply preserves_with_rng; exact _
  | |- preserves _ _ (update_stats _ _ _) => apply preserves_update_stats; exact _
  | |- preserves _ _ (power_at _ _) => apply preserves_power_at; exact _
  | |- preserves _ _ (deref _ _) => apply preserves_deref; exact _
  | |- preserves _ _ (the_collider _) => apply preserves_the_collider; exact _
  | |- preserves _ _ (push_hazard _ _) => apply preserves_push_hazard; exact _
  | |- preserves _ _ (log_error _ _) => apply preserves_log_error; exact _
  | |- preserves _ _ (add_combat_text _ _ _ _) =>
      apply preserves_add_combat_text; exact _
  | |- preserves _ _ (if ?b then _ else _) => destruct b
  | |- preserves _ _ (match ?x with _ => _ end) => destruct x
  | |- preserves _ _ (let _ := _ in _) => cbv zeta
  | |- preserves _ _ ((fun _ => _) _) => cbv beta
  end.

Ltac frame := repeat first [ frame_step | assumption | solve [ auto with frame ] ].

Section Frame.

Context (Q : relation (list Power.t * list Z)) `{!PreOrder Q}.

(** The two writes of an activation that reach the view: [block] sets the
    trigger of the power it runs, and [payPowerCost] queues an equipped item
    that is not queued yet. *)
Hypothesis Q_block : forall T q (i : nat) p,
  T !! i = Some p ->
  Power.type p = POWTYPE_BLOCK ->
  Q (T, q) (<[i := Power.set_passive_trigger (TRIGGER_BLOCK E) p]> T, q).

Hypothesis Q_pay : forall T q (i : nat) p,
  T !! i = Some p ->
  Power.requires_equipped_item p ∉ q ->
  Q (T, q)
    (T, push_back_n (Power.requires_equipped_item_quantity p)
          (Power.requires_equipped_item p) q).

Lemma preserves_initHazard power_index src_stats target haz :
  preserves E Q (initHazard E power_index src_stats target haz).
Proof. unfold initHazard. frame. Qed.

Lemma preserves_playSound power_index : preserves E Q (playSound E power_index).
Proof. unfold playSound. frame. Qed.

Lemma preserves_add_effect p power_index src_stats source_type effect_data duration
    magnitude :
  preserves E Q (add_effect E p power_index src_stats source_type effect_data duration
                 magnitude).
Proof. unfold add_effect. frame. Qed.

Hint Resolve preserves_initHazard preserves_playSound preserves_add_effect : frame.

Lemma preserves_effect_step p power_index src_stats source_type pe :
  preserves E Q (effect_step E p power_index src_stats source_type pe).
Proof. unfold effect_step. frame. Qed.

Hint Resolve preserves_effect_step : frame.

Lemma preserves_effect_loop p power_index src_stats source_type pes :
  preserves E Q (effect_loop E p power_index src_stats source_type pes).
Proof. induction pes as [|pe rest IH]; cbn [effect_loop]; frame. Qed.

Hint Resolve preserves_effect_loop : frame.

Lemma preserves_effect src_stats power_index source_type :
  preserves E Q (effect E src_stats power_index source_type).
Proof. unfold effect. frame. Qed.

Hint Resolve preserves_effect : frame.

(** [payPowerCost]: the only write to the view is the push of an equipped
    item that the queue does not hold. *)
Lemma preserves_payPowerCost power_index src_stats :
  preserves E Q (payPowerCost E power_index src_stats).
Proof.
  intros w a w' H. apply payPowerCost_view in H as [HT [Hq | (p & Hp & Hnotin & Hq)]].
  - unfold view. rewrite HT, Hq. reflexivity.
  - unfold view. rewrite HT, Hq. eapply Q_pay; eassumption.
Qed.

Hint Resolve preserves_payPowerCost : frame.

(** [block] on a power of type block: the write to the table is the one
    [Q_block] allows. *)
Lemma block_frame power_index src_stats w p a w' :
  0 <= power_index ->
  powers w !! Z.to_nat power_index = Some p ->
  Power.type p = POWTYPE_BLOCK ->
  block E power_index src_stats w = Some (a, w') ->
  Q (view w) (view w').
Proof.
  intros Hi Hp Hty H. unfold block in H.
  apply bind_inv in H as (s & w1 & H1 & H).
  apply deref_inv in H1 as (Hsrc & -> & ->).
  destruct (EffectManager.triggered_block (StatBlock.effects (stats w))).
  { apply ret_inv in H as [_ ->]. reflexivity. }
  apply bind_inv in H as ([] & w1 & H1 & H).
  apply update_stats_inv in H1 as [_ ->].
  apply bind_inv in H as ([] & w2 & H1 & H).
  unfold update_power in H1.
  apply bind_inv in H1 as (p' & w3 & H2 & H1).
  apply power_at_inv in H2 as (_ & Hp' & ->).
  change (powers w !! Z.to_nat power_index = Some p') in Hp'.
  rewrite Hp in Hp'. injection Hp' as <-.
  apply modify_inv in H1 as ->.
  transitivity (<[Z.to_nat power_index := Power.set_passive_trigger (TRIGGER_BLOCK E) p]>
                  (powers w), used_equipped_items w).
  { apply Q_block; assumption. }
  refine (preserves_run _ _ _ _ _ H _). frame.
Qed.

(** The strategies, for a dispatcher [act] that keeps the frame. *)
Section Strategies.

Variable act : Z -> StatPtr -> FPoint -> M (World E) bool.
Hypothesis act_frame : forall i s t, preserves E Q (act i s t).

Lemma preserves_buff_loot pos items : preserves E Q (buff_loot E pos items).
Proof. induction items as [|item rest IH]; cbn [buff_loot]; frame. Qed.

Hint Resolve preserves_buff_loot : frame.

Lemma preserves_buff power_index src_stats target :
  preserves E Q (buff E act power_index src_stats target).
Proof. unfold buff. frame. Qed.

Hint Resolve preserves_buff : frame.

Lemma preserves_fixed_loop n power_index src_stats target delay_iterator :
  preserves E Q (fixed_loop E n power_index src_stats target delay_iterator).
Proof.
  revert delay_iterator. induction n as [|n IH]; intros d; cbn [fixed_loop]; frame.
Qed.

Hint Resolve preserves_fixed_loop : frame.

Lemma preserves_fixed power_index src_stats target :
  preserves E Q (fixed E act power_index src_stats target).
Proof. unfold fixed. frame. Qed.

Lemma preserves_missile_loop n power_index src_stats target theta i delay_iterator :
  preserves E Q (missile_loop E n power_index src_stats target theta i delay_iterator).
Proof.
  revert i delay_iterator.
  induction n as [|n IH]; intros i d; cbn [missile_loop]; [frame|].
  unfold missile_variance, missile_speed_var. frame.
Qed.

Hint Resolve preserves_missile_loop : frame.

Lemma preserves_missile power_index src_stats target :
  preserves E Q (missile E power_index src_stats target).
Proof. unfold missile. frame. Qed.

Lemma preserves_repeater_loop n power_index src_stats target speed loc delay_iterator :
  preserves E Q (repeater_loop E n power_index src_stats target speed loc delay_iterator).
Proof.
  revert loc delay_iterator.
  induction n as [|n IH]; intros loc d; cbn [repeater_loop]; frame.
Qed.

Hint Resolve preserves_repeater_loop : frame.

Lemma preserves_repeater power_index src_stats target :
  preserves E Q (repeater E power_index src_stats target).
Proof. unfold repeater. frame. Qed.

Lemma preserves_spawn power_index src_stats target :
  preserves E Q (spawn E act power_index src_stats target).
Proof. unfold spawn. frame. Qed.

Lemma preserves_transform power_index src_stats target :
  preserves E Q (transform E act power_index src_stats target).
Proof. unfold transform. frame. Qed.

Lemma preserves_activate_body power_index src_stats target :
  preserves E Q (activate_body E act power_index src_stats target).
Proof.
  intros w a w' H. unfold activate_body in H.
  apply bind_inv in H as (ps & w1 & H1 & H).
  apply gets_inv in H1 as [-> ->].
  destruct (Z.of_nat (length (powers w)) <=? Int.to_unsigned power_index).
  { apply ret_inv in H as [_ ->]. reflexivity. }
  apply bind_inv in H as (s & w1 & H1 & H).
  apply deref_inv in H1 as (Hsrc & -> & ->).
  apply bind_inv in H as (p & w1 & H1 & H).
  apply power_at_inv in H1 as (Hi & Hp & ->).
  destruct (StatBlock.hero (stats w) && (StatBlock.mp (stats w) <? Power.requires_mp p)).
  { apply ret_inv in H as [_ ->]. reflexivity. }
  destruct ((0 <? StatBlock.hp (stats w)) && negb (Power.sacrifice p)
            && (StatBlock.hp (stats w) <=? Power.requires_hp p)).
  { apply ret_inv in H as [_ ->]. reflexivity. }
  destruct (bool_decide (Power.type p = POWTYPE_BLOCK)) eqn:Hb.
  { apply bool_decide_eq_true in Hb. eapply block_frame; eassumption. }
  destruct (Power.type p).
  - eapply preserves_fixed; eassumption.
  - eapply preserves_missile; eassumption.
  - eapply preserves_repeater; eassumption.
  - eapply preserves_spawn; eassumption.
  - eapply preserves_transform; eassumption.
  - apply ret_inv in H as [_ ->]. reflexivity.
  - apply ret_inv in H as [_ ->]. reflexivity.
Qed.

End Strategies.

(** Every activation keeps the frame, whatever the depth of its chain of post
    powers. *)
Lemma preserves_activate fuel power_index src_stats target :
  preserves E Q (activate E fuel power_index src_stats target).
Proof.
  revert power_index src_stats target.
  induction fuel as [|fuel IH]; intros power_index src_stats target; cbn [activate].
  - apply preserves_undefined.
  - apply preserves_activate_body. exact IH.
Qed.

Lemma preserves_passive_step fuel src_stats triggered_others id :
  preserves E Q (passive_step E fuel src_stats triggered_others id).
Proof.
  pose proof (preserves_activate fuel) as Hact.
  unfold passive_step. frame.
Qed.

Lemma preserves_passive_loop fuel src_stats triggered_others ids :
  preserves E Q (passive_loop E fuel src_stats triggered_others ids).
Proof.
  pose proof (preserves_passive_step fuel) as Hstep.
  revert triggered_others.
  induction ids as [|id rest IH]; intros t; cbn [passive_loop]; frame.
Qed.

Lemma preserves_activatePassives fuel src_stats :
  preserves E Q (activatePassives E fuel src_stats).
Proof.
  pose proof (preserves_passive_loop fuel) as Hloop.
  unfold activatePassives. frame.
Qed.

Lemma preserves_activateSinglePassive fuel src_stats id :
  preserves E Q (activateSinglePassive E fuel src_stats id).
Proof.
  pose proof (preserves_activate fuel) as Hact.
  unfold activateSinglePassive. frame.
Qed.

End Frame.

(** ** The power table under activation *)

Lemma set_passive_trigger_idem t p :
  Power.set_passive_trigger t (Power.set_passive_trigger t p)
  = Power.set_passive_trigger t p.
Proof. reflexivity. Qed.

Lemma power_kept_refl p : power_kept E p p.
Proof. left. reflexivity. Qed.

Lemma power_kept_trans p1 p2 p3 :
  power_kept E p1 p2 -> power_kept E p2 p3 -> power_kept E p1 p3.
Proof.
  intros [->|[Hty ->]] [->|[Hty' ->]].
  - left. reflexivity.
  - right. auto.
  - right. auto.
  - right. split; [assumption|]. apply set_passive_trigger_idem.
Qed.

#[local] Instance Q_table_preorder : PreOrder (Q_table E).
Proof.
  split.
  - intros [T q]. unfold Q_table, table_kept. cbn.
    apply Forall2_same_length_lookup. split; [reflexivity|].
    intros i x y Hx Hy. rewrite Hx in Hy. injection Hy as <-. apply power_kept_refl.
  - intros [T1 q1] [T2 q2] [T3 q3]. unfold Q_table, table_kept. cbn.
    intros H12 H23. revert T3 H23.
    induction H12 as [|x y l k Hxy _ IH]; intros T3 H23.
    + inversion H23. constructor.
    + inversion H23 as [|y' z k' m Hyz Hkm]; subst.
      constructor; [eapply power_kept_trans; eassumption | apply IH; assumption].
Qed.

Lemma table_kept_refl T : table_kept E T T.
Proof. exact (@reflexivity _ (Q_table E) _ (T, [])). Qed.

Lemma Q_table_block T q (i : nat) p :
  T !! i = Some p ->
  Power.type p = POWTYPE_BLOCK ->
  (Q_table E) (T, q) (<[i := Power.set_passive_trigger (TRIGGER_BLOCK E) p]> T, q).
Proof.
  intros Hp Hty. unfold Q_table, table_kept. cbn.
  rewrite <- (list_insert_id T i p Hp) at 1.
  apply Forall2_insert; [apply table_kept_refl|].
  right. auto.
Qed.

Lemma Q_table_pay T q (i : nat) p :
  T !! i = Some p ->
  Power.requires_equipped_item p ∉ q ->
  (Q_table E) (T, q)
    (T, push_back_n (Power.requires_equipped_item_quantity p)
          (Power.requires_equipped_item p) q).
Proof. intros _ _. apply table_kept_refl. Qed.

(** ** The queue of used equipped items *)

#[local] Instance Q_queue_preorder : PreOrder Q_queue.
Proof.
  split.
  - intros v H. exact H.
  - intros v1 v2 v3 H12 H23 H. auto.
Qed.

Lemma Q_queue_block T q (i : nat) p :
  T !! i = Some p ->
  Power.type p = POWTYPE_BLOCK ->
  Q_queue (T, q) (<[i := Power.set_passive_trigger (TRIGGER_BLOCK E) p]> T, q).
Proof.
  intros Hp _ [HT Hq]. cbn in *. split; [|assumption].
  apply Forall_insert; [assumption|].
  exact (proj1 (Forall_lookup _ _) HT i p Hp).
Qed.

Lemma push_back_n_one quantity item (q : list Z) :
  quantity <= 1 ->
  push_back_n quantity item q = q \/ push_back_n quantity item q = q ++ [item].
Proof.
  intros H. unfold push_back_n.
  destruct (Z.to_nat quantity) as [|[|n]] eqn:Hn; [| |lia].
  - left. cbn. apply app_nil_r.
  - right. reflexivity.
Qed.

Lemma Q_queue_pay T q (i : nat) p :
  T !! i = Some p ->
  Power.requires_equipped_item p ∉ q ->
  Q_queue (T, q)
    (T, push_back_n (Power.requires_equipped_item_quantity p)
          (Power.requires_equipped_item p) q).
Proof.
  intros Hp Hnotin [HT Hq]. cbn in *. split; [assumption|].
  pose proof (proj1 (Forall_lookup _ _) HT i p Hp) as Hok.
  destruct (push_back_n_one _ (Power.requires_equipped_item p) q Hok) as [-> | ->];
    [assumption|].
  apply NoDup_app. split; [assumption|]. split.
  - intros x Hx Hx'. apply list_elem_of_singleton in Hx'. subst. contradiction.
  - apply NoDup_singleton.
Qed.

(** ** Invariants of the table under loadPowers *)

#[local] Instance Q_invariant_preorder I : PreOrder (Q_invariant I).
Proof.
  split.
  - intros v H. exact H.
  - intros v1 v2 v3 H12 H23 H. exact (H23 (H12 H)).
Qed.

Section LoaderInvariant.

(** [I] holds of the table throughout the load when it survives the writes to
    a field other than the equipped-item quantity, the record that sets this
    quantity, and the growth of the table at an [id] record. *)
Variable I : list Power.t -> Prop.

Hypothesis I_update : forall (f : Power.t -> Power.t),
  (forall p, Power.requires_equipped_item_quantity (f p)
             = Power.requires_equipped_item_quantity p) ->
  forall T (i : nat) p, T !! i = Some p -> I T -> I (<[i := f p]> T).

Hypothesis I_equipped : forall val id st,
  preserves E (Q_invariant I) (load_requires_equipped_item E val id st).

Hypothesis I_resize : forall T v,
  I T -> Int.in_range v -> Int.of_size (length T) < v ->
  I (resize (Z.to_nat (v mod 2 ^ 64)) (Power_default E) T).

Lemma preserves_update_power id (f : Power.t -> Power.t) :
  (forall p, Power.requires_equipped_item_quantity (f p)
             = Power.requires_equipped_item_quantity p) ->
  preserves E (Q_invariant I) (update_power E id f).
Proof.
  intros Hf w a w' H HI. unfold update_power in H.
  apply bind_inv in H as (p & w1 & H1 & H).
  apply power_at_inv in H1 as (Hi & Hp & ->).
  apply modify_inv in H as ->. cbn.
  apply I_update; assumption.
Qed.

Hint Extern 1 (preserves _ _ (update_power _ _ _)) =>
  apply preserves_update_power; intro; reflexivity : frame.

Hint Resolve I_equipped : frame.

Lemma preserves_load_trait_elemental id val i elements :
  preserves E (Q_invariant I) (load_trait_elemental E id val i elements).
Proof.
  revert i. induction elements as [|e rest IH]; intros i; cbn [load_trait_elemental]; frame.
Qed.

Lemma preserves_loadSFX filename : preserves E (Q_invariant I) (loadSFX E filename).
Proof. unfold loadSFX. frame. Qed.

Lemma preserves_load_post_effect val id st :
  preserves E (Q_invariant I) (load_post_effect E val id st).
Proof. unfold load_post_effect. frame. Qed.

Lemma preserves_load_spawn_limit val id st :
  preserves E (Q_invariant I) (load_spawn_limit E val id st).
Proof. unfold load_spawn_limit. frame. Qed.

Lemma preserves_load_spawn_level val id st :
  preserves E (Q_invariant I) (load_spawn_level E val id st).
Proof. unfold load_spawn_level. frame. Qed.

Lemma preserves_load_loot lootm val id st :
  preserves E (Q_invariant I) (load_loot E lootm val id st).
Proof. unfold load_loot. frame. Qed.

Hint Resolve preserves_load_trait_elemental preserves_loadSFX
  preserves_load_post_effect preserves_load_spawn_limit
  preserves_load_spawn_level preserves_load_loot : frame.

Lemma preserves_loadPowers_key lootm key val id st :
  preserves E (Q_invariant I) (loadPowers_key E lootm key val id st).
Proof. unfold loadPowers_key. frame. Qed.

Lemma preserves_loadPowers_line lootm line st :
  preserves E (Q_invariant I) (loadPowers_line E lootm line st).
Proof.
  pose proof (preserves_loadPowers_key lootm) as Hkey.
  unfold loadPowers_line. destruct line as [key val].
  destruct (key =s "id"); [|frame].
  intros w a w' H HI. cbn in HI |- *.
  apply bind_inv in H as ([] & w1 & H1 & H).
  assert (Hw1 : powers w1 = powers w).
  { destruct (to_int E val 0 <? 1); cbn [when_] in H1.
    - apply modify_inv in H1 as ->. reflexivity.
    - apply ret_inv in H1 as [_ ->]. reflexivity. }
  apply bind_inv in H as (ps & w2 & H2 & H).
  apply gets_inv in H2 as [-> ->].
  apply bind_inv in H as ([] & w3 & H2 & H).
  apply ret_inv in H as [_ ->].
  destruct (Z.ltb_spec (Int.of_size (length (powers w1))) (Int.add (to_int E val 0) 1))
    as [Hlt|Hge]; cbn [when_] in H2.
  - apply modify_inv in H2 as ->. cbn. rewrite Hw1 in *.
    apply I_resize; [assumption | apply wrap_in_range | assumption].
  - apply ret_inv in H2 as [_ ->]. rewrite Hw1. assumption.
Qed.

Lemma preserves_loadPowers_loop lootm lines st :
  preserves E (Q_invariant I) (loadPowers_loop E lootm lines st).
Proof.
  pose proof (preserves_loadPowers_line lootm) as Hline.
  revert st. induction lines as [|line rest IH]; intros st; cbn [loadPowers_loop]; frame.
Qed.

Lemma preserves_verifyID power_id allow_zero :
  preserves E (Q_invariant I) (verifyID E power_id allow_zero).
Proof. unfold verifyID. frame. Qed.

Lemma preserves_loadPowers_verify n i :
  preserves E (Q_invariant I) (loadPowers_verify E n i).
Proof.
  pose proof preserves_verifyID as Hv.
  revert i. induction n as [|n IH]; intros i; cbn [loadPowers_verify]; frame.
Qed.

(** [loadPowers] keeps the invariant of the table. *)
Lemma preserves_loadPowers lootm file :
  preserves E (Q_invariant I) (loadPowers E lootm file).
Proof.
  pose proof (preserves_loadPowers_loop lootm) as Hloop.
  pose proof preserves_loadPowers_verify as Hv.
  unfold loadPowers. frame.
Qed.

End LoaderInvariant.

Lemma of_size_fits (n : nat) :
  Z.of_nat n <= Int.max_int -> Int.of_size n = Z.of_nat n.
Proof.
  intros H. unfold Int.of_size. apply wrap_small.
  unfold Int.in_range, Int.min_int, Int.max_int in *. lia.
Qed.

(** [loadPowers] never grows the table beyond [INT_MAX] entries. *)
Lemma loadPowers_table_fits lootm file w a w' :
  table_fits (powers w) ->
  loadPowers E lootm file w = Some (a, w') ->
  table_fits (powers w').
Proof.
  intros Hfits H.
  refine (preserves_loadPowers table_fits _ _ _ lootm file w a w' H Hfits).
  - intros f _ T i p _ HT. unfold table_fits in *. rewrite length_insert. exact HT.
  - intros val id st. unfold load_requires_equipped_item.
    assert (Hupd : forall f, preserves E (Q_invariant table_fits) (update_power E id f)).
    { intros f w0 a0 w0' H0 HI. unfold update_power in H0.
      apply bind_inv in H0 as (p & w1 & H1 & H0).
      apply power_at_inv in H1 as (_ & _ & ->).
      apply modify_inv in H0 as ->. cbn in *. unfold table_fits in *.
      rewrite length_insert. exact HI. }
    frame.
  - intros T v HT Hv Hlt. unfold table_fits in *.
    rewrite of_size_fits in Hlt by assumption.
    rewrite length_resize.
    unfold Int.in_range, Int.max_int, Int.min_int in *.
    rewrite Z.mod_small by lia. lia.
Qed.

(** Every power [loadPowers] leaves in the table consumes at most one
    equipped item, when the default-constructed power does. *)
Lemma loadPowers_equipped_quantity lootm file w a w' :
  equipped_quantity_ok (Power_default E) ->
  Forall equipped_quantity_ok (powers w) ->
  loadPowers E lootm file w = Some (a, w') ->
  Forall equipped_quantity_ok (powers w').
Proof.
  intros Hdef Hok H.
  refine (preserves_loadPowers (Forall equipped_quantity_ok) _ _ _ lootm file w a w' H Hok).
  - intros f Hf T i p Hp HT. apply Forall_insert; [assumption|].
    unfold equipped_quantity_ok. rewrite Hf.
    exact (proj1 (Forall_lookup _ _) HT i p Hp).
  - intros val id st w0 a0 w0' H0 HI. cbn in HI |- *.
    unfold load_requires_equipped_item in H0.
    destruct (nextValue E val) as [item rest].
    destruct (nextValue E rest) as [quantity rest'].
    apply bind_inv in H0 as ([] & w1 & H1 & H0).
    unfold update_power in H1.
    apply bind_inv in H1 as (p & w2 & H2 & H1).
    apply power_at_inv in H2 as (Hi & Hp & ->).
    apply modify_inv in H1 as ->.
    apply bind_inv in H0 as (p1 & w2 & H2 & H0).
    apply power_at_inv in H2 as (_ & Hp1 & ->).
    cbn in Hp1. rewrite list_lookup_insert_eq in Hp1 by (eapply lookup_lt_Some; eassumption).
    injection Hp1 as <-.
    match type of H0 with
    | (if 1 <? ?q then _ else _) _ = _ => destruct (Z.ltb_spec 1 q) as [Hlt|Hle]
    end.
    + apply bind_inv in H0 as ([] & w3 & H3 & H0).
      apply modify_inv in H3 as ->.
      apply bind_inv in H0 as ([] & w4 & H3 & H0).
      apply ret_inv in H0 as [_ ->].
      unfold update_power in H3.
      apply bind_inv in H3 as (p2 & w5 & H4 & H3).
      apply power_at_inv in H4 as (_ & Hp2 & ->).
      apply modify_inv in H3 as ->. cbn.
      rewrite list_insert_insert_eq.
      apply Forall_insert; [assumption|].
      unfold equipped_quantity_ok, clampCeil. cbn.
      destruct (Z.ltb_spec 1 (Power.requires_equipped_item_quantity p2)); lia.
    + apply ret_inv in H0 as [_ ->]. cbn.
      apply Forall_insert; [assumption|]. exact Hle.
  - intros T v HT _ _. apply Forall_resize; assumption.
Qed.

(** ** Running the dispatcher and its parts *)

Lemma bounds_pass power_index w p :
  0 <= power_index ->
  powers w !! Z.to_nat power_index = Some p ->
  (Z.of_nat (length (powers w)) <=? Int.to_unsigned power_index) = false.
Proof.
  intros Hi Hp. pose proof (lookup_bounds power_index w p Hi Hp) as Hlt.
  apply Z.leb_gt. unfold Int.to_unsigned.
  pose proof (Z.mod_le power_index (2 ^ 32) Hi ltac:(lia)). lia.
Qed.

Lemma affordable_guards s p :
  affordable s p ->
  StatBlock.hero s && (StatBlock.mp s <? Power.requires_mp p) = false
  /\ (0 <? StatBlock.hp s) && negb (Power.sacrifice p)
     && (StatBlock.hp s <=? Power.requires_hp p) = false.
Proof.
  intros [Hmp Hhp]. split.
  - destruct (StatBlock.hero s); [|reflexivity]. cbn.
    apply Z.ltb_ge. auto.
  - destruct (Z.ltb_spec 0 (StatBlock.hp s)); [|reflexivity].
    destruct (Power.sacrifice p); [reflexivity|]. cbn.
    apply Z.leb_gt. auto.
Qed.

(** A call that passes the guards of [activate] is the call of the strategy
    of the power's type. *)
Lemma activate_dispatch fuel power_index src_stats target w p :
  0 <= power_index ->
  powers w !! Z.to_nat power_index = Some p ->
  src_stats <> 0 ->
  affordable (stats w) p ->
  activate E (S fuel) power_index src_stats target w
  = (if bool_decide (Power.type p = POWTYPE_BLOCK) then block E power_index src_stats
     else match Power.type p with
          | POWTYPE_FIXED => fixed E (activate E fuel) power_index src_stats target
          | POWTYPE_MISSILE => missile E power_index src_stats target
          | POWTYPE_REPEATER => repeater E power_index src_stats target
          | POWTYPE_SPAWN => spawn E (activate E fuel) power_index src_stats target
          | POWTYPE_TRANSFORM =>
              transform E (activate E fuel) power_index src_stats target
          | POWTYPE_BLOCK | POWTYPE_NONE => ret false
          end) w.
Proof.
  intros Hi Hp Hsrc Haff. cbn [activate]. unfold activate_body.
  rewrite bind_gets. rewrite (bounds_pass power_index w p Hi Hp).
  rewrite bind_deref by assumption.
  erewrite bind_power_at by eassumption.
  destruct (affordable_guards _ _ Haff) as [-> ->].
  reflexivity.
Qed.

Lemma payPowerCost_paid power_index src_stats w p :
  0 <= power_index ->
  powers w !! Z.to_nat power_index = Some p ->
  src_stats <> 0 ->
  exists items equipped,
    payPowerCost E power_index src_stats w
    = Some (tt, set_stats (paid p (stats w))
                  (set_used_equipped_items equipped (set_used_items items w))).
Proof.
  intros Hi Hp Hsrc. unfold payPowerCost, paid.
  destruct (Z.eqb_spec src_stats 0); [contradiction|].
  mrun.
  destruct (StatBlock.hero (stats w)); mrun.
  - destruct (negb (Power.requires_item p =? -1)); mrun;
      match goal with |- context [when_ ?b _] => destruct b end; mrun;
      rewrite update_stats_eq by assumption; wsimpl;
      eexists _, _; reflexivity.
  - rewrite update_stats_eq by assumption. wsimpl.
    exists (used_items w), (used_equipped_items w). destruct w. reflexivity.
Qed.

Lemma payPowerCost_runs power_index src_stats w p :
  0 <= power_index ->
  powers w !! Z.to_nat power_index = Some p ->
  src_stats <> 0 ->
  exists w1,
    payPowerCost E power_index src_stats w = Some (tt, w1)
    /\ powers w1 = powers w /\ collider w1 = collider w
    /\ hazards w1 = hazards w /\ sfx w1 = sfx w
    /\ StatBlock.pos (stats w1) = StatBlock.pos (stats w).
Proof.
  intros Hi Hp Hsrc.
  destruct (payPowerCost_paid power_index src_stats w p Hi Hp Hsrc)
    as (items & equipped & Hpay).
  eexists. split; [exact Hpay|]. wsimpl.
  repeat split. unfold paid. destruct (StatBlock.hero (stats w)); reflexivity.
Qed.

Lemma playSound_runs power_index w p :
  0 <= power_index ->
  powers w !! Z.to_nat power_index = Some p ->
  sound_ready w p ->
  exists played, playSound E power_index w = Some (tt, set_sounds_played played w).
Proof.
  intros Hi Hp Hs. unfold playSound. mrun.
  destruct Hs as [-> | [Hge [sid Hsid]]].
  - cbn. exists (sounds_played w). destruct w. reflexivity.
  - destruct (Z.eqb_spec (Power.sfx_index p) (-1)); [lia|].
    mrun. destruct (Z.ltb_spec (Power.sfx_index p) 0); [lia|].
    rewrite (bind_lift_option _ _ sid) by assumption.
    eexists. reflexivity.
Qed.

(** ** initHazard draws random numbers only *)

Section Draws.

Variables (power_index : Z) (p : Power.t) (src_stats : StatPtr).
Hypothesis index_nonneg : 0 <= power_index.
Hypothesis src_not_null : src_stats <> 0.

Lemma set_rng_set_rng r r' w : set_rng r' (set_rng r w) = set_rng r' w.
Proof. reflexivity. Qed.

Lemma draws_ret {A} (a : A) : draws_only E power_index p (ret a).
Proof. intros w _ _. exists a, (rng w). rewrite set_rng_same. reflexivity. Qed.

Lemma draws_bind {A B} (m : M (World E) A) (f : A -> M (World E) B) :
  draws_only E power_index p m ->
  (forall a, draws_only E power_index p (f a)) ->
  draws_only E power_index p (bind m f).
Proof.
  intros Hm Hf w Hp Hc.
  destruct (Hm w Hp Hc) as (a & r & Ha).
  destruct (Hf a (set_rng r w) Hp Hc) as (b & r' & Hb).
  exists b, r'. rewrite (bind_eq _ _ _ _ _ Ha). exact Hb.
Qed.

Lemma draws_with_rng {A} (g : Rng E -> A * Rng E) :
  draws_only E power_index p (with_rng E g).
Proof. intros w _ _. rewrite with_rng_eq. eauto. Qed.

Lemma draws_power_at : draws_only E power_index p (power_at E power_index).
Proof.
  intros w Hp _. exists p, (rng w).
  rewrite set_rng_same. apply power_at_eq; assumption.
Qed.

Lemma draws_deref : draws_only E power_index p (deref E src_stats).
Proof.
  intros w _ _. exists (stats w), (rng w).
  rewrite set_rng_same. apply deref_eq; assumption.
Qed.

Lemma draws_the_collider : draws_only E power_index p (the_collider E).
Proof.
  intros w _ [c Hc]. exists c, (rng w).
  rewrite set_rng_same. apply the_collider_eq; assumption.
Qed.

Ltac draws_step :=
  lazymatch goal with
  | |- draws_only _ _ _ (bind _ _) => apply draws_bind; [|intro]
  | |- draws_only _ _ _ (ret _) => apply draws_ret
  | |- draws_only _ _ _ (with_rng _ _) => apply draws_with_rng
  | |- draws_only _ _ _ (power_at _ _) => apply draws_power_at
  | |- draws_only _ _ _ (deref _ _) => apply draws_deref
  | |- draws_only _ _ _ (the_collider _) => apply draws_the_collider
  | |- draws_only _ _ _ (if ?b then _ else _) => destruct b
  | |- draws_only _ _ _ (match ?x with _ => _ end) => destruct x
  | |- draws_only _ _ _ (let _ := _ in _) => cbv zeta
  | |- draws_only _ _ _ ((fun _ => _) _) => cbv beta
  end.

Lemma initHazard_draws target haz :
  draws_only E power_index p (initHazard E power_index src_stats target haz).
Proof. unfold initHazard. repeat draws_step. Qed.

Lemma missile_variance_draws angle_variance :
  draws_only E power_index p (missile_variance E angle_variance).
Proof. unfold missile_variance. repeat draws_step. Qed.

Lemma missile_speed_var_draws speed_variance :
  draws_only E power_index p (missile_speed_var E speed_variance).
Proof. unfold missile_speed_var. repeat draws_step. Qed.

End Draws.

(** ** The walk of a repeater *)

Lemma repeater_location_shift speed loc j :
  repeater_location speed (repeater_step speed loc) j
  = repeater_location speed loc (S j).
Proof. unfold repeater_location. symmetry. apply Nat.iter_succ_r. Qed.

(** The loop of [repeater] from [loc]: it emits the hazards of the steps
    before the first wall step, or of all [n] steps when there is none. *)
Lemma repeater_loop_runs power_index p src_stats target c speed n :
  0 <= power_index ->
  src_stats <> 0 ->
  forall loc delay_iterator w,
    powers w !! Z.to_nat power_index = Some p ->
    collider w = Some c ->
    exists w' hs,
      repeater_loop E n power_index src_stats target speed loc delay_iterator w
      = Some (tt, w')
      /\ hazards w' = hazards w ++ hs
      /\ (length hs <= n)%nat
      /\ map Hazard.pos hs
         = map (repeater_location speed loc) (seq 1 (length hs))
      /\ (forall j, (1 <= j <= length hs)%nat ->
            wall_at E c (repeater_location speed loc j) = false)
      /\ ((length hs < n)%nat ->
            wall_at E c (repeater_location speed loc (S (length hs))) = true).
Proof.
  intros Hi Hsrc. induction n as [|n IH]; intros loc d w Hp Hc.
  - exists w, []. cbn [repeater_loop]. rewrite app_nil_r.
    split; [reflexivity|]. split; [reflexivity|]. split; [cbn; lia|].
    split; [reflexivity|]. split; cbn; intros; lia.
  - cbn [repeater_loop]. cbv zeta.
    fold (repeater_step speed loc).
    erewrite bind_the_collider by eassumption.
    fold (wall_at E c (repeater_step speed loc)).
    destruct (wall_at E c (repeater_step speed loc)) eqn:Hwall.
    + exists w, []. rewrite app_nil_r.
      split; [reflexivity|]. split; [reflexivity|]. split; [cbn; lia|].
      split; [reflexivity|]. split; cbn.
      * intros j Hj. lia.
      * intros _. exact Hwall.
    + erewrite bind_power_at by eassumption.
      destruct (initHazard_draws power_index p src_stats Hi Hsrc target
                  (Hazard_default E) w Hp (ex_intro _ c Hc)) as (haz & r & Hinit).
      rewrite (bind_eq _ _ _ _ _ Hinit).
      unfold push_hazard. rewrite bind_modify.
      set (h := Hazard.set_delay_frames d (Hazard.set_pos (repeater_step speed loc) haz)).
      set (w1 := set_hazards _ (set_rng r w)).
      destruct (IH (repeater_step speed loc) (Int.add d (Power.delay p)) w1 Hp Hc)
        as (w' & hs & Hrun & Hhaz & Hlen & Hpos & Hfree & Hstop).
      exists w', (h :: hs). rewrite Hrun. split; [reflexivity|].
      split. { rewrite Hhaz. subst w1. wsimpl. rewrite <- app_assoc. reflexivity. }
      split. { cbn. lia. }
      split.
      { cbn [map length seq]. f_equal.
        rewrite Hpos. rewrite <- (seq_shift (length hs) 1), map_map.
        apply map_ext. intros j. apply repeater_location_shift. }
      split.
      { intros j Hj. destruct j as [|[|j]]; [lia | exact Hwall |].
        rewrite <- repeater_location_shift. apply Hfree. cbn in Hj. lia. }
      { intros Hlt. cbn [length]. rewrite <- repeater_location_shift.
        apply Hstop. cbn in Hlt. lia. }
Qed.

(** ** The fan of a missile power *)

(** The loop of [missile] when the power has no angle variance: one hazard
    per missile, the [i]-th aimed at [theta + offset_angle(i) + 0]. *)
Lemma missile_loop_runs power_index p src_stats target theta n :
  0 <= power_index ->
  src_stats <> 0 ->
  Power.angle_variance p = 0 ->
  forall i delay_iterator w,
    powers w !! Z.to_nat power_index = Some p ->
    is_Some (collider w) ->
    exists w' hs,
      missile_loop E n power_index src_stats target theta i delay_iterator w
      = Some (tt, w')
      /\ hazards w' = hazards w ++ hs
      /\ Forall2 (fun k h => aimed E (missile_alpha theta (Power.count p)
                                        (Power.missile_angle p) (i + Z.of_nat k)) h)
           (seq 0 n) hs
      /\ powers w' = powers w /\ collider w' = collider w
      /\ sfx w' = sfx w /\ stats w' = stats w.
Proof.
  intros Hi Hsrc Hvar. induction n as [|n IH]; intros i d w Hp Hc.
  - exists w, []. cbn [missile_loop]. rewrite app_nil_r.
    repeat split; constructor.
  - cbn [missile_loop].
    erewrite bind_power_at by eassumption.
    destruct (initHazard_draws power_index p src_stats Hi Hsrc target
                (Hazard_default E) w Hp Hc) as (haz & r & Hinit).
    rewrite (bind_eq _ _ _ _ _ Hinit). cbv zeta.
    rewrite Hvar. unfold missile_variance at 1. cbn [Z.eqb]. rewrite bind_ret.
    destruct (missile_speed_var_draws power_index p (Power.speed_variance p)
                (set_rng r w) Hp Hc) as (sv & r' & Hsv).
    rewrite (bind_eq _ _ _ _ _ Hsv).
    unfold push_hazard. rewrite bind_modify.
    match goal with
    | |- context [set_hazards (_ ++ [?h0]) ?w0] =>
        set (h := h0); set (w1 := set_hazards (hazards w0 ++ [h]) w0)
    end.
    destruct (IH (i + 1) (Int.add d (Power.delay p)) w1 Hp Hc)
      as (w' & hs & Hrun & Hhaz & Haim & HT & Hcol & Hsfx & Hst).
    exists w', (h :: hs). rewrite Hrun. split; [reflexivity|].
    split. { rewrite Hhaz. subst w1. wsimpl. rewrite <- app_assoc. reflexivity. }
    split.
    { cbn [seq]. constructor.
      - rewrite Z.add_0_r. subst h. eexists _, _. reflexivity.
      - rewrite <- seq_shift. apply Forall2_fmap_l.
        eapply Forall2_impl; [exact Haim|]. cbn. intros k h' Hk.
        replace (i + Z.of_nat (S k)) with (i + 1 + Z.of_nat k) by lia. exact Hk. }
    subst w1. wsimpl in HT. wsimpl in Hcol. wsimpl in Hsfx. wsimpl in Hst. auto.
Qed.

(** ** transform *)

Lemma buff_plain act power_index src_stats target w p :
  0 <= power_index ->
  powers w !! Z.to_nat power_index = Some p ->
  src_stats <> 0 ->
  plain p ->
  buff E act power_index src_stats target w = Some (tt, w).
Proof.
  intros Hi Hp Hsrc (Htele & Hbuff & Hparty & Hhaz). unfold buff.
  erewrite bind_power_at by eassumption.
  rewrite Htele, Hbuff, Hparty, Hhaz. cbn [orb andb negb].
  mrun. reflexivity.
Qed.

(** An actor that is not transformed takes the ordinary branch of
    [transform], whatever the [spawn_type] of the power. *)
Lemma transform_not_transformed act power_index src_stats target w p :
  0 <= power_index ->
  powers w !! Z.to_nat power_index = Some p ->
  src_stats <> 0 ->
  StatBlock.transformed (stats w) = false ->
  transform E act power_index src_stats target w
  = transform_commit E act power_index src_stats target
      (set_stats (transformed_into p (stats w)) (set_action_bar_locked true w)).
Proof.
  intros Hi Hp Hsrc Hnot. unfold transform, transform_commit, transformed_into.
  mrun. wsimpl. rewrite Hnot. cbn [andb]. rewrite andb_false_r.
  rewrite bind_assoc.
  destruct (Power.transform_duration p =? 0).
  - mrun. wsimpl. reflexivity.
  - destruct (0 <? Power.transform_duration p).
    + mrun. wsimpl. reflexivity.
    + mrun. wsimpl. reflexivity.
Qed.

Lemma transform_commit_true act power_index src_stats target w b w' :
  transform_commit E act power_index src_stats target w = Some (b, w') -> b = true.
Proof.
  unfold transform_commit. intros H.
  apply bind_inv in H as (u1 & w1 & _ & H).
  apply bind_inv in H as (p & w2 & _ & H).
  apply bind_inv in H as (u3 & w3 & _ & H).
  apply bind_inv in H as (u4 & w4 & _ & H).
  apply bind_inv in H as (u5 & w5 & _ & H).
  apply ret_inv in H as [-> _]. reflexivity.
Qed.

(** ** post_effect records *)

Lemma bind_update_power {B} id f p (k : unit -> M (World E) B) w :
  0 <= id ->
  powers w !! Z.to_nat id = Some p ->
  bind (update_power E id f) k w
  = k tt (set_powers (<[Z.to_nat id := f p]> (powers w)) w).
Proof.
  intros Hi Hp. unfold update_power. rewrite bind_assoc.
  erewrite bind_power_at by eassumption. rewrite bind_modify. reflexivity.
Qed.



(** ** Relations kept by a computation *)

Section KeepsStructure.

Context (R : relation (World E)) `{!PreOrder R}.

Lemma keeps_ret {A} (a : A) : keeps E R (ret a).
Proof. intros w b w' H. apply ret_inv in H as [_ ->]. reflexivity. Qed.

Lemma keeps_undefined {A} : keeps E R (@undefined (World E) A).
Proof. intros w b w' H. discriminate. Qed.

Lemma keeps_gets {A} (f : World E -> A) : keeps E R (gets f).
Proof. intros w b w' H. apply gets_inv in H as [_ ->]. reflexivity. Qed.

Lemma keeps_lift_option {A} (o : option A) : keeps E R (lift_option o).
Proof. intros w b w' H. apply lift_option_inv in H as [_ ->]. reflexivity. Qed.

Lemma keeps_bind {A B} (m : M (World E) A) (f : A -> M (World E) B) :
  keeps E R m -> (forall a, keeps E R (f a)) -> keeps E R (bind m f).
Proof.
  intros Hm Hf w b w' H. apply bind_inv in H as (a & w1 & H1 & H2).
  transitivity w1; [eapply Hm | eapply Hf]; eassumption.
Qed.

Lemma keeps_when (b : bool) (m : M (World E) unit) :
  keeps E R m -> keeps E R (when_ b m).
Proof. intros Hm. destruct b; [exact Hm | apply keeps_ret]. Qed.

Lemma keeps_modify (f : World E -> World E) :
  (forall w, R w (f w)) -> keeps E R (modify f).
Proof. intros Hf w b w' H. apply modify_inv in H as ->. apply Hf. Qed.

Lemma keeps_with_rng {A} (f : Rng E -> A * Rng E) :
  (forall w r, R w (set_rng r w)) -> keeps E R (with_rng E f).
Proof.
  intros Hf w b w' H. rewrite with_rng_eq in H. inversion H. apply Hf.
Qed.

Lemma keeps_update_stats src_stats f :
  (forall w, R w (set_stats (f (stats w)) w)) -> keeps E R (update_stats E src_stats f).
Proof.
  intros Hf w b w' H. apply update_stats_inv in H as [_ ->]. apply Hf.
Qed.

Lemma keeps_update_power id f :
  (forall w p,
     powers w !! Z.to_nat id = Some p ->
     R w (set_powers (<[Z.to_nat id := f p]> (powers w)) w)) ->
  keeps E R (update_power E id f).
Proof.
  intros Hf w b w' H. unfold update_power in H.
  apply bind_inv in H as (p & w1 & H1 & H).
  apply power_at_inv in H1 as (_ & Hp & ->).
  apply modify_inv in H as ->. apply Hf. exact Hp.
Qed.

Lemma keeps_power_at power_index : keeps E R (power_at E power_index).
Proof. intros w b w' H. apply power_at_inv in H as (_ & _ & ->). reflexivity. Qed.

Lemma keeps_deref src_stats : keeps E R (deref E src_stats).
Proof. intros w b w' H. apply deref_inv in H as (_ & _ & ->). reflexivity. Qed.

Lemma keeps_the_collider : keeps E R (the_collider E).
Proof.
  unfold the_collider. apply keeps_bind; [apply keeps_gets|].
  intros c. apply keeps_lift_option.
Qed.

End KeepsStructure.

Create HintDb keeps.

(** One step of a proof that a computation keeps a relation; [write] is run
    on what each write to the state has to satisfy. *)
Ltac keeps_step write :=
  lazymatch goal with
  | |- keeps _ _ (bind _ _) => apply keeps_bind; [exact _ | |intro]
  | |- keeps _ _ (ret _) => apply keeps_ret; exact _
  | |- keeps _ _ undefined => apply keeps_undefined
  | |- keeps _ _ (gets _) => apply keeps_gets; exact _
  | |- keeps _ _ (lift_option _) => apply keeps_lift_option; exact _
  | |- keeps _ _ (when_ _ _) => apply keeps_when; [exact _|]
  | |- keeps _ _ (modify _) => apply keeps_modify; intro; write
  | |- keeps _ _ (with_rng _ _) => apply keeps_with_rng; intros; write
  | |- keeps _ _ (update_stats _ _ _) => apply keeps_update_stats; intro; write
  | |- keeps _ _ (update_power _ _ _) => apply keeps_update_power; intros; write
  | |- keeps _ _ (power_at _ _) => apply keeps_power_at; exact _
  | |- keeps _ _ (deref _ _) => apply keeps_deref; exact _
  | |- keeps _ _ (the_collider _) => apply keeps_the_collider; exact _
  | |- keeps _ _ (push_hazard _ _) => unfold push_hazard
  | |- keeps _ _ (log_error _ _) => unfold log_error
  | |- keeps _ _ (add_combat_text _ _ _ _) => unfold add_combat_text
  | |- keeps _ _ (if ?b then _ else _) => destruct b
  | |- keeps _ _ (match ?x with _ => _ end) => destruct x
  | |- keeps _ _ (let _ := _ in _) => cbv zeta
  | |- keeps _ _ ((fun _ => _) _) => cbv beta
  end.

Ltac keeps_with write :=
  repeat first [ keeps_step write | assumption | solve [ auto with keeps ] ].

(** ** Results of a computation *)

Create HintDb yields.

Lemma yields_ret {A} (P : A -> Prop) (a : A) : P a -> yields E P (ret a).
Proof. intros HP w b w' H. apply ret_inv in H as [-> _]. exact HP. Qed.

Lemma yields_bind {A B} (P : B -> Prop) (m : M (World E) A) (f : A -> M (World E) B) :
  (forall a, yields E P (f a)) -> yields E P (bind m f).
Proof.
  intros Hf w b w' H. apply bind_inv in H as (a & w1 & _ & H2).
  exact (Hf a w1 b w' H2).
Qed.

Lemma yields_undefined {A} (P : A -> Prop) : yields E P (@undefined (World E) A).
Proof. intros w b w' H. discriminate. Qed.

Ltac yields_step solve_result :=
  lazymatch goal with
  | |- yields _ _ (bind _ _) => apply yields_bind; intro
  | |- yields _ _ (ret _) => apply yields_ret; solve_result
  | |- yields _ _ undefined => apply yields_undefined
  | |- yields _ _ (if ?b then _ else _) => destruct b
  | |- yields _ _ (match ?x with _ => _ end) => destruct x
  | |- yields _ _ (let _ := _ in _) => cbv zeta
  | |- yields _ _ ((fun _ => _) _) => cbv beta
  end.

Ltac yields_with solve_result :=
  repeat first [ yields_step solve_result | assumption | solve [ auto with yields ] ].


(** * The claims *)

(** C10.  For every [power_index] that is negative or not below the size of
    the power table, [activate] returns false at once and leaves the whole
    state as it was: nothing is emitted, no cost is paid, the table is not
    read.  Negative indices are rejected by the same unsigned comparison as
    too large ones (the table holds at most [INT_MAX] entries, which
    [loadPowers] guarantees). *)
Theorem activate_rejects_out_of_range fuel power_index src_stats target w :
  Int.in_range power_index ->
  Z.of_nat (length (powers w)) <= Int.max_int ->
  power_index < 0 \/ Z.of_nat (length (powers w)) <= power_index ->
  activate E (S fuel) power_index src_stats target w = Some (false, w).
Proof.
  intros Hr Hn Hout. cbn [activate]. unfold activate_body.
  rewrite (bind_eq _ _ w (powers w) w) by reflexivity.
  rewrite bounds_guard by assumption.
  destruct (Z.leb_spec 0 power_index), (Z.ltb_spec power_index (Z.of_nat (length (powers w))));
    cbn [andb negb]; try reflexivity; lia.
Qed.

(** C6.  A power that does not permit self-sacrifice and whose hp cost is at
    least the current hp of a living actor is not activated: [activate]
    returns false and the state is unchanged (hp, mp, hazards, spawns and all
    the rest). *)
Theorem activate_rejects_lethal_hp_cost fuel power_index src_stats target w p :
  0 <= power_index ->
  powers w !! Z.to_nat power_index = Some p ->
  src_stats <> 0 ->
  Power.sacrifice p = false ->
  0 < StatBlock.hp (stats w) ->
  StatBlock.hp (stats w) <= Power.requires_hp p ->
  activate E (S fuel) power_index src_stats target w = Some (false, w).
Proof.
  intros Hi Hp Hsrc Hsac Hpos Hcost. cbn [activate]. unfold activate_body.
  rewrite (bind_eq _ _ w (powers w) w) by reflexivity.
  destruct (Z.of_nat (length (powers w)) <=? Int.to_unsigned power_index);
    [reflexivity|].
  rewrite (bind_eq _ _ _ _ _ (deref_eq src_stats w Hsrc)).
  rewrite (bind_eq _ _ _ _ _ (power_at_eq power_index w p Hi Hp)).
  destruct (StatBlock.hero (stats w) && (StatBlock.mp (stats w) <? Power.requires_mp p));
    [reflexivity|].
  rewrite Hsac.
  destruct (Z.ltb_spec 0 (StatBlock.hp (stats w))); [|lia].
  destruct (Z.leb_spec (StatBlock.hp (stats w)) (Power.requires_hp p)); [|lia].
  reflexivity.
Qed.

(** C5.  A spawn activation that finds no empty tile (the tile chosen by
    [spawn_pos], after the forced neighbour search, is not empty) returns
    false and commits nothing: apart from the random source that the neighbour
    search consumed, the state is the one before the call, so no cost is paid,
    no spawn request is enqueued, no buff is applied and no sound is played. *)
Theorem spawn_without_empty_tile_fails fuel power_index src_stats target w p c :
  0 <= power_index ->
  powers w !! Z.to_nat power_index = Some p ->
  Power.type p = POWTYPE_SPAWN ->
  src_stats <> 0 ->
  collider w = Some c ->
  (let pos := fst (spawn_pos E p (stats w) target c (rng w)) in
   is_empty E c (fp_x pos) (fp_y pos) = false) ->
  exists r, activate E (S fuel) power_index src_stats target w
            = Some (false, set_rng r w).
Proof.
  intros Hi Hp Hty Hsrc Hc Hblocked. cbn zeta in Hblocked.
  cbn [activate]. unfold activate_body.
  rewrite (bind_eq _ _ w (powers w) w) by reflexivity.
  destruct (Z.of_nat (length (powers w)) <=? Int.to_unsigned power_index).
  { exists (rng w). rewrite set_rng_same. reflexivity. }
  rewrite (bind_eq _ _ _ _ _ (deref_eq src_stats w Hsrc)).
  rewrite (bind_eq _ _ _ _ _ (power_at_eq power_index w p Hi Hp)).
  destruct (StatBlock.hero (stats w) && (StatBlock.mp (stats w) <? Power.requires_mp p)).
  { exists (rng w). rewrite set_rng_same. reflexivity. }
  destruct ((0 <? StatBlock.hp (stats w)) && negb (Power.sacrifice p)
            && (StatBlock.hp (stats w) <=? Power.requires_hp p)).
  { exists (rng w). rewrite set_rng_same. reflexivity. }
  rewrite Hty. cbn [bool_decide decide_rel PowType_eq_dec].
  rewrite bool_decide_eq_false_2 by discriminate.
  unfold spawn.
  rewrite (bind_eq _ _ _ _ _ (power_at_eq power_index w p Hi Hp)).
  rewrite (bind_eq _ _ _ _ _ (deref_eq src_stats w Hsrc)).
  rewrite (bind_eq _ _ _ _ _ (the_collider_eq w c Hc)).
  rewrite (bind_eq _ _ _ _ _ (with_rng_eq _ w)).
  rewrite Hblocked. cbn [negb].
  eexists. reflexivity.
Qed.

(** C2 (amended).  An activation leaves every entry of the power table as
    [loadPowers] built it, with one exception: [block] sets the passive
    trigger of the block power it runs to [TRIGGER_BLOCK].  So after any
    activation (fixed, missile, repeater, spawn, transform, block, chained post
    powers) and after the passive scans, the table has the same size and each
    entry is the old one, or is a power of type block that differs from the
    old one in [passive_trigger] only. *)
Theorem activation_keeps_power_table :
  (forall fuel power_index src_stats target w b w',
     activate E fuel power_index src_stats target w = Some (b, w') ->
     table_kept E (powers w) (powers w'))
  /\ (forall fuel src_stats w u w',
        activatePassives E fuel src_stats w = Some (u, w') ->
        table_kept E (powers w) (powers w'))
  /\ (forall fuel src_stats id w u w',
        activateSinglePassive E fuel src_stats id w = Some (u, w') ->
        table_kept E (powers w) (powers w')).
Proof.
  split; [|split].
  - intros fuel power_index src_stats target w b w' H.
    exact (preserves_activate (Q_table E) Q_table_block Q_table_pay
             fuel power_index src_stats target w b w' H).
  - intros fuel src_stats w u w' H.
    exact (preserves_activatePassives (Q_table E) Q_table_block Q_table_pay
             fuel src_stats w u w' H).
  - intros fuel src_stats id w u w' H.
    exact (preserves_activateSinglePassive (Q_table E) Q_table_block Q_table_pay
             fuel src_stats id w u w' H).
Qed.

(** C9.  Paying the cost of a power, for a hero, enqueues nothing in
    [used_equipped_items] when the power's equipped item is already in the
    queue.  With the quantity clamped to at most 1 by [loadPowers], a payment
    adds at most one entry, and the queue never holds the same item twice:
    [payPowerCost] and every activation keep it free of duplicates. *)
Theorem used_equipped_items_once :
  (forall power_index src_stats w p,
     0 <= power_index ->
     powers w !! Z.to_nat power_index = Some p ->
     src_stats <> 0 ->
     StatBlock.hero (stats w) = true ->
     Power.requires_equipped_item p ∈ used_equipped_items w ->
     exists w', payPowerCost E power_index src_stats w = Some (tt, w')
                /\ used_equipped_items w' = used_equipped_items w)
  /\ (forall power_index src_stats w u w',
        Forall equipped_quantity_ok (powers w) ->
        NoDup (used_equipped_items w) ->
        payPowerCost E power_index src_stats w = Some (u, w') ->
        NoDup (used_equipped_items w')
        /\ (length (used_equipped_items w') <= S (length (used_equipped_items w)))%nat)
  /\ (forall fuel power_index src_stats target w b w',
        Forall equipped_quantity_ok (powers w) ->
        NoDup (used_equipped_items w) ->
        activate E fuel power_index src_stats target w = Some (b, w') ->
        Forall equipped_quantity_ok (powers w') /\ NoDup (used_equipped_items w'))
  /\ (forall lootm file w u w',
        equipped_quantity_ok (Power_default E) ->
        Forall equipped_quantity_ok (powers w) ->
        loadPowers E lootm file w = Some (u, w') ->
        Forall equipped_quantity_ok (powers w')).
Proof.
  split; [|split; [|split]].
  - intros power_index src_stats w p Hi Hp Hsrc Hhero Hin.
    unfold payPowerCost.
    destruct (Z.eqb_spec src_stats 0); [contradiction|].
    mrun. rewrite Hhero. mrun.
    destruct (negb (Power.requires_item p =? -1)); mrun; wsimpl;
      rewrite (bool_decide_eq_true_2 _ Hin), andb_false_r; mrun;
      rewrite update_stats_eq by assumption;
      (eexists; split; [reflexivity|]; reflexivity).
  - intros power_index src_stats w u w' HT Hq H.
    apply payPowerCost_view in H as [_ [-> | (p & Hp & Hnotin & ->)]].
    + split; [assumption | lia].
    + pose proof (proj1 (Forall_lookup _ _) HT _ p Hp) as Hok.
      destruct (push_back_n_one _ (Power.requires_equipped_item p)
                  (used_equipped_items w) Hok) as [-> | ->].
      * split; [assumption | lia].
      * split.
        -- apply NoDup_app. split; [assumption|]. split.
           ++ intros x Hx Hx'. apply list_elem_of_singleton in Hx'. subst. contradiction.
           ++ apply NoDup_singleton.
        -- rewrite length_app. cbn. lia.
  - intros fuel power_index src_stats target w b w' HT Hq H.
    exact (preserves_activate Q_queue Q_queue_block Q_queue_pay
             fuel power_index src_stats target w b w' H (conj HT Hq)).
  - intros lootm file w u w' Hdef HT H.
    eapply loadPowers_equipped_quantity; eassumption.
Qed.

(** C7.  A repeater activation walks from the source toward the target in
    steps of the power's speed, at most [count] of them, and emits one hazard
    per step, placed on that step, until a step lands on a wall tile: that
    step emits nothing and ends the walk.  So when the first wall is met on
    step [k], exactly [k - 1] hazards are emitted, and when no step meets a
    wall, [count] are. *)
Theorem repeater_stops_at_wall fuel power_index src_stats target w p c :
  0 <= power_index ->
  powers w !! Z.to_nat power_index = Some p ->
  Power.type p = POWTYPE_REPEATER ->
  src_stats <> 0 ->
  affordable (stats w) p ->
  collider w = Some c ->
  sound_ready w p ->
  let place :=
    repeater_location (repeater_speed E p (stats w) target)
      (StatBlock.pos (stats w)) in
  let count := Z.to_nat (Power.count p) in
  exists w' hs,
    activate E (S fuel) power_index src_stats target w = Some (true, w')
    /\ hazards w' = hazards w ++ hs
    /\ (length hs <= count)%nat
    /\ map Hazard.pos hs = map place (seq 1 (length hs))
    /\ (forall k,
          (1 <= k <= count)%nat ->
          wall_at E c (place k) = true ->
          (forall j, (1 <= j < k)%nat -> wall_at E c (place j) = false) ->
          length hs = (k - 1)%nat)
    /\ ((forall j, (1 <= j <= count)%nat -> wall_at E c (place j) = false) ->
        length hs = count).
Proof.
  intros Hi Hp Hty Hsrc Haff Hc Hsound place count.
  rewrite (activate_dispatch fuel power_index src_stats target w p) by assumption.
  rewrite Hty. rewrite bool_decide_eq_false_2 by discriminate.
  unfold repeater.
  destruct (payPowerCost_runs power_index src_stats w p Hi Hp Hsrc)
    as (w1 & Hpay & HT1 & Hc1 & Hh1 & Hs1 & Hpos1).
  rewrite (bind_eq _ _ _ _ _ Hpay).
  assert (Hp1 : powers w1 !! Z.to_nat power_index = Some p) by (rewrite HT1; exact Hp).
  erewrite bind_power_at by eassumption.
  rewrite bind_deref by assumption. cbv zeta.
  assert (Hsound1 : sound_ready w1 p) by (unfold sound_ready; rewrite Hs1; exact Hsound).
  destruct (playSound_runs power_index w1 p Hi Hp1 Hsound1) as (played & Hplay).
  rewrite (bind_eq _ _ _ _ _ Hplay).
  rewrite Hpos1.
  fold (repeater_speed E p (stats w) target).
  set (w2 := set_sounds_played played w1).
  destruct (repeater_loop_runs power_index p src_stats target c
              (repeater_speed E p (stats w) target) count Hi Hsrc
              (StatBlock.pos (stats w)) 0 w2)
    as (w' & hs & Hrun & Hhaz & Hlen & Hplaces & Hfree & Hstop).
  { subst w2. wsimpl. exact Hp1. }
  { subst w2. wsimpl. rewrite Hc1. exact Hc. }
  fold count. rewrite (bind_eq _ _ _ _ _ Hrun).
  exists w', hs. split; [reflexivity|].
  split. { rewrite Hhaz. subst w2. wsimpl. rewrite Hh1. reflexivity. }
  split; [exact Hlen|]. split; [exact Hplaces|]. split.
  - intros k Hk Hwall Hbefore.
    destruct (Nat.lt_trichotomy (length hs) (k - 1)) as [Hlt | [Heq | Hgt]].
    + assert (Hw : wall_at E c (place (S (length hs))) = true) by (apply Hstop; lia).
      rewrite Hbefore in Hw by lia. discriminate.
    + exact Heq.
    + assert (Hw : wall_at E c (place k) = false) by (apply Hfree; lia).
      fold place in Hwall. rewrite Hwall in Hw. discriminate.
  - intros Hnone.
    destruct (Nat.eq_dec (length hs) count) as [Heq | Hne]; [exact Heq|].
    assert (Hw : wall_at E c (place (S (length hs))) = true) by (apply Hstop; lia).
    rewrite Hnone in Hw by lia. discriminate.
Qed.

(** C8.  A missile activation without angle variance emits [count] hazards in
    order, the [i]-th aimed at the bearing [theta] from the start to the
    target plus the offset [((1 - count) / 2 + i) * missile_angle] degrees
    (converted to radians in [float]).  For [count = 3] and
    [missile_angle = 30] the three offsets are exactly [-deg30], [0] and
    [deg30], where [deg30] is 30 degrees in radians as a [float]: the hazards
    are aimed at theta - 30, theta, theta + 30 degrees, in this order. *)
Theorem missile_fan fuel power_index src_stats target w p :
  0 <= power_index ->
  powers w !! Z.to_nat power_index = Some p ->
  Power.type p = POWTYPE_MISSILE ->
  src_stats <> 0 ->
  affordable (stats w) p ->
  is_Some (collider w) ->
  sound_ready w p ->
  Power.angle_variance p = 0 ->
  let theta := missile_theta E p (stats w) target in
  (exists w' hs,
     activate E (S fuel) power_index src_stats target w = Some (true, w')
     /\ hazards w' = hazards w ++ hs
     /\ Forall2
          (fun i h =>
             aimed E (missile_alpha theta (Power.count p) (Power.missile_angle p)
                        (Z.of_nat i)) h)
          (seq 0 (Z.to_nat (Power.count p))) hs)
  /\ (Power.count p = 3 ->
      Power.missile_angle p = 30 ->
      exists w' h0 h1 h2,
        activate E (S fuel) power_index src_stats target w = Some (true, w')
        /\ hazards w' = hazards w ++ [h0; h1; h2]
        /\ aimed E (F32.add (F32.add theta (SFopp deg30)) F32.zero) h0
        /\ aimed E (F32.add (F32.add theta F32.zero) F32.zero) h1
        /\ aimed E (F32.add (F32.add theta deg30) F32.zero) h2).
Proof.
  intros Hi Hp Hty Hsrc Haff Hc Hsound Hvar theta.
  assert (Hgen : exists w' hs,
     activate E (S fuel) power_index src_stats target w = Some (true, w')
     /\ hazards w' = hazards w ++ hs
     /\ Forall2
          (fun i h =>
             aimed E (missile_alpha theta (Power.count p) (Power.missile_angle p)
                        (Z.of_nat i)) h)
          (seq 0 (Z.to_nat (Power.count p))) hs).
  { rewrite (activate_dispatch fuel power_index src_stats target w p) by assumption.
    rewrite Hty. rewrite bool_decide_eq_false_2 by discriminate.
    unfold missile.
    erewrite bind_power_at by eassumption.
    rewrite bind_deref by assumption. cbv zeta.
    fold (missile_theta E p (stats w) target). fold theta.
    destruct (missile_loop_runs power_index p src_stats target theta
                (Z.to_nat (Power.count p)) Hi Hsrc Hvar 0 0 w Hp Hc)
      as (w1 & hs & Hrun & Hhaz & Haim & HT1 & Hc1 & Hs1 & Hst1).
    rewrite (bind_eq _ _ _ _ _ Hrun).
    assert (Hp1 : powers w1 !! Z.to_nat power_index = Some p) by (rewrite HT1; exact Hp).
    destruct (payPowerCost_runs power_index src_stats w1 p Hi Hp1 Hsrc)
      as (w2 & Hpay & HT2 & Hc2 & Hh2 & Hs2 & Hpos2).
    rewrite (bind_eq _ _ _ _ _ Hpay).
    assert (Hp2 : powers w2 !! Z.to_nat power_index = Some p) by (rewrite HT2; exact Hp1).
    assert (Hsound2 : sound_ready w2 p).
    { unfold sound_ready. rewrite Hs2, Hs1. exact Hsound. }
    destruct (playSound_runs power_index w2 p Hi Hp2 Hsound2) as (played & Hplay).
    rewrite (bind_eq _ _ _ _ _ Hplay).
    eexists _, hs. split; [reflexivity|]. split.
    - wsimpl. rewrite Hh2, Hhaz. reflexivity.
    - exact Haim. }
  split; [exact Hgen|].
  intros Hcount Hangle.
  destruct Hgen as (w' & hs & Hrun & Hhaz & Haim).
  rewrite Hcount, Hangle in Haim. cbn [Z.to_nat Pos.to_nat Pos.iter_op Nat.add seq] in Haim.
  inversion Haim as [|i0 h0 l0 hs0 Ha0 Haim0]; subst.
  inversion Haim0 as [|i1 h1 l1 hs1 Ha1 Haim1]; subst.
  inversion Haim1 as [|i2 h2 l2 hs2 Ha2 Haim2]; subst.
  inversion Haim2; subst.
  exists w', h0, h1, h2. split; [exact Hrun|]. split; [exact Hhaz|].
  split; [|split].
  - exact Ha0.
  - exact Ha1.
  - exact Ha2.
Qed.

(** C3 (amended).  Activating a power whose [spawn_type] is "untransform"
    while the actor is not transformed is not rejected.  [transform] takes its
    ordinary branch: it locks the action bar, records [transform_type]
    "untransform" with the duration of the power, and goes on with buffs,
    sound and cost like any transformation; it sets no message and blocks or
    unblocks no tile.  Whenever the call returns it returns true, and for a
    power without buffs it returns with the cost paid. *)
Theorem untransform_when_not_transformed fuel power_index src_stats target w p :
  0 <= power_index ->
  powers w !! Z.to_nat power_index = Some p ->
  Power.type p = POWTYPE_TRANSFORM ->
  src_stats <> 0 ->
  affordable (stats w) p ->
  Power.spawn_type p = "untransform"%string ->
  StatBlock.transformed (stats w) = false ->
  activate E (S fuel) power_index src_stats target w
  = transform_commit E (activate E fuel) power_index src_stats target
      (set_stats (transformed_into p (stats w)) (set_action_bar_locked true w))
  /\ (forall b w',
        activate E (S fuel) power_index src_stats target w = Some (b, w') ->
        b = true)
  /\ (plain p ->
      sound_ready w p ->
      exists w',
        activate E (S fuel) power_index src_stats target w = Some (true, w')
        /\ log_msg w' = log_msg w
        /\ collider w' = collider w
        /\ action_bar_locked w' = true
        /\ StatBlock.transform_type (stats w') = "untransform"%string
        /\ StatBlock.hp (stats w') = StatBlock.hp (paid p (stats w))
        /\ StatBlock.mp (stats w') = StatBlock.mp (paid p (stats w))).
Proof.
  intros Hi Hp Hty Hsrc Haff Hspawn Hnot.
  assert (Hrun :
    activate E (S fuel) power_index src_stats target w
    = transform_commit E (activate E fuel) power_index src_stats target
        (set_stats (transformed_into p (stats w)) (set_action_bar_locked true w))).
  { rewrite (activate_dispatch fuel power_index src_stats target w p) by assumption.
    rewrite Hty. rewrite bool_decide_eq_false_2 by discriminate.
    apply transform_not_transformed; assumption. }
  split; [exact Hrun|]. split.
  - intros b w' H. rewrite Hrun in H. eapply transform_commit_true. exact H.
  - intros Hplain Hsound. rewrite Hrun. unfold transform_commit.
    set (w1 := set_stats _ _).
    assert (Hp1 : powers w1 !! Z.to_nat power_index = Some p) by exact Hp.
    rewrite (bind_eq _ _ _ _ _
               (buff_plain _ power_index src_stats target w1 p Hi Hp1 Hsrc Hplain)).
    erewrite bind_power_at by eassumption.
    rewrite bind_update_stats by assumption.
    set (w2 := set_stats _ w1).
    assert (Hp2 : powers w2 !! Z.to_nat power_index = Some p) by exact Hp.
    assert (Hsound2 : sound_ready w2 p) by exact Hsound.
    destruct (playSound_runs power_index w2 p Hi Hp2 Hsound2) as (played & Hplay).
    rewrite (bind_eq _ _ _ _ _ Hplay).
    set (w3 := set_sounds_played played w2).
    assert (Hp3 : powers w3 !! Z.to_nat power_index = Some p) by exact Hp.
    destruct (payPowerCost_paid power_index src_stats w3 p Hi Hp3 Hsrc)
      as (items & equipped & Hpay).
    rewrite (bind_eq _ _ _ _ _ Hpay).
    eexists. split; [reflexivity|].
    subst w3 w2 w1. wsimpl.
    split; [reflexivity|]. split; [reflexivity|]. split; [reflexivity|].
    unfold paid, transformed_into. rewrite Hspawn.
    destruct (Power.transform_duration p =? 0), (0 <? Power.transform_duration p);
      cbn [StatBlock.hero StatBlock.hp StatBlock.mp StatBlock.transform_type
           StatBlock.set_hp StatBlock.set_mp StatBlock.set_transform_type
           StatBlock.set_transform_duration StatBlock.set_untransform_on_hit
           StatBlock.set_transform_with_equipment StatBlock.set_manual_untransform];
      destruct (StatBlock.hero (stats w));
      cbn [StatBlock.hero StatBlock.hp StatBlock.mp StatBlock.transform_type
           StatBlock.set_hp StatBlock.set_mp StatBlock.set_transform_type
           StatBlock.set_transform_duration StatBlock.set_untransform_on_hit
           StatBlock.set_transform_with_equipment StatBlock.set_manual_untransform];
      auto.
Qed.

(** ** The post effects of a block *)

#[local] Instance post_effects_kept_preorder k : PreOrder (post_effects_kept E k).
Proof.
  split.
  - intros w. split; reflexivity.
  - intros w1 w2 w3 [He12 H12] [He23 H23]. split; congruence.
Qed.

(** What a write of a record other than [post_effect] has to satisfy. *)
Ltac post_effects_write :=
  split; wsimpl;
  [ reflexivity
  | first
      [ reflexivity
      | rewrite list_lookup_insert_eq by (eapply lookup_lt_Some; eassumption);
        match goal with
        | H : _ !! _ = Some _ |- _ => rewrite H
        end;
        reflexivity ] ].

Section PostEffectsKept.

Variable id : Z.

Local Abbreviation R := (post_effects_kept E (Z.to_nat id)).

Lemma post_effects_load_trait_elemental val i elements :
  keeps E R (load_trait_elemental E id val i elements).
Proof.
  revert i. induction elements as [|e rest IH]; intros i; cbn [load_trait_elemental];
    keeps_with post_effects_write.
Qed.

Lemma post_effects_loadSFX filename : keeps E R (loadSFX E filename).
Proof. unfold loadSFX. keeps_with post_effects_write. Qed.

Lemma post_effects_load_requires_equipped_item val st :
  keeps E R (load_requires_equipped_item E val id st).
Proof. unfold load_requires_equipped_item. keeps_with post_effects_write. Qed.

Lemma post_effects_load_spawn_limit val st :
  keeps E R (load_spawn_limit E val id st).
Proof. unfold load_spawn_limit. keeps_with post_effects_write. Qed.

Lemma post_effects_load_spawn_level val st :
  keeps E R (load_spawn_level E val id st).
Proof. unfold load_spawn_level. keeps_with post_effects_write. Qed.

Lemma post_effects_load_loot lootm val st :
  keeps E R (load_loot E lootm val id st).
Proof. unfold load_loot. keeps_with post_effects_write. Qed.

Hint Resolve post_effects_load_trait_elemental post_effects_loadSFX
  post_effects_load_requires_equipped_item post_effects_load_spawn_limit
  post_effects_load_spawn_level post_effects_load_loot : keeps.


End PostEffectsKept.

Ltac same_clearing_solve := repeat split; reflexivity.

Lemma same_clearing_load_requires_equipped_item val id st :
  yields E (same_clearing st) (load_requires_equipped_item E val id st).
Proof. unfold load_requires_equipped_item. yields_with same_clearing_solve. Qed.

Lemma same_clearing_load_spawn_limit val id st :
  yields E (same_clearing st) (load_spawn_limit E val id st).
Proof. unfold load_spawn_limit. yields_with same_clearing_solve. Qed.

Lemma same_clearing_load_spawn_level val id st :
  yields E (same_clearing st) (load_spawn_level E val id st).
Proof. unfold load_spawn_level. yields_with same_clearing_solve. Qed.

Lemma same_clearing_load_loot lootm val id st :
  yields E (same_clearing st) (load_loot E lootm val id st).
Proof. unfold load_loot. yields_with same_clearing_solve. Qed.

#[local] Hint Resolve same_clearing_load_requires_equipped_item
  same_clearing_load_spawn_limit same_clearing_load_spawn_level
  same_clearing_load_loot : yields.









(** * Further properties of PowerManager *)

(** ** loadSFX *)

Lemma set_sfx_same w : set_sfx (sfx w) w = w.
Proof. destruct w. reflexivity. Qed.

(** X1.  [loadSFX] returns the index at which the sound of [filename] sits in
    [sfx]: a sound that is there already is not added again and keeps its
    index, a new one is appended, so indices handed out earlier stay valid.
    Nothing but [sfx] changes, and loading the same file again returns the
    same index and changes nothing. *)
Theorem loadSFX_round_trip filename w :
  Z.of_nat (length (sfx w)) < Int.max_int ->
  exists i w',
    loadSFX E filename w = Some (i, w')
    /\ w' = set_sfx (sfx w') w
    /\ sfx w `prefix_of` sfx w'
    /\ (snd_load E filename ∈ sfx w -> sfx w' = sfx w)
    /\ 0 <= i
    /\ sfx w' !! Z.to_nat i = Some (snd_load E filename)
    /\ loadSFX E filename w' = Some (i, w').
Proof.
  intros Hlen. unfold loadSFX. rewrite bind_gets.
  assert (Hwrap : forall n : nat, (n <= length (sfx w))%nat -> Int.wrap (Z.of_nat n) = Z.of_nat n).
  { intros n Hn. apply wrap_small.
    unfold Int.in_range, Int.min_int, Int.max_int in *. lia. }
  destruct (list_find (fun x => x = snd_load E filename) (sfx w)) as [[i x]|] eqn:Hfind.
  - apply list_find_Some in Hfind as (Hi & -> & Hfirst).
    pose proof (lookup_lt_Some _ _ _ Hi) as Hlt.
    cbv beta iota. exists (Int.wrap (Z.of_nat i)), w. rewrite Hwrap by lia.
    split; [reflexivity|]. split; [symmetry; apply set_sfx_same|].
    split; [reflexivity|]. split; [reflexivity|]. split; [lia|].
    rewrite Nat2Z.id. split; [exact Hi|].
    rewrite bind_gets.
    rewrite (proj2 (list_find_Some _ _ i (snd_load E filename))) by auto.
    cbv beta iota. rewrite Hwrap by lia. reflexivity.
  - apply list_find_None in Hfind.
    rewrite bind_modify. cbv beta.
    assert (Hidx : Int.sub (Int.of_size (length (sfx w ++ [snd_load E filename]))) 1
                   = Z.of_nat (length (sfx w))).
    { rewrite length_app. cbn [length]. unfold Int.sub, Int.of_size.
      rewrite (wrap_small (Z.of_nat _))
        by (unfold Int.in_range, Int.min_int, Int.max_int in *; lia).
      rewrite wrap_small by (unfold Int.in_range, Int.min_int, Int.max_int in *; lia).
      lia. }
    eexists _, _. split; [reflexivity|]. rewrite Hidx. wsimpl.
    split; [reflexivity|].
    split; [apply prefix_app_r; reflexivity|].
    split.
    { intros Hin. exfalso. rewrite Forall_forall in Hfind.
      exact (Hfind _ Hin eq_refl). }
    split; [lia|]. rewrite Nat2Z.id.
    split; [apply list_lookup_middle; reflexivity|].
    rewrite bind_gets. wsimpl.
    rewrite (proj2 (list_find_Some _ _ (length (sfx w)) (snd_load E filename))).
    + cbv beta iota. rewrite Hwrap by lia. destruct w; reflexivity.
    + split; [apply list_lookup_middle; reflexivity|]. split; [reflexivity|].
      intros j y Hj Hlt. rewrite lookup_app_l in Hj by exact Hlt.
      rewrite Forall_forall in Hfind. apply Hfind.
      eapply list_elem_of_lookup_2. exact Hj.
Qed.

(** ** verifyID and the check of the chained ids *)

Lemma set_errors_same w : set_errors (errors w) w = w.
Proof. destruct w. reflexivity. Qed.

Lemma in_table_zero (T : list Power.t) : T <> [] -> in_table T 0.
Proof.
  intros HT. split; [lia|]. destruct T; [contradiction|]. cbn [length].
  unfold Int.to_unsigned. rewrite Z.mod_0_l by lia. lia.
Qed.

(** The run of [verifyID], for the symbolic execution of its callers. *)
Lemma verifyID_run power_id allow_zero w :
  exists r errs,
    verifyID E power_id allow_zero w = Some (r, set_errors errs w)
    /\ (powers w <> [] -> in_table (powers w) r).
Proof.
  unfold verifyID. rewrite bind_gets.
  destruct ((allow_zero && (power_id <? 0)) || (negb allow_zero && (power_id <? 1))
            || (Z.of_nat (length (powers w)) <=? Int.to_unsigned power_id)) eqn:Hc.
  - unfold log_error. rewrite bind_modify. eexists _, _. split; [reflexivity|].
    apply in_table_zero.
  - exists power_id, (errors w). rewrite set_errors_same. split; [reflexivity|].
    intros _. apply orb_false_elim in Hc as [Hlo Hhi].
    apply Z.leb_gt in Hhi. split; [|exact Hhi].
    destruct allow_zero; cbn [andb negb orb] in Hlo.
    + rewrite orb_false_r in Hlo. apply Z.ltb_ge in Hlo. exact Hlo.
    + apply Z.ltb_ge in Hlo. lia.
Qed.

(** X2.  [verifyID] returns the id it is given when the id passes the lower bound
    ([0] or [1], by [allow_zero]) and the unsigned comparison with the size of
    the table, and changes nothing then; any other id is reported as an error
    and replaced by [0].  Either way the table stays as it is, and on a table
    that is not empty the returned id is an id of the table. *)
Theorem verifyID_result power_id allow_zero w :
  exists r w',
    verifyID E power_id allow_zero w = Some (r, w')
    /\ powers w' = powers w
    /\ ((verifyID_accepts (powers w) power_id allow_zero /\ r = power_id /\ w' = w)
        \/ (~ verifyID_accepts (powers w) power_id allow_zero /\ r = 0
            /\ w' = set_errors (errors w ++ [ErrInvalidPowerId power_id]) w))
    /\ (powers w <> [] -> in_table (powers w') r).
Proof.
  unfold verifyID, verifyID_accepts. rewrite bind_gets.
  destruct allow_zero; cbn [andb negb orb];
    rewrite ?orb_false_r;
    match goal with
    | |- context [(power_id <? ?k) || _] => destruct (Z.ltb_spec power_id k) as [Hlo|Hlo]
    end; cbn [orb];
    try destruct (Z.leb_spec (Z.of_nat (length (powers w))) (Int.to_unsigned power_id))
      as [Hhi|Hhi];
    unfold log_error; rewrite ?bind_modify; cbv beta;
    eexists _, _; (split; [reflexivity|]); wsimpl; (split; [reflexivity|]);
    try (split; [right; split; [lia | split; reflexivity]
                | intros HT; apply in_table_zero; exact HT]).
  all: split; [left; split; [lia | split; reflexivity] | intros _; split; lia].
Qed.


Lemma same_but_chain_ids_refl p : same_but_chain_ids p p.
Proof. exists (Power.post_power p), (Power.wall_power p). destruct p. reflexivity. Qed.

(** The loop that verifies the chained ids, from entry [k] on: it runs to its
    end, leaves the entries below [k] alone, and gives every entry from [k] on
    ids of the table, changing nothing else in it. *)
Lemma loadPowers_verify_runs n : forall (k : nat) w,
  (k + n = length (powers w))%nat ->
  exists w',
    loadPowers_verify E n (Z.of_nat k) w = Some (tt, w')
    /\ length (powers w') = length (powers w)
    /\ (forall j, (j < k)%nat -> powers w' !! j = powers w !! j)
    /\ (forall j p, (k <= j)%nat -> powers w !! j = Some p ->
          exists p', powers w' !! j = Some p'
                     /\ same_but_chain_ids p p'
                     /\ chain_ids_ok (powers w) p').
Proof.
  induction n as [|n IH]; intros k w Hlen.
  - exists w. split; [reflexivity|]. split; [reflexivity|]. split; [reflexivity|].
    intros j p Hj Hp. apply lookup_lt_Some in Hp. lia.
  - cbn [loadPowers_verify].
    destruct (lookup_lt_is_Some_2 (powers w) k) as [p Hp]; [lia|].
    assert (Hne : powers w <> []) by (intros Hnil; rewrite Hnil in Hp; discriminate).
    assert (Hk : 0 <= Z.of_nat k) by lia.
    erewrite bind_power_at by (rewrite ?Nat2Z.id; eassumption).
    destruct (verifyID_run (Power.wall_power p) (verifyID_allow_zero E) w)
      as (wall & errs1 & Hv1 & Hwall).
    rewrite (bind_eq _ _ _ _ _ Hv1).
    erewrite bind_update_power by (wsimpl; rewrite ?Nat2Z.id; eassumption).
    wsimpl. rewrite Nat2Z.id.
    erewrite bind_power_at
      by (wsimpl; rewrite ?Nat2Z.id;
          first [lia | apply list_lookup_insert_eq; eapply lookup_lt_Some; eassumption]).
    match goal with
    | |- context [verifyID E ?id ?az] =>
        destruct (verifyID_run id az
                    (set_powers (<[k := Power.set_wall_power wall p]> (powers w))
                       (set_errors errs1 w)))
          as (post & errs2 & Hv2 & Hpost)
    end.
    rewrite (bind_eq _ _ _ _ _ Hv2).
    erewrite bind_update_power
      by (wsimpl; rewrite ?Nat2Z.id;
          first [lia | apply list_lookup_insert_eq; eapply lookup_lt_Some; eassumption]).
    wsimpl. rewrite Nat2Z.id. rewrite list_insert_insert_eq.
    set (p' := Power.set_post_power post (Power.set_wall_power wall p)).
    set (w1 := set_powers (<[k := p']> (powers w)) _).
    assert (HT1 : powers w1 = <[k := p']> (powers w)) by reflexivity.
    destruct (IH (S k) w1) as (w' & Hrun & Hlen' & Hlow & Hhigh).
    { rewrite HT1, length_insert. lia. }
    replace (Z.of_nat k + 1) with (Z.of_nat (S k)) by lia.
    exists w'. split; [exact Hrun|].
    split; [rewrite Hlen', HT1, length_insert; reflexivity|].
    split.
    + intros j Hj. rewrite Hlow by lia. rewrite HT1.
      apply list_lookup_insert_ne. lia.
    + intros j q Hj Hq.
      destruct (Nat.eq_dec j k) as [->|Hjk].
      * rewrite Hp in Hq. injection Hq as <-.
        exists p'. split.
        { rewrite Hlow by lia. rewrite HT1. apply list_lookup_insert_eq.
          eapply lookup_lt_Some; eassumption. }
        split; [exists post, wall; reflexivity|].
        split.
        { cbn. wsimpl in Hpost. unfold in_table in *.
          rewrite length_insert in Hpost. apply Hpost.
          intros Hnil. apply (f_equal length) in Hnil.
          rewrite length_insert in Hnil. destruct (powers w); [contradiction|discriminate]. }
        { cbn. apply Hwall. exact Hne. }
      * destruct (Hhigh j q) as (q' & Hq' & Hsame & Hok); [lia | |].
        { rewrite HT1, list_lookup_insert_ne by lia. exact Hq. }
        exists q'. split; [exact Hq'|]. split; [exact Hsame|].
        unfold chain_ids_ok, in_table in *.
        rewrite HT1, length_insert in Hok. exact Hok.
Qed.

(** X3.  After [loadPowers] has read the file, every power chains to ids of the
    table: the closing loop replaces each [post_power] and [wall_power] that
    [verifyID] rejects by [0], and changes nothing else in the table.  So a
    chained activation never fails the bounds test of [activate]. *)
Theorem loadPowers_chain_ids_verified lootm lines w st w1 :
  loadPowers_loop E lootm lines
    {| clear_post_effects := true; clear_loot := true;
       input_id := 0; skippingEntry := false |} w = Some (st, w1) ->
  exists w',
    loadPowers E lootm (Some lines) w = Some (tt, w')
    /\ Forall2 same_but_chain_ids (powers w1) (powers w')
    /\ Forall (chain_ids_ok (powers w')) (powers w').
Proof.
  intros Hloop. unfold loadPowers.
  rewrite (bind_eq _ _ _ _ _ Hloop). rewrite bind_gets.
  destruct (loadPowers_verify_runs (length (powers w1)) 0 w1 eq_refl)
    as (w' & Hrun & Hlen & _ & Hhigh).
  change (Z.of_nat 0) with 0 in Hrun.
  exists w'. split; [exact Hrun|]. split.
  - apply Forall2_same_length_lookup. split; [symmetry; exact Hlen|].
    intros j p p' Hp Hp'.
    destruct (Hhigh j p ltac:(lia) Hp) as (q & Hq & Hsame & _).
    rewrite Hp' in Hq. injection Hq as ->. exact Hsame.
  - apply Forall_lookup. intros j p' Hp'.
    destruct (lookup_lt_is_Some_2 (powers w1) j) as [p Hp].
    { rewrite <- Hlen. eapply lookup_lt_Some; eassumption. }
    destruct (Hhigh j p ltac:(lia) Hp) as (q & Hq & _ & Hok).
    rewrite Hp' in Hq. injection Hq as ->.
    unfold chain_ids_ok, in_table in *. rewrite Hlen. exact Hok.
Qed.

(** ** payPowerCost *)

(** X4.  [payPowerCost] never leaves the actor with negative hp: the hp after the
    payment is the hp less the cost, raised to [0] when that is negative.  A
    hero also pays the mp cost; an actor that is not the hero pays hp only:
    its mp and the two item queues stay as they are.  For a null actor nothing
    is paid at all. *)
Theorem payPowerCost_hp_floor power_index src_stats w p :
  0 <= power_index ->
  powers w !! Z.to_nat power_index = Some p ->
  src_stats <> 0 ->
  payPowerCost E power_index 0 w = Some (tt, w)
  /\ exists w',
       payPowerCost E power_index src_stats w = Some (tt, w')
       /\ 0 <= StatBlock.hp (stats w')
       /\ (Int.in_range (StatBlock.hp (stats w) - Power.requires_hp p) ->
           StatBlock.hp (stats w')
           = Z.max 0 (StatBlock.hp (stats w) - Power.requires_hp p))
       /\ (StatBlock.hero (stats w) = true ->
           StatBlock.mp (stats w')
           = Int.sub (StatBlock.mp (stats w)) (Power.requires_mp p))
       /\ (StatBlock.hero (stats w) = false ->
           StatBlock.mp (stats w') = StatBlock.mp (stats w)
           /\ used_items w' = used_items w
           /\ used_equipped_items w' = used_equipped_items w).
Proof.
  intros Hi Hp Hsrc. split; [reflexivity|].
  assert (Hfloor : forall s,
             0 <= StatBlock.hp (paid p s)
             /\ (Int.in_range (StatBlock.hp s - Power.requires_hp p) ->
                 StatBlock.hp (paid p s) = Z.max 0 (StatBlock.hp s - Power.requires_hp p))).
  { intros s. unfold paid.
    assert (Hhp : StatBlock.hp (if StatBlock.hero s
                                then StatBlock.set_mp
                                       (Int.sub (StatBlock.mp s) (Power.requires_mp p)) s
                                else s) = StatBlock.hp s)
      by (destruct (StatBlock.hero s); reflexivity).
    cbv zeta. rewrite Hhp.
    cbn [StatBlock.hp StatBlock.set_hp].
    destruct (Z.ltb_spec (Int.sub (StatBlock.hp s) (Power.requires_hp p)) 0) as [Hneg|Hpos].
    - split; [lia|]. intros Hr. unfold Int.sub in Hneg.
      rewrite wrap_small in Hneg by exact Hr. lia.
    - split; [exact Hpos|]. intros Hr. unfold Int.sub in *.
      rewrite wrap_small in * by exact Hr. lia. }
  unfold payPowerCost.
  destruct (Z.eqb_spec src_stats 0); [contradiction|].
  mrun.
  destruct (StatBlock.hero (stats w)) eqn:Hhero; mrun.
  - destruct (negb (Power.requires_item p =? -1)); mrun;
      match goal with |- context [when_ ?b _] => destruct b end; mrun;
      rewrite update_stats_eq by assumption; wsimpl;
      (eexists; split; [reflexivity|]); wsimpl;
      pose proof (Hfloor (stats w)) as [Hge Heq]; unfold paid in Hge, Heq;
      rewrite Hhero in Hge, Heq; cbv zeta in Hge, Heq;
      cbn [StatBlock.hp StatBlock.mp StatBlock.set_hp StatBlock.set_mp] in *;
      (split; [exact Hge|]); (split; [exact Heq|]);
      (split; [reflexivity | discriminate]).
  - rewrite update_stats_eq by assumption. wsimpl.
    eexists; split; [reflexivity|]. wsimpl.
    pose proof (Hfloor (stats w)) as [Hge Heq]. unfold paid in Hge, Heq.
    rewrite Hhero in Hge, Heq. cbv zeta in Hge, Heq.
    cbn [StatBlock.hp StatBlock.mp StatBlock.set_hp StatBlock.set_mp] in *.
    split; [exact Hge|]. split; [exact Heq|].
    split; [discriminate|]. intros _. repeat split.
Qed.

(** ** transform *)

(** X5.  An actor that is transformed cannot take another form: a transform power
    other than "untransform" is refused with the message "You are already
    transformed, untransform first.".  The transform state, hp and mp stay as
    they are and nothing is paid; the action bar, locked at the head of
    [transform], stays locked. *)
Theorem transform_refused_when_transformed fuel power_index src_stats target w p :
  0 <= power_index ->
  powers w !! Z.to_nat power_index = Some p ->
  Power.type p = POWTYPE_TRANSFORM ->
  src_stats <> 0 ->
  affordable (stats w) p ->
  StatBlock.transformed (stats w) = true ->
  Power.spawn_type p <> "untransform"%string ->
  activate E (S fuel) power_index src_stats target w
  = Some (false,
          set_log_msg (msg_get E "You are already transformed, untransform first.")
            (set_action_bar_locked true w)).
Proof.
  intros Hi Hp Hty Hsrc Haff Htr Hspawn.
  rewrite (activate_dispatch fuel power_index src_stats target w p) by assumption.
  rewrite Hty. rewrite bool_decide_eq_false_2 by discriminate.
  unfold transform. mrun. wsimpl. rewrite Htr.
  apply String.eqb_neq in Hspawn. rewrite Hspawn. cbn [andb negb].
  mrun. reflexivity.
Qed.

(** X6.  An "untransform" power used by a transformed actor frees the actor's
    tile, tests whether the tile is a valid position, and blocks the tile
    again either way.  When the position is not valid the power is refused
    with the message "Could not untransform at this position.", the action bar
    is unlocked, and the transform state, hp and mp stay as they are.  When it
    is valid, [transform_duration] is set to [0] and [transform_type] to
    "untransform", and the activation goes on with buffs, sound and cost. *)
Theorem untransform_checks_position fuel power_index src_stats target w p c :
  0 <= power_index ->
  powers w !! Z.to_nat power_index = Some p ->
  Power.type p = POWTYPE_TRANSFORM ->
  src_stats <> 0 ->
  affordable (stats w) p ->
  collider w = Some c ->
  StatBlock.transformed (stats w) = true ->
  Power.spawn_type p = "untransform"%string ->
  let x := fp_x (StatBlock.pos (stats w)) in
  let y := fp_y (StatBlock.pos (stats w)) in
  let freed := unblock E c x y in
  let blocked_again := Some (block_tile E freed x y false) in
  (is_valid_position E freed x y MOVEMENT_NORMAL true = false ->
   activate E (S fuel) power_index src_stats target w
   = Some (false,
           set_collider blocked_again
             (set_action_bar_locked false
                (set_log_msg (msg_get E "Could not untransform at this position.") w))))
  /\ (is_valid_position E freed x y MOVEMENT_NORMAL true = true ->
      activate E (S fuel) power_index src_stats target w
      = transform_commit E (activate E fuel) power_index src_stats target
          (set_collider blocked_again
             (set_stats
                (StatBlock.set_transform_type "untransform"
                   (StatBlock.set_transform_duration 0 (stats w)))
                (set_action_bar_locked true w)))).
Proof.
  intros Hi Hp Hty Hsrc Haff Hc Htr Hspawn x y freed blocked_again.
  rewrite (activate_dispatch fuel power_index src_stats target w p) by assumption.
  rewrite Hty. rewrite bool_decide_eq_false_2 by discriminate.
  unfold transform, transform_commit. mrun. wsimpl. rewrite Htr, Hspawn.
  cbn [String.eqb Ascii.eqb Bool.eqb andb negb].
  rewrite bind_assoc. mrun. fold x y freed.
  split; intros Hvalid; rewrite Hvalid; mrun; wsimpl; reflexivity.
Qed.

(** ** hasValidTarget *)

(** X7.  Without a collision map no target is valid, whatever the power and the
    actor.  With one, [hasValidTarget] changes nothing and refuses a target
    only for a teleporting power, when the target, brought within the range of
    the power, is a wall or is not empty. *)
Theorem hasValidTarget_only_refuses_teleport power_index src_stats target w :
  (collider w = None ->
   hasValidTarget E power_index src_stats target w = Some (false, w))
  /\ (forall p c,
        0 <= power_index ->
        powers w !! Z.to_nat power_index = Some p ->
        src_stats <> 0 ->
        collider w = Some c ->
        let aimed_at :=
          limitRange (Power.target_range p) (StatBlock.pos (stats w)) target in
        exists b,
          hasValidTarget E power_index src_stats target w = Some (b, w)
          /\ (Power.buff_teleport p = false -> b = true)
          /\ (b = false <->
              Power.buff_teleport p = true
              /\ (is_empty E c (fp_x aimed_at) (fp_y aimed_at) = false
                  \/ is_wall E c (fp_x aimed_at) (fp_y aimed_at) = true))).
Proof.
  split.
  - intros Hc. unfold hasValidTarget. rewrite bind_gets, Hc. reflexivity.
  - intros p c Hi Hp Hsrc Hc aimed_at. unfold hasValidTarget.
    rewrite bind_gets, Hc. mrun. fold aimed_at.
    destruct (is_empty E c (fp_x aimed_at) (fp_y aimed_at)),
             (is_wall E c (fp_x aimed_at) (fp_y aimed_at)),
             (Power.buff_teleport p); cbn [negb orb andb];
      eexists; (split; [reflexivity|]); split; try discriminate; try reflexivity;
      split; try discriminate; auto; intros [? [?|?]]; discriminate.
Qed.

(** ** spawn for map events *)

(** X8.  The spawn routine of map events always succeeds: it queues exactly one
    enemy, of the given type at the given place, facing a direction drawn from
    the random source ([rand() % 8]); it asks for no collision map, pays no
    cost, and changes nothing but the queue and the random source. *)
Theorem spawn_at_queues_one enemy_type target w :
  exists e,
    spawn_at E enemy_type target w
    = Some (true, set_enemies (enemies w ++ [e]) (set_rng (snd (rand E (rng w))) w))
    /\ Map_Enemy.type e = enemy_type
    /\ Map_Enemy.pos e = FPoint_of_Point E target
    /\ Map_Enemy.direction e = Int.rem (fst (rand E (rng w))) 8
    /\ -8 < Map_Enemy.direction e < 8.
Proof.
  unfold spawn_at. mrun. wsimpl.
  eexists. split; [reflexivity|].
  cbn [Map_Enemy.type Map_Enemy.pos Map_Enemy.direction
       Map_Enemy.set_type Map_Enemy.set_pos Map_Enemy.set_direction].
  split; [reflexivity|]. split; [reflexivity|]. split; [reflexivity|].
  unfold Int.rem.
  pose proof (Z.rem_bound_abs (fst (rand E (rng w))) 8 ltac:(lia)). lia.
Qed.

(** ** The footprint of an activation *)

Lemma flag_stays_refl flag w : flag_stays E flag w w.
Proof. intros H. exact H. Qed.

Lemma flag_stays_trans flag w1 w2 w3 :
  flag_stays E flag w1 w2 -> flag_stays E flag w2 w3 -> flag_stays E flag w1 w3.
Proof. intros H12 H23 H. exact (H23 (H12 H)). Qed.

#[local] Instance activation_frame_preorder : PreOrder (activation_frame E).
Proof.
  split.
  - intros w. constructor; try reflexivity; apply flag_stays_refl.
  - intros w1 w2 w3 [] []. constructor;
      try (etransitivity; eassumption);
      try congruence;
      try (eapply flag_stays_trans; eassumption).
Qed.

(** What a write of an activation has to satisfy. *)
Ltac footprint :=
  constructor; wsimpl;
  try reflexivity;
  try (apply prefix_app_r; reflexivity);
  try (rewrite length_insert; reflexivity);
  try (unfold flag_stays; wsimpl; cbv beta;
       repeat match goal with
              | |- context [if ?b then _ else _] => destruct b
              end;
       cbn; try (intros ->; reflexivity); tauto).

Section Footprint.

Local Abbreviation R := (activation_frame E).

Lemma footprint_initHazard power_index src_stats target haz :
  keeps E R (initHazard E power_index src_stats target haz).
Proof. unfold initHazard. keeps_with footprint. Qed.

Lemma footprint_playSound power_index : keeps E R (playSound E power_index).
Proof. unfold playSound. keeps_with footprint. Qed.

Lemma footprint_add_effect p power_index src_stats source_type effect_data duration
    magnitude :
  keeps E R (add_effect E p power_index src_stats source_type effect_data duration
               magnitude).
Proof. unfold add_effect. keeps_with footprint. Qed.

Hint Resolve footprint_initHazard footprint_playSound footprint_add_effect : keeps.

Lemma footprint_effect_step p power_index src_stats source_type pe :
  keeps E R (effect_step E p power_index src_stats source_type pe).
Proof. unfold effect_step. keeps_with footprint. Qed.

Hint Resolve footprint_effect_step : keeps.

Lemma footprint_effect_loop p power_index src_stats source_type pes :
  keeps E R (effect_loop E p power_index src_stats source_type pes).
Proof. induction pes as [|pe rest IH]; cbn [effect_loop]; keeps_with footprint. Qed.

Hint Resolve footprint_effect_loop : keeps.

Lemma footprint_effect src_stats power_index source_type :
  keeps E R (effect E src_stats power_index source_type).
Proof. unfold effect. keeps_with footprint. Qed.

Lemma footprint_payPowerCost power_index src_stats :
  keeps E R (payPowerCost E power_index src_stats).
Proof. unfold payPowerCost, push_back_n. keeps_with footprint. Qed.

Hint Resolve footprint_effect footprint_payPowerCost : keeps.

Lemma footprint_block power_index src_stats :
  keeps E R (block E power_index src_stats).
Proof. unfold block. keeps_with footprint. Qed.

Section Strategies.

Variable act : Z -> StatPtr -> FPoint -> M (World E) bool.
Hypothesis act_footprint : forall i s t, keeps E R (act i s t).

Lemma footprint_buff_loot pos items : keeps E R (buff_loot E pos items).
Proof. induction items as [|item rest IH]; cbn [buff_loot]; keeps_with footprint. Qed.

Hint Resolve footprint_buff_loot : keeps.

Lemma footprint_buff power_index src_stats target :
  keeps E R (buff E act power_index src_stats target).
Proof. unfold buff. keeps_with footprint. Qed.

Hint Resolve footprint_buff : keeps.

Lemma footprint_fixed_loop n power_index src_stats target delay_iterator :
  keeps E R (fixed_loop E n power_index src_stats target delay_iterator).
Proof.
  revert delay_iterator.
  induction n as [|n IH]; intros d; cbn [fixed_loop]; keeps_with footprint.
Qed.

Hint Resolve footprint_fixed_loop : keeps.

Lemma footprint_fixed power_index src_stats target :
  keeps E R (fixed E act power_index src_stats target).
Proof. unfold fixed. keeps_with footprint. Qed.

Lemma footprint_missile_loop n power_index src_stats target theta i delay_iterator :
  keeps E R (missile_loop E n power_index src_stats target theta i delay_iterator).
Proof.
  revert i delay_iterator.
  induction n as [|n IH]; intros i d; cbn [missile_loop]; [keeps_with footprint|].
  unfold missile_variance, missile_speed_var. keeps_with footprint.
Qed.

Hint Resolve footprint_missile_loop : keeps.

Lemma footprint_missile power_index src_stats target :
  keeps E R (missile E power_index src_stats target).
Proof. unfold missile. keeps_with footprint. Qed.

Lemma footprint_repeater_loop n power_index src_stats target speed loc delay_iterator :
  keeps E R (repeater_loop E n power_index src_stats target speed loc delay_iterator).
Proof.
  revert loc delay_iterator.
  induction n as [|n IH]; intros loc d; cbn [repeater_loop]; keeps_with footprint.
Qed.

Hint Resolve footprint_repeater_loop : keeps.

Lemma footprint_repeater power_index src_stats target :
  keeps E R (repeater E power_index src_stats target).
Proof. unfold repeater. keeps_with footprint. Qed.

Lemma footprint_spawn power_index src_stats target :
  keeps E R (spawn E act power_index src_stats target).
Proof. unfold spawn. keeps_with footprint. Qed.

Lemma footprint_transform power_index src_stats target :
  keeps E R (transform E act power_index src_stats target).
Proof. unfold transform. keeps_with footprint. Qed.

Hint Resolve footprint_block footprint_fixed footprint_missile footprint_repeater
  footprint_spawn footprint_transform : keeps.

Lemma footprint_activate_body power_index src_stats target :
  keeps E R (activate_body E act power_index src_stats target).
Proof. unfold activate_body. keeps_with footprint. Qed.

End Strategies.

Lemma footprint_activate fuel power_index src_stats target :
  keeps E R (activate E fuel power_index src_stats target).
Proof.
  revert power_index src_stats target.
  induction fuel as [|fuel IH]; intros power_index src_stats target; cbn [activate].
  - apply keeps_undefined.
  - apply footprint_activate_body. exact IH.
Qed.

Lemma footprint_passive_step fuel src_stats triggered_others id :
  keeps E R (passive_step E fuel src_stats triggered_others id).
Proof.
  pose proof (footprint_activate fuel) as Hact.
  unfold passive_step. keeps_with footprint.
Qed.

Lemma footprint_passive_loop fuel src_stats triggered_others ids :
  keeps E R (passive_loop E fuel src_stats triggered_others ids).
Proof.
  pose proof (footprint_passive_step fuel) as Hstep.
  revert triggered_others.
  induction ids as [|id rest IH]; intros t; cbn [passive_loop]; keeps_with footprint.
Qed.

Lemma footprint_activatePassives fuel src_stats :
  keeps E R (activatePassives E fuel src_stats).
Proof.
  pose proof (footprint_passive_loop fuel) as Hloop.
  unfold activatePassives. keeps_with footprint.
Qed.

Lemma footprint_activateSinglePassive fuel src_stats id :
  keeps E R (activateSinglePassive E fuel src_stats id).
Proof.
  pose proof (footprint_activate fuel) as Hact.
  unfold activateSinglePassive. keeps_with footprint.
Qed.

End Footprint.

(** X9.  Whatever a power does, [activate] and the two passive scans only append
    to the queues that the other managers drain (hazards, enemies, loot, party
    buffs, used items, used equipped items) and to the sounds played and the
    combat text; they leave the loaded sounds, the effect definitions and the
    error log alone, keep the size of the power table, and do not clear the
    block, others, halfdeath and joincombat triggers of the actor. *)
Theorem activation_footprint :
  (forall fuel power_index src_stats target w b w',
     activate E fuel power_index src_stats target w = Some (b, w') ->
     activation_frame E w w')
  /\ (forall fuel src_stats w u w',
        activatePassives E fuel src_stats w = Some (u, w') ->
        activation_frame E w w')
  /\ (forall fuel src_stats id w u w',
        activateSinglePassive E fuel src_stats id w = Some (u, w') ->
        activation_frame E w w').
Proof.
  split; [|split].
  - intros fuel power_index src_stats target w b w' H.
    exact (footprint_activate fuel power_index src_stats target w b w' H).
  - intros fuel src_stats w u w' H.
    exact (footprint_activatePassives fuel src_stats w u w' H).
  - intros fuel src_stats id w u w' H.
    exact (footprint_activateSinglePassive fuel src_stats id w u w' H).
Qed.

(** ** block *)

(** X10.  A block power that is activated marks the actor as blocking, and while
    the mark is set no block power can be activated: the call is refused and
    changes nothing. *)
Theorem block_refused_while_blocking fuel power_index src_stats target w p w1 :
  powers w !! Z.to_nat power_index = Some p ->
  Power.type p = POWTYPE_BLOCK ->
  activate E (S fuel) power_index src_stats target w = Some (true, w1) ->
  EffectManager.triggered_block (StatBlock.effects (stats w)) = false
  /\ EffectManager.triggered_block (StatBlock.effects (stats w1)) = true
  /\ forall fuel2 index2 target2 p2,
       0 <= index2 ->
       powers w1 !! Z.to_nat index2 = Some p2 ->
       Power.type p2 = POWTYPE_BLOCK ->
       activate E (S fuel2) index2 src_stats target2 w1 = Some (false, w1).
Proof.
  intros Hp Hty H. cbn [activate] in H. unfold activate_body in H.
  apply bind_inv in H as (ps & w2 & H1 & H). apply gets_inv in H1 as [-> ->].
  destruct (Z.of_nat (length (powers w)) <=? Int.to_unsigned power_index);
    [apply ret_inv in H as [? _]; discriminate|].
  apply bind_inv in H as (s & w2 & H1 & H).
  apply deref_inv in H1 as (Hsrc & -> & ->).
  apply bind_inv in H as (p' & w2 & H1 & H).
  apply power_at_inv in H1 as (Hi & Hp' & ->).
  rewrite Hp in Hp'. injection Hp' as <-.
  destruct (StatBlock.hero (stats w) && (StatBlock.mp (stats w) <? Power.requires_mp p));
    [apply ret_inv in H as [? _]; discriminate|].
  destruct ((0 <? StatBlock.hp (stats w)) && negb (Power.sacrifice p)
            && (StatBlock.hp (stats w) <=? Power.requires_hp p));
    [apply ret_inv in H as [? _]; discriminate|].
  rewrite Hty in H. cbn [bool_decide decide_rel PowType_eq_dec] in H.
  rewrite bool_decide_eq_true_2 in H by reflexivity.
  unfold block in H. rewrite bind_deref in H by assumption.
  destruct (EffectManager.triggered_block (StatBlock.effects (stats w))) eqn:Hflag;
    [apply ret_inv in H as [? _]; discriminate|].
  rewrite bind_update_stats in H by assumption.
  assert (Hset : EffectManager.triggered_block (StatBlock.effects (stats w1)) = true).
  { cbv beta in H.
    match type of H with
    | ?m ?w2 = Some _ =>
        assert (Hk : keeps E (activation_frame E) m);
        [|refine (af_blocking E _ _ (Hk w2 true w1 H) _); reflexivity]
    end.
    pose proof footprint_effect. pose proof footprint_playSound.
    pose proof footprint_payPowerCost.
    keeps_with footprint. }
  split; [reflexivity|]. split; [exact Hset|].
  intros fuel2 index2 target2 p2 Hi2 Hp2 Hty2.
  cbn [activate]. unfold activate_body. rewrite bind_gets.
  rewrite (bounds_pass index2 w1 p2 Hi2 Hp2).
  rewrite bind_deref by assumption.
  erewrite bind_power_at by eassumption.
  destruct (StatBlock.hero (stats w1) && (StatBlock.mp (stats w1) <? Power.requires_mp p2));
    [reflexivity|].
  destruct ((0 <? StatBlock.hp (stats w1)) && negb (Power.sacrifice p2)
            && (StatBlock.hp (stats w1) <=? Power.requires_hp p2));
    [reflexivity|].
  rewrite Hty2. rewrite bool_decide_eq_true_2 by reflexivity.
  unfold block. rewrite bind_deref by assumption. rewrite Hset. reflexivity.
Qed.

(** ** The passive scans *)

(** X11.  Whenever [activatePassives] returns, the hit and death triggers of the
    actor are reset, so that they can fire again. *)
Theorem activatePassives_resets_hit_and_death fuel src_stats w u w' :
  activatePassives E fuel src_stats w = Some (u, w') ->
  EffectManager.triggered_hit (StatBlock.effects (stats w')) = false
  /\ EffectManager.triggered_death (StatBlock.effects (stats w')) = false.
Proof.
  intros H. unfold activatePassives in H.
  apply bind_inv in H as (s1 & w1 & _ & H).
  apply bind_inv in H as (t1 & w2 & _ & H).
  apply bind_inv in H as (s2 & w3 & _ & H).
  apply bind_inv in H as (t2 & w4 & _ & H).
  apply bind_inv in H as ([] & w5 & _ & H).
  apply update_stats_inv in H as [_ ->]. wsimpl. split; reflexivity.
Qed.

Lemma passive_loop_idle fuel src_stats w :
  src_stats <> 0 ->
  EffectManager.triggered_others (StatBlock.effects (stats w)) = true ->
  forall ids t,
    Forall (normal_or_inactive (powers w)) ids ->
    passive_loop E fuel src_stats t ids w = Some (t, w).
Proof.
  intros Hsrc Hflag ids t Hids. induction Hids as [|id rest Hid _ IH].
  - reflexivity.
  - cbn [passive_loop]. destruct Hid as (Hi & p & Hp & Hcase).
    assert (Hstep : passive_step E fuel src_stats t id w = Some (t, w)).
    { unfold passive_step. erewrite bind_power_at by eassumption.
      destruct (Power.passive p) eqn:Hpassive; cbn [negb]; [|reflexivity].
      destruct Hcase as [?| ->]; [discriminate|].
      rewrite bind_deref by assumption. cbv zeta. cbn [Z.eqb].
      rewrite Hflag. reflexivity. }
    rewrite (bind_eq _ _ _ _ _ Hstep). exact IH.
Qed.

(** X12.  Normal passives fire once: when the others trigger of the actor is set,
    a scan over passive lists that hold only normal passives (and powers that
    are not passive) activates nothing; all it does is reset the hit and death
    triggers. *)
Theorem normal_passives_fire_once fuel src_stats w :
  src_stats <> 0 ->
  EffectManager.triggered_others (StatBlock.effects (stats w)) = true ->
  Forall (normal_or_inactive (powers w)) (StatBlock.powers_passive (stats w)) ->
  Forall (normal_or_inactive (powers w)) (StatBlock.powers_list_items (stats w)) ->
  activatePassives E fuel src_stats w
  = Some (tt, set_stats (hit_and_death_reset (stats w)) w).
Proof.
  intros Hsrc Hflag Hpassive Hitems. unfold activatePassives.
  rewrite bind_deref by assumption.
  rewrite (bind_eq _ _ _ _ _
             (passive_loop_idle fuel src_stats w Hsrc Hflag _ false Hpassive)).
  rewrite bind_deref by assumption.
  rewrite (bind_eq _ _ _ _ _
             (passive_loop_idle fuel src_stats w Hsrc Hflag _ false Hitems)).
  cbn [when_]. rewrite bind_ret.
  apply update_stats_eq. exact Hsrc.
Qed.

(** X13.  [activateSinglePassive] does nothing for a power that is not passive and
    for a passive power with a trigger, not even for a null actor.  For a
    normal passive it activates the power, and whenever it returns the others
    trigger of the actor is set and its stats are marked for a refresh. *)
Theorem activateSinglePassive_normal_only fuel src_stats id w p :
  0 <= id ->
  powers w !! Z.to_nat id = Some p ->
  (Power.passive p = false \/ Power.passive_trigger p <> -1 ->
   activateSinglePassive E fuel src_stats id w = Some (tt, w))
  /\ (Power.passive p = true ->
      Power.passive_trigger p = -1 ->
      forall u w',
        activateSinglePassive E fuel src_stats id w = Some (u, w') ->
        EffectManager.triggered_others (StatBlock.effects (stats w')) = true
        /\ StatBlock.refresh_stats (stats w') = true).
Proof.
  intros Hi Hp. unfold activateSinglePassive.
  erewrite bind_power_at by eassumption. split.
  - intros [Hn | Ht].
    + rewrite Hn. reflexivity.
    + destruct (negb (Power.passive p)); [reflexivity|].
      destruct (Z.eqb_spec (Power.passive_trigger p) (-1)); [contradiction|].
      reflexivity.
  - intros Hpassive Ht u w' H. rewrite Hpassive, Ht in H. cbn [negb Z.eqb] in H.
    apply bind_inv in H as (s & w1 & _ & H).
    apply bind_inv in H as (b & w2 & _ & H).
    apply bind_inv in H as ([] & w3 & H1 & H).
    apply update_stats_inv in H1 as [_ ->].
    apply update_stats_inv in H as [_ ->]. wsimpl. split; reflexivity.
Qed.

(** ** initHazard *)

(** The run of [initHazard] with what the hazard carries on return. *)
Lemma initHazard_runs power_index src_stats target haz w p :
  0 <= power_index ->
  powers w !! Z.to_nat power_index = Some p ->
  src_stats <> 0 ->
  is_Some (collider w) ->
  exists h r,
    initHazard E power_index src_stats target haz w = Some (h, set_rng r w)
    /\ carries_power p h.
Proof.
  intros Hi Hp Hsrc Hc.
  destruct (initHazard_draws power_index p src_stats Hi Hsrc target haz w Hp Hc)
    as (h & r & Hinit).
  exists h, r. split; [exact Hinit|].
  unfold initHazard in Hinit.
  erewrite bind_power_at in Hinit by eassumption.
  rewrite bind_deref in Hinit by assumption. cbv zeta in Hinit.
  apply bind_inv in Hinit as (haz1 & w1 & _ & Hinit).
  apply bind_inv in Hinit as (haz2 & w2 & H2 & Hinit).
  apply ret_inv in Hinit as [-> _]. unfold carries_power.
  destruct (0 <? Power.target_neighbor p).
  - apply bind_inv in H2 as (c & w3 & _ & H2).
    apply bind_inv in H2 as (np & w4 & _ & H2).
    apply ret_inv in H2 as [-> _].
    destruct (Power.loot p), (Power.starting_pos p); cbn;
      repeat match goal with |- _ /\ _ => split end;
      try reflexivity; intros Hne; try contradiction; reflexivity.
  - apply ret_inv in H2 as [-> _].
    destruct (Power.loot p), (Power.starting_pos p); cbn;
      repeat match goal with |- _ /\ _ => split end;
      try reflexivity; intros Hne; try contradiction; reflexivity.
Qed.

(** X14.  [initHazard] runs to its end for a power of the table, a living actor
    pointer and a collision map; it changes nothing but the random source, and
    the hazard it returns carries the lifespan, speed, radius, activity,
    chained powers, loot and missile flag of the power, whatever the hazard
    held before. *)
Theorem initHazard_carries_power power_index src_stats target haz w p :
  0 <= power_index ->
  powers w !! Z.to_nat power_index = Some p ->
  src_stats <> 0 ->
  is_Some (collider w) ->
  exists h w',
    initHazard E power_index src_stats target haz w = Some (h, w')
    /\ w' = set_rng (rng w') w
    /\ carries_power p h.
Proof.
  intros Hi Hp Hsrc Hc.
  destruct (initHazard_runs power_index src_stats target haz w p Hi Hp Hsrc Hc)
    as (h & r & Hrun & Hcarries).
  exists h, (set_rng r w). split; [exact Hrun|]. split; [reflexivity | exact Hcarries].
Qed.

(** ** fixed *)

Lemma staggered_shift delay k d :
  Nat.iter k (fun d => Int.add d delay) (Int.add d delay)
  = Nat.iter (S k) (fun d => Int.add d delay) d.
Proof. symmetry. exact (Nat.iter_succ_r k (fun d => Int.add d delay) d). Qed.

(** The loop of [fixed]: one hazard per turn, each delayed by [delay] frames
    more than the one before. *)
Lemma fixed_loop_runs power_index p src_stats target n :
  0 <= power_index ->
  src_stats <> 0 ->
  forall d w,
    powers w !! Z.to_nat power_index = Some p ->
    is_Some (collider w) ->
    exists w' hs,
      fixed_loop E n power_index src_stats target d w = Some (tt, w')
      /\ hazards w' = hazards w ++ hs
      /\ length hs = n
      /\ (forall k h, hs !! k = Some h ->
            Hazard.delay_frames h = Nat.iter k (fun d => Int.add d (Power.delay p)) d
            /\ carries_power p h)
      /\ powers w' = powers w /\ collider w' = collider w
      /\ sfx w' = sfx w /\ stats w' = stats w.
Proof.
  intros Hi Hsrc. induction n as [|n IH]; intros d w Hp Hc.
  - exists w, []. cbn [fixed_loop]. rewrite app_nil_r.
    split; [reflexivity|]. split; [reflexivity|]. split; [reflexivity|].
    split; [intros j h Hj; discriminate|]. auto.
  - cbn [fixed_loop].
    erewrite bind_power_at by eassumption.
    destruct (initHazard_runs power_index src_stats target (Hazard_default E) w p
                Hi Hp Hsrc Hc) as (haz & r & Hinit & Hcarries).
    rewrite (bind_eq _ _ _ _ _ Hinit).
    unfold push_hazard. rewrite bind_modify.
    set (h := Hazard.set_delay_frames d haz).
    set (w1 := set_hazards _ (set_rng r w)).
    destruct (IH (Int.add d (Power.delay p)) w1 Hp Hc)
      as (w' & hs & Hrun & Hhaz & Hlen & Hfields & HT & Hcol & Hsfx & Hst).
    exists w', (h :: hs). rewrite Hrun. split; [reflexivity|].
    split. { rewrite Hhaz. subst w1. wsimpl. rewrite <- app_assoc. reflexivity. }
    split. { cbn. rewrite Hlen. reflexivity. }
    split.
    { intros [|k] g Hg.
      - injection Hg as <-. split; [reflexivity|]. exact Hcarries.
      - destruct (Hfields k g Hg) as [Hd Hg']. split; [|exact Hg'].
        rewrite Hd. apply staggered_shift. }
    subst w1. wsimpl in HT. wsimpl in Hcol. wsimpl in Hsfx. wsimpl in Hst. auto.
Qed.

(** X15.  A fixed power that uses hazards and has no buff emits [count] hazards,
    in order, each carrying the traits of the power and delayed by [delay]
    frames more than the one before; then the sound is played and the cost is
    paid. *)
Theorem fixed_emits_staggered_hazards fuel power_index src_stats target w p :
  0 <= power_index ->
  powers w !! Z.to_nat power_index = Some p ->
  Power.type p = POWTYPE_FIXED ->
  src_stats <> 0 ->
  affordable (stats w) p ->
  is_Some (collider w) ->
  plain p ->
  sound_ready w p ->
  exists w' hs,
    activate E (S fuel) power_index src_stats target w = Some (true, w')
    /\ hazards w' = hazards w ++ hs
    /\ length hs = Z.to_nat (Power.count p)
    /\ (forall k h, hs !! k = Some h ->
          Hazard.delay_frames h = staggered (Power.delay p) k
          /\ carries_power p h)
    /\ stats w' = paid p (stats w).
Proof.
  intros Hi Hp Hty Hsrc Haff Hc Hplain Hsound.
  rewrite (activate_dispatch fuel power_index src_stats target w p) by assumption.
  rewrite Hty. rewrite bool_decide_eq_false_2 by discriminate.
  unfold fixed. erewrite bind_power_at by eassumption.
  pose proof Hplain as (_ & _ & _ & Hhaz). rewrite Hhaz. cbn [when_].
  destruct (fixed_loop_runs power_index p src_stats target (Z.to_nat (Power.count p))
              Hi Hsrc 0 w Hp Hc)
    as (w1 & hs & Hrun & Hhs & Hlen & Hfields & HT1 & Hc1 & Hs1 & Hst1).
  rewrite (bind_eq _ _ _ _ _ Hrun).
  assert (Hp1 : powers w1 !! Z.to_nat power_index = Some p) by (rewrite HT1; exact Hp).
  rewrite (bind_eq _ _ _ _ _
             (buff_plain _ power_index src_stats target w1 p Hi Hp1 Hsrc Hplain)).
  assert (Hsound1 : sound_ready w1 p) by (unfold sound_ready; rewrite Hs1; exact Hsound).
  destruct (playSound_runs power_index w1 p Hi Hp1 Hsound1) as (played & Hplay).
  rewrite (bind_eq _ _ _ _ _ Hplay).
  destruct (payPowerCost_paid power_index src_stats (set_sounds_played played w1) p
              Hi Hp1 Hsrc) as (items & equipped & Hpay).
  rewrite (bind_eq _ _ _ _ _ Hpay).
  eexists _, hs. split; [reflexivity|]. wsimpl.
  split; [exact Hhs|]. split; [exact Hlen|]. split; [exact Hfields|].
  rewrite Hst1. reflexivity.
Qed.

(** ** spawn *)

(** X16.  A spawn power is activated by an actor who can afford it, and the
    tile [spawn_pos] chooses is empty.  Whatever the flags of the power:
    whenever the call returns, it returns true, and right after the enemies
    queued before stand [count] copies of one enemy: of the power's
    [spawn_type], on that tile, summoned by the actor through this power, and
    an ally of the hero exactly when the actor is the hero or an ally (a
    chained post power may queue more after them).  For a power that uses a
    hazard and has no buff, teleport or party buff, the call returns, queues
    exactly these enemies, and the cost is paid. *)
Theorem spawn_queues_count_enemies fuel power_index src_stats target w p c :
  0 <= power_index ->
  powers w !! Z.to_nat power_index = Some p ->
  Power.type p = POWTYPE_SPAWN ->
  src_stats <> 0 ->
  affordable (stats w) p ->
  collider w = Some c ->
  let pos := fst (spawn_pos E p (stats w) target c (rng w)) in
  is_empty E c (fp_x pos) (fp_y pos) = true ->
  exists e,
    Map_Enemy.type e = Power.spawn_type p
    /\ Map_Enemy.pos e = pos
    /\ Map_Enemy.summoner e = src_stats
    /\ Map_Enemy.summon_power_index e = power_index
    /\ Map_Enemy.hero_ally e
       = StatBlock.hero (stats w) || StatBlock.hero_ally (stats w)
    /\ (forall b w',
          activate E (S fuel) power_index src_stats target w = Some (b, w') ->
          b = true
          /\ (enemies w ++ replicate (Z.to_nat (Power.count p)) e)
               `prefix_of` enemies w')
    /\ (plain p ->
        sound_ready w p ->
        exists w',
          activate E (S fuel) power_index src_stats target w = Some (true, w')
          /\ enemies w' = enemies w ++ replicate (Z.to_nat (Power.count p)) e
          /\ stats w' = paid p (stats w)).
Proof.
  intros Hi Hp Hty Hsrc Haff Hc pos Hempty.
  rewrite (activate_dispatch fuel power_index src_stats target w p) by assumption.
  rewrite Hty. rewrite bool_decide_eq_false_2 by discriminate.
  unfold spawn. mrun. fold pos. rewrite Hempty. cbn [negb]. mrun. wsimpl.
  match goal with
  | |- context [set_enemies (_ ++ replicate _ ?e0)] => exists e0
  end.
  do 5 (split; [reflexivity|]). split.
  - intros b w' H.
    match type of H with
    | ?m ?w1 = Some _ =>
        assert (Hkeep : keeps E (activation_frame E) m)
    end.
    { apply keeps_bind; [exact _ | apply footprint_payPowerCost | intros _].
      apply keeps_bind;
        [ exact _
        | apply footprint_buff; intros; apply footprint_activate
        | intros _ ].
      apply keeps_bind; [exact _ | apply footprint_playSound | intros _].
      apply keeps_ret; exact _. }
    pose proof (af_enemies _ _ _ (Hkeep _ _ _ H)) as Hpre. wsimpl in Hpre.
    split; [|exact Hpre].
    apply bind_inv in H as (u1 & w1 & _ & H).
    apply bind_inv in H as (u2 & w2 & _ & H).
    apply bind_inv in H as (u3 & w3 & _ & H).
    apply ret_inv in H as [-> _]. reflexivity.
  - intros Hplain Hsound.
    match goal with
    | |- context [bind (payPowerCost E power_index src_stats) _ ?w1] =>
        destruct (payPowerCost_paid power_index src_stats w1 p Hi Hp Hsrc)
          as (items & equipped & Hpay)
    end.
    rewrite (bind_eq _ _ _ _ _ Hpay).
    match goal with
    | |- context [bind (buff E ?act power_index src_stats target) _ ?w2] =>
        rewrite (bind_eq _ _ _ _ _
                   (buff_plain act power_index src_stats target w2 p Hi Hp Hsrc Hplain));
        destruct (playSound_runs power_index w2 p Hi Hp Hsound) as (played & Hplay)
    end.
    rewrite (bind_eq _ _ _ _ _ Hplay).
    eexists. split; [reflexivity|]. wsimpl.
    split; reflexivity.
Qed.

(** ** One record of powers.txt writes one entry of the table *)

#[local] Instance other_entries_kept_preorder k : PreOrder (other_entries_kept E k).
Proof.
  split.
  - intros w. split; reflexivity.
  - intros w1 w2 w3 [Hl12 H12] [Hl23 H23]. split; [congruence|].
    intros i Hi. rewrite H23, H12 by exact Hi. reflexivity.
Qed.

(** What a write of a record for the power [id] has to satisfy. *)
Ltac own_entry :=
  split; wsimpl;
  [ first [ reflexivity | apply length_insert ]
  | first [ reflexivity
          | intros; apply list_lookup_insert_ne; auto ] ].

Section OwnEntry.

Variable id : Z.

Local Abbreviation R := (other_entries_kept E (Z.to_nat id)).

Lemma own_entry_load_trait_elemental val i elements :
  keeps E R (load_trait_elemental E id val i elements).
Proof.
  revert i. induction elements as [|e rest IH]; intros i; cbn [load_trait_elemental];
    keeps_with own_entry.
Qed.

Lemma own_entry_loadSFX filename : keeps E R (loadSFX E filename).
Proof. unfold loadSFX. keeps_with own_entry. Qed.

Lemma own_entry_load_requires_equipped_item val st :
  keeps E R (load_requires_equipped_item E val id st).
Proof. unfold load_requires_equipped_item. keeps_with own_entry. Qed.

Lemma own_entry_load_post_effect val st :
  keeps E R (load_post_effect E val id st).
Proof. unfold load_post_effect. keeps_with own_entry. Qed.

Lemma own_entry_load_spawn_limit val st :
  keeps E R (load_spawn_limit E val id st).
Proof. unfold load_spawn_limit. keeps_with own_entry. Qed.

Lemma own_entry_load_spawn_level val st :
  keeps E R (load_spawn_level E val id st).
Proof. unfold load_spawn_level. keeps_with own_entry. Qed.

Lemma own_entry_load_loot lootm val st :
  keeps E R (load_loot E lootm val id st).
Proof. unfold load_loot. keeps_with own_entry. Qed.

Hint Resolve own_entry_load_trait_elemental own_entry_loadSFX
  own_entry_load_requires_equipped_item own_entry_load_post_effect
  own_entry_load_spawn_limit own_entry_load_spawn_level own_entry_load_loot : keeps.

Lemma own_entry_loadPowers_key lootm key val st :
  keeps E R (loadPowers_key E lootm key val id st).
Proof. unfold loadPowers_key. keeps_with own_entry. Qed.

End OwnEntry.

(** A record that is not an [id] record leaves the id of the block and the
    skip flag alone. *)
Ltac same_block_solve := split; reflexivity.

Lemma same_block_load_requires_equipped_item val id st :
  yields E (same_block st) (load_requires_equipped_item E val id st).
Proof. unfold load_requires_equipped_item. yields_with same_block_solve. Qed.

Lemma same_block_load_post_effect val id st :
  yields E (same_block st) (load_post_effect E val id st).
Proof. unfold load_post_effect. yields_with same_block_solve. Qed.

Lemma same_block_load_spawn_limit val id st :
  yields E (same_block st) (load_spawn_limit E val id st).
Proof. unfold load_spawn_limit. yields_with same_block_solve. Qed.

Lemma same_block_load_spawn_level val id st :
  yields E (same_block st) (load_spawn_level E val id st).
Proof. unfold load_spawn_level. yields_with same_block_solve. Qed.

Lemma same_block_load_loot lootm val id st :
  yields E (same_block st) (load_loot E lootm val id st).
Proof. unfold load_loot. yields_with same_block_solve. Qed.

#[local] Hint Resolve same_block_load_requires_equipped_item same_block_load_post_effect
  same_block_load_spawn_limit same_block_load_spawn_level same_block_load_loot : yields.

Lemma same_block_loadPowers_key lootm key val id st :
  yields E (same_block st) (loadPowers_key E lootm key val id st).
Proof. unfold loadPowers_key. yields_with same_block_solve. Qed.

(** The records of a block, after its [id] record. *)
Lemma loadPowers_loop_block lootm lines :
  Forall (fun line : string * string => fst line <> "id"%string) lines ->
  forall st w st' w',
    loadPowers_loop E lootm lines st w = Some (st', w') ->
    same_block st st' /\ other_entries_kept E (Z.to_nat (input_id st)) w w'.
Proof.
  induction 1 as [|[key val] rest Hkey _ IH]; intros st w st' w' H.
  - apply ret_inv in H as [-> ->]. split; [split; reflexivity | reflexivity].
  - cbn [loadPowers_loop] in H.
    apply bind_inv in H as (st1 & w1 & H1 & H).
    assert (Hline : same_block st st1
                    /\ other_entries_kept E (Z.to_nat (input_id st)) w w1).
    { unfold loadPowers_line in H1. cbn [fst] in Hkey.
      apply String.eqb_neq in Hkey. rewrite Hkey in H1.
      destruct (skippingEntry st).
      - apply ret_inv in H1 as [-> ->]. split; [split; reflexivity | reflexivity].
      - split.
        + exact (same_block_loadPowers_key lootm key val (input_id st) st w st1 w1 H1).
        + exact (own_entry_loadPowers_key (input_id st) lootm key val st w st1 w1 H1). }
    destruct Hline as [[Hid Hskip] Hkept].
    destruct (IH st1 w1 st' w' H) as [[Hid' Hskip'] Hkept'].
    rewrite Hid in Hkept'.
    split; [split; congruence|]. etransitivity; eassumption.
Qed.

(** X17.  The records of one block of powers.txt, from its [id] record to the
    record before the next one, write only the entry of that id: every other
    power that the table held is still there, unchanged, and the table has not
    shrunk. *)
Theorem block_writes_own_entry lootm id_val lines st w st' w' :
  table_fits (powers w) ->
  Forall (fun line : string * string => fst line <> "id"%string) lines ->
  loadPowers_loop E lootm (("id"%string, id_val) :: lines) st w = Some (st', w') ->
  (length (powers w) <= length (powers w'))%nat
  /\ forall i p,
       i <> Z.to_nat (to_int E id_val 0) ->
       powers w !! i = Some p ->
       powers w' !! i = Some p.
Proof.
  intros Hfits Hlines H. cbn [loadPowers_loop] in H.
  apply bind_inv in H as (st1 & w1 & H1 & H).
  unfold loadPowers_line in H1. cbn [String.eqb Ascii.eqb Bool.eqb] in H1.
  apply bind_inv in H1 as ([] & w2 & H2 & H1).
  assert (Hw2 : powers w2 = powers w).
  { destruct (to_int E id_val 0 <? 1); cbn [when_] in H2.
    - apply modify_inv in H2 as ->. reflexivity.
    - apply ret_inv in H2 as [_ ->]. reflexivity. }
  apply bind_inv in H1 as (ps & w3 & H3 & H1). apply gets_inv in H3 as [-> ->].
  apply bind_inv in H1 as ([] & w4 & H4 & H1).
  apply ret_inv in H1 as [-> ->].
  assert (Hgrow : (length (powers w) <= length (powers w4))%nat
                  /\ forall i p, powers w !! i = Some p -> powers w4 !! i = Some p).
  { rewrite Hw2 in H4. unfold table_fits in Hfits.
    rewrite of_size_fits in H4 by exact Hfits.
    destruct (Z.ltb_spec (Z.of_nat (length (powers w))) (Int.add (to_int E id_val 0) 1))
      as [Hlt|Hge]; cbn [when_] in H4.
    - apply modify_inv in H4 as ->. wsimpl.
      pose proof (wrap_in_range (to_int E id_val 0 + 1)) as Hr.
      fold (Int.add (to_int E id_val 0) 1) in Hr.
      unfold Int.in_range, Int.min_int, Int.max_int in Hr.
      rewrite Z.mod_small by lia.
      split; [rewrite length_resize; lia|].
      intros i p Hp. pose proof (lookup_lt_Some _ _ _ Hp) as Hi.
      rewrite lookup_resize by lia. exact Hp.
    - apply ret_inv in H4 as [_ ->]. rewrite Hw2. auto. }
  destruct Hgrow as [Hlen Hold].
  destruct (loadPowers_loop_block lootm lines Hlines _ _ _ _ H) as [_ [Hlen' Hkept]].
  cbn [input_id] in Hkept.
  split; [lia|].
  intros i p Hi Hp. rewrite Hkept by exact Hi. apply Hold. exact Hp.
Qed.

(** While the skip flag is set, records that are not [id] records are not
    read. *)
Lemma loadPowers_loop_skipping lootm lines st w :
  Forall (fun line : string * string => fst line <> "id"%string) lines ->
  skippingEntry st = true ->
  loadPowers_loop E lootm lines st w = Some (st, w).
Proof.
  intros Hlines Hskip. induction Hlines as [|[key val] rest Hkey _ IH].
  - reflexivity.
  - cbn [loadPowers_loop]. unfold loadPowers_line at 1. cbn [fst] in Hkey.
    apply String.eqb_neq in Hkey. rewrite Hkey, Hskip. rewrite bind_ret. exact IH.
Qed.

(** X18.  A block whose id is below [1] is skipped: the load reports the index as
    out of bounds and reads none of the records of the block, whatever they
    hold.  The table is not touched, except that the id [0] in front of an
    empty table still allocates the entry [0]. *)
Theorem block_with_invalid_id_skipped lootm id_val lines st w :
  table_fits (powers w) ->
  to_int E id_val 0 < 1 ->
  Forall (fun line : string * string => fst line <> "id"%string) lines ->
  exists T,
    loadPowers_loop E lootm (("id"%string, id_val) :: lines) st w
    = Some ({| clear_post_effects := true; clear_loot := true;
               input_id := to_int E id_val 0; skippingEntry := true |},
            set_powers T (set_errors (errors w ++ [ErrIndexOutOfBounds]) w))
    /\ (T = powers w
        \/ (powers w = [] /\ to_int E id_val 0 = 0 /\ T = [Power_default E])).
Proof.
  intros Hfits Hid Hlines. cbn [loadPowers_loop].
  unfold loadPowers_line at 1. cbn [String.eqb Ascii.eqb Bool.eqb].
  destruct (Z.ltb_spec (to_int E id_val 0) 1) as [_|?]; [|lia].
  cbn [when_]. unfold log_error. rewrite bind_assoc, bind_modify. cbv beta.
  rewrite bind_assoc, bind_gets. wsimpl.
  unfold table_fits in Hfits. rewrite of_size_fits by exact Hfits.
  pose proof (wrap_in_range (toInt E id_val 0)) as Hr.
  fold (to_int E id_val 0) in Hr.
  unfold Int.add. rewrite (wrap_small (to_int E id_val 0 + 1))
    by (unfold Int.in_range, Int.min_int, Int.max_int in *; lia).
  destruct (Z.ltb_spec (Z.of_nat (length (powers w))) (to_int E id_val 0 + 1))
    as [Hlt|Hge]; cbn [when_].
  - mrun.
    assert (Hzero : to_int E id_val 0 = 0) by lia.
    assert (Hnil : powers w = []) by (destruct (powers w); [reflexivity | cbn in Hlt; lia]).
    exists [Power_default E].
    rewrite loadPowers_loop_skipping by (try assumption; reflexivity).
    split; [|right; auto].
    wsimpl. rewrite Hnil, Hzero. reflexivity.
  - mrun.
    exists (powers w).
    rewrite loadPowers_loop_skipping by (try assumption; reflexivity).
    split; [|left; reflexivity].
    destruct w; reflexivity.
Qed.

(** ** loadEffects *)

Lemma named_drop_unnamed effs :
  Forall named (removelast effs) -> Forall named (drop_unnamed effs).
Proof.
  intros H. unfold drop_unnamed.
  destruct (last effs) as [e|] eqn:Hlast; [|apply last_None in Hlast; subst; constructor].
  apply last_Some in Hlast as [l' ->]. rewrite removelast_last in H.
  destruct (String.eqb_spec (EffectDef.id e) "") as [Heq|Hne].
  - rewrite removelast_last. exact H.
  - apply Forall_app. split; [exact H|]. constructor; [exact Hne | constructor].
Qed.

Lemma update_back_runs f w :
  effects w <> [] ->
  Forall named (removelast (effects w)) ->
  exists w', update_back E f w = Some (tt, w')
             /\ Forall named (removelast (effects w'))
             /\ effects w' <> [].
Proof.
  intros Hne Hinv. unfold update_back. rewrite bind_gets.
  destruct (last (effects w)) as [e|] eqn:Hlast;
    [|apply last_None in Hlast; contradiction].
  rewrite (bind_lift_option _ _ e) by reflexivity.
  eexists. split; [reflexivity|]. cbn.
  rewrite removelast_last. split; [exact Hinv|].
  intros Hnil. apply app_eq_nil in Hnil as [_ Hnil]. discriminate.
Qed.

Lemma loadEffects_line_runs l w :
  Forall named (removelast (effects w)) ->
  exists w', loadEffects_line E l w = Some (tt, w')
             /\ Forall named (removelast (effects w')).
Proof.
  intros Hinv. unfold loadEffects_line.
  assert (Hhead : exists w1,
             when_ (new_section l && (section l =s "effect"))
               (modify (fun w =>
                  set_effect_defs (drop_unnamed (effects w) ++ [EffectDef_default E]) w)) w
             = Some (tt, w1)
             /\ Forall named (removelast (effects w1))).
  { destruct (new_section l && (section l =s "effect")); cbn [when_].
    - eexists. split; [reflexivity|]. cbn. rewrite removelast_last.
      apply named_drop_unnamed. exact Hinv.
    - exists w. split; [reflexivity | exact Hinv]. }
  destruct Hhead as (w1 & Hrun & Hinv1).
  rewrite (bind_eq _ _ _ _ _ Hrun). rewrite bind_gets.
  destruct (bool_decide (effects w1 = [])) eqn:Hnil; cbn [orb].
  { exists w1. split; [reflexivity | exact Hinv1]. }
  apply bool_decide_eq_false in Hnil.
  destruct (negb (section l =s "effect")).
  { exists w1. split; [reflexivity | exact Hinv1]. }
  repeat match goal with
         | |- context [if ?b then _ else _] => destruct b
         end;
    try (match goal with
         | |- context [update_back E ?f] =>
             destruct (update_back_runs f w1 Hnil Hinv1) as (w' & Hw' & Hinv' & _)
         end;
         exists w'; split; [exact Hw' | exact Hinv']).
  eexists. split; [reflexivity|]. exact Hinv1.
Qed.

Lemma loadEffects_loop_runs lines : forall w,
  Forall named (removelast (effects w)) ->
  exists w', loadEffects_loop E lines w = Some (tt, w')
             /\ Forall named (removelast (effects w')).
Proof.
  induction lines as [|l rest IH]; intros w Hinv; cbn [loadEffects_loop].
  - exists w. split; [reflexivity | exact Hinv].
  - destruct (loadEffects_line_runs l w Hinv) as (w1 & Hrun & Hinv1).
    rewrite (bind_eq _ _ _ _ _ Hrun). apply IH. exact Hinv1.
Qed.

Lemma getEffectDef_finds effs e :
  e ∈ effs ->
  exists e', getEffectDef effs (EffectDef.id e) = Some e'
             /\ EffectDef.id e' = EffectDef.id e /\ e' ∈ effs.
Proof.
  intros Hin. unfold getEffectDef.
  destruct (find (fun e0 => EffectDef.id e0 =s EffectDef.id e) effs) as [e'|] eqn:Hfind.
  - apply find_some in Hfind as [Hin' Heq]. apply String.eqb_eq in Heq.
    exists e'. split; [reflexivity|]. split; [exact Heq|].
    apply list_elem_of_In. exact Hin'.
  - exfalso. apply list_elem_of_In in Hin.
    pose proof (find_none _ _ Hfind e Hin) as Hf. cbv beta in Hf.
    rewrite String.eqb_refl in Hf. discriminate.
Qed.

(** X19.  [loadEffects] reads every file to its end, and it keeps no effect
    definition without an identifier: a section that names no [id] is dropped
    when the next one starts, or at the end of the file.  Every definition it
    keeps is found again under its identifier by [getEffectDef] (which returns
    the first definition with that identifier) and is accepted as a post
    effect by [isValidEffect]. *)
Theorem loadEffects_keeps_named_effects file w :
  Forall named (effects w) ->
  exists w',
    loadEffects E file w = Some (tt, w')
    /\ Forall named (effects w')
    /\ forall e,
         e ∈ effects w' ->
         isValidEffect E (effects w') (EffectDef.id e) = true
         /\ exists e', getEffectDef (effects w') (EffectDef.id e) = Some e'
                       /\ EffectDef.id e' = EffectDef.id e.
Proof.
  intros Hnamed.
  assert (Hrun : exists w',
             loadEffects E file w = Some (tt, w') /\ Forall named (effects w')).
  { destruct file as [lines|]; cbn [loadEffects].
    - destruct (loadEffects_loop_runs lines w) as (w1 & Hloop & Hinv).
      { clear -Hnamed. induction Hnamed as [|e [|e2 l] He Hl IH]; cbn; auto. }
      rewrite (bind_eq _ _ _ _ _ Hloop).
      eexists. split; [reflexivity|]. cbn. apply named_drop_unnamed. exact Hinv.
    - exists w. split; [reflexivity | exact Hnamed]. }
  destruct Hrun as (w' & Hrun & Hnamed').
  exists w'. split; [exact Hrun|]. split; [exact Hnamed'|].
  intros e He. destruct (getEffectDef_finds _ _ He) as (e' & Hget & Hid & _).
  split; [|exists e'; auto].
  unfold isValidEffect. rewrite Hget.
  repeat match goal with
         | |- context [if ?b then _ else _] => destruct b
         end; reflexivity.
Qed.

(** ** post_effect records with an unknown effect *)

(** X20.  A [post_effect] record that names an unknown effect adds nothing to the
    power: the load reports the effect and goes on.  The record still counts
    as the first of its block: when the clearing of the list is pending, the
    list is cleared. *)
Theorem unknown_post_effect_not_added val id st w p :
  0 <= id ->
  powers w !! Z.to_nat id = Some p ->
  isValidEffect E (effects w) (pe_id (parse_post_effect E val)) = false ->
  let kept := if clear_post_effects st then [] else Power.post_effects p in
  load_post_effect E val id st w
  = Some ({| clear_post_effects := false; clear_loot := clear_loot st;
             input_id := input_id st; skippingEntry := skippingEntry st |},
          set_errors (errors w ++ [ErrUnknownEffect (pe_id (parse_post_effect E val))])
            (set_powers (<[Z.to_nat id := Power.set_post_effects kept p]> (powers w)) w)).
Proof.
  intros Hi Hp Hinvalid kept. unfold load_post_effect, kept.
  destruct (clear_post_effects st); cbn [when_].
  - erewrite bind_update_power by eassumption.
    mrun. wsimpl. rewrite Hinvalid. cbn [negb]. unfold log_error. mrun.
    reflexivity.
  - mrun. rewrite Hinvalid. cbn [negb]. unfold log_error. mrun.
    replace (Power.set_post_effects (Power.post_effects p) p) with p
      by (destruct p; reflexivity).
    rewrite (list_insert_id _ _ _ Hp).
    destruct w; reflexivity.
Qed.

(** ** The sounds of the powers after loadPowers *)

Lemma sound_ready_prefix w w' p :
  sfx w `prefix_of` sfx w' -> sound_ready w p -> sound_ready w' p.
Proof.
  intros Hpre [Hnone | [Hge [sid Hsid]]]; [left; exact Hnone|].
  right. split; [exact Hge|]. exists sid.
  eapply prefix_lookup_Some; eassumption.
Qed.

#[local] Instance sounds_kept_preorder : PreOrder (sounds_kept E).
Proof.
  split.
  - intros w. split; [reflexivity | auto].
  - intros w1 w2 w3 [Hp12 H12] [Hp23 H23]. split; [etransitivity; eassumption|].
    intros Hlen Hok. apply H23; [exact Hlen|]. apply H12; [|exact Hok].
    pose proof (prefix_length _ _ Hp23). lia.
Qed.

(** What [loadSFX] returns, read off a run. *)
Lemma loadSFX_inv filename w i w' :
  loadSFX E filename w = Some (i, w') ->
  sfx w `prefix_of` sfx w'
  /\ powers w' = powers w
  /\ (Z.of_nat (length (sfx w')) <= Int.max_int ->
      0 <= i /\ is_Some (sfx w' !! Z.to_nat i)).
Proof.
  unfold loadSFX. rewrite bind_gets.
  destruct (list_find (fun x => x = snd_load E filename) (sfx w)) as [[k x]|] eqn:Hfind.
  - intros H. apply ret_inv in H as [-> ->].
    split; [reflexivity|]. split; [reflexivity|]. intros Hlen.
    apply list_find_Some in Hfind as (Hk & _ & _).
    pose proof (lookup_lt_Some _ _ _ Hk) as Hlt.
    rewrite wrap_small by (unfold Int.in_range, Int.min_int, Int.max_int in *; lia).
    split; [lia|]. rewrite Nat2Z.id. eauto.
  - rewrite bind_modify. intros H. apply ret_inv in H as [-> ->]. wsimpl.
    split; [apply prefix_app_r; reflexivity|]. split; [reflexivity|].
    rewrite length_app. cbn [length]. intros Hlen.
    unfold Int.sub, Int.of_size.
    rewrite (wrap_small (Z.of_nat _))
      by (unfold Int.in_range, Int.min_int, Int.max_int in *; lia).
    rewrite wrap_small by (unfold Int.in_range, Int.min_int, Int.max_int in *; lia).
    split; [lia|].
    replace (Z.to_nat (Z.of_nat (length (sfx w) + 1) - 1)) with (length (sfx w)) by lia.
    exists (snd_load E filename). apply list_lookup_middle. reflexivity.
Qed.

(** What a write of the loader has to satisfy: it does not touch the
    [sfx_index] of a power. *)
Ltac sounds_write :=
  split; wsimpl;
  [ reflexivity
  | first
      [ intros _ Hok; exact Hok
      | intros _ Hok; apply Forall_insert;
        [ exact Hok
        | match goal with
          | Hp : _ !! _ = Some _ |- _ => exact (proj1 (Forall_lookup _ _) Hok _ _ Hp)
          end ] ] ].

Section Sounds.

Hypothesis default_has_no_sound : Power.sfx_index (Power_default E) = -1.

Local Abbreviation R := (sounds_kept E).

Lemma sounds_loadSFX filename : keeps E R (loadSFX E filename).
Proof.
  intros w i w' H. apply loadSFX_inv in H as (Hpre & HT & _).
  split; [exact Hpre|]. intros _ Hok. unfold sounds_ok in *. rewrite HT.
  eapply Forall_impl; [exact Hok|]. intros p. apply sound_ready_prefix. exact Hpre.
Qed.

(** The record [soundfx]: the index written is the one [loadSFX] returns. *)
Lemma sounds_soundfx val id (st : LoadLoop) :
  keeps E R (let* i := loadSFX E val in
             update_power E id (Power.set_sfx_index i) >> ret st).
Proof.
  intros w st' w' H.
  apply bind_inv in H as (i & w1 & H1 & H).
  apply loadSFX_inv in H1 as (Hpre & HT & Hidx).
  apply bind_inv in H as ([] & w2 & H2 & H). apply ret_inv in H as [_ ->].
  unfold update_power in H2.
  apply bind_inv in H2 as (p & w3 & H3 & H2).
  apply power_at_inv in H3 as (Hi & Hp & ->).
  apply modify_inv in H2 as ->. wsimpl.
  split; [exact Hpre|]. intros Hlen Hok. unfold sounds_ok in *. wsimpl.
  apply Forall_insert.
  - rewrite HT. eapply Forall_impl; [exact Hok|].
    intros q. apply sound_ready_prefix. exact Hpre.
  - right. exact (Hidx Hlen).
Qed.

Lemma sounds_load_trait_elemental id val i elements :
  keeps E R (load_trait_elemental E id val i elements).
Proof.
  revert i. induction elements as [|e rest IH]; intros i; cbn [load_trait_elemental];
    keeps_with sounds_write.
Qed.

Lemma sounds_load_requires_equipped_item val id st :
  keeps E R (load_requires_equipped_item E val id st).
Proof. unfold load_requires_equipped_item. keeps_with sounds_write. Qed.

Lemma sounds_load_post_effect val id st :
  keeps E R (load_post_effect E val id st).
Proof. unfold load_post_effect. keeps_with sounds_write. Qed.

Lemma sounds_load_spawn_limit val id st :
  keeps E R (load_spawn_limit E val id st).
Proof. unfold load_spawn_limit. keeps_with sounds_write. Qed.

Lemma sounds_load_spawn_level val id st :
  keeps E R (load_spawn_level E val id st).
Proof. unfold load_spawn_level. keeps_with sounds_write. Qed.

Lemma sounds_load_loot lootm val id st :
  keeps E R (load_loot E lootm val id st).
Proof. unfold load_loot. keeps_with sounds_write. Qed.

Hint Resolve sounds_loadSFX sounds_soundfx sounds_load_trait_elemental
  sounds_load_requires_equipped_item sounds_load_post_effect
  sounds_load_spawn_limit sounds_load_spawn_level sounds_load_loot : keeps.

Lemma sounds_loadPowers_key lootm key val id st :
  keeps E R (loadPowers_key E lootm key val id st).
Proof.
  unfold loadPowers_key. cbv beta zeta.
  repeat first [ solve [ auto with keeps ] | keeps_step sounds_write ].
Qed.

Lemma sounds_loadPowers_line lootm line st :
  keeps E R (loadPowers_line E lootm line st).
Proof.
  pose proof (sounds_loadPowers_key lootm) as Hkey.
  unfold loadPowers_line. destruct line as [key val].
  destruct (key =s "id"); [|keeps_with sounds_write].
  intros w a w' H.
  apply bind_inv in H as ([] & w1 & H1 & H).
  assert (Hw1 : sfx w1 = sfx w /\ powers w1 = powers w).
  { destruct (to_int E val 0 <? 1); cbn [when_] in H1.
    - apply modify_inv in H1 as ->. split; reflexivity.
    - apply ret_inv in H1 as [_ ->]. split; reflexivity. }
  destruct Hw1 as [Hsfx HT].
  apply bind_inv in H as (ps & w2 & H2 & H).
  apply gets_inv in H2 as [-> ->].
  apply bind_inv in H as ([] & w3 & H2 & H).
  apply ret_inv in H as [_ ->].
  destruct (Int.of_size (length (powers w1)) <? Int.add (to_int E val 0) 1);
    cbn [when_] in H2.
  - apply modify_inv in H2 as ->. split; wsimpl; [rewrite Hsfx; reflexivity|].
    intros _ Hok. unfold sounds_ok in *. wsimpl. rewrite HT.
    apply Forall_resize.
    + left. exact default_has_no_sound.
    + eapply Forall_impl; [exact Hok|]. intros p.
      apply sound_ready_prefix. wsimpl. rewrite Hsfx. reflexivity.
  - apply ret_inv in H2 as [_ ->]. split; [rewrite Hsfx; reflexivity|].
    intros _ Hok. unfold sounds_ok in *. rewrite HT.
    eapply Forall_impl; [exact Hok|]. intros p.
    apply sound_ready_prefix. rewrite Hsfx. reflexivity.
Qed.

Lemma sounds_loadPowers_loop lootm lines st :
  keeps E R (loadPowers_loop E lootm lines st).
Proof.
  pose proof (sounds_loadPowers_line lootm) as Hline.
  revert st. induction lines as [|line rest IH]; intros st; cbn [loadPowers_loop];
    keeps_with sounds_write.
Qed.

Lemma sounds_verifyID power_id allow_zero :
  keeps E R (verifyID E power_id allow_zero).
Proof. unfold verifyID. keeps_with sounds_write. Qed.

Lemma sounds_loadPowers_verify n i :
  keeps E R (loadPowers_verify E n i).
Proof.
  pose proof sounds_verifyID as Hv.
  revert i. induction n as [|n IH]; intros i; cbn [loadPowers_verify];
    keeps_with sounds_write.
Qed.

Lemma sounds_loadPowers lootm file :
  keeps E R (loadPowers E lootm file).
Proof.
  pose proof (sounds_loadPowers_loop lootm) as Hloop.
  pose proof sounds_loadPowers_verify as Hv.
  unfold loadPowers. keeps_with sounds_write.
Qed.

End Sounds.

(** X21.  After [loadPowers], every power has no sound or a sound of [sfx], as long
    as the sounds loaded fit an [int] index: a [soundfx] record stores the
    index [loadSFX] returns, later loads only append to [sfx], and a new entry
    of the table has no sound.  So [playSound] finds the sound of every power
    of the table; it never reads outside [sfx]. *)
Theorem loadPowers_sounds_playable lootm file w u w' :
  Power.sfx_index (Power_default E) = -1 ->
  sounds_ok E w ->
  loadPowers E lootm file w = Some (u, w') ->
  Z.of_nat (length (sfx w')) <= Int.max_int ->
  sounds_ok E w'
  /\ forall power_index p,
       0 <= power_index ->
       powers w' !! Z.to_nat power_index = Some p ->
       exists played,
         playSound E power_index w' = Some (tt, set_sounds_played played w').
Proof.
  intros Hdefault Hok Hload Hlen.
  destruct (sounds_loadPowers Hdefault lootm file w u w' Hload) as [_ Hkept].
  pose proof (Hkept Hlen Hok) as Hok'.
  split; [exact Hok'|].
  intros power_index p Hi Hp.
  apply playSound_runs with (p := p); [exact Hi | exact Hp|].
  exact (proj1 (Forall_lookup _ _) Hok' _ _ Hp).
Qed.

(** ** The mp test of activate *)

(** X22.  A hero without the mp a power requires cannot activate it: the call
    returns false and changes nothing.  The test is strict: with exactly the
    mp required, and an hp cost that is not lethal, the call is not rejected,
    it is the call of the strategy of the power's type. *)
Theorem activate_rejects_insufficient_mp fuel power_index src_stats target w p :
  0 <= power_index ->
  powers w !! Z.to_nat power_index = Some p ->
  src_stats <> 0 ->
  StatBlock.hero (stats w) = true ->
  (StatBlock.mp (stats w) < Power.requires_mp p ->
   activate E (S fuel) power_index src_stats target w = Some (false, w))
  /\ (StatBlock.mp (stats w) = Power.requires_mp p ->
      (0 < StatBlock.hp (stats w) -> Power.sacrifice p = false ->
       Power.requires_hp p < StatBlock.hp (stats w)) ->
      activate E (S fuel) power_index src_stats target w
      = (if bool_decide (Power.type p = POWTYPE_BLOCK)
         then block E power_index src_stats
         else match Power.type p with
              | POWTYPE_FIXED => fixed E (activate E fuel) power_index src_stats target
              | POWTYPE_MISSILE => missile E power_index src_stats target
              | POWTYPE_REPEATER => repeater E power_index src_stats target
              | POWTYPE_SPAWN => spawn E (activate E fuel) power_index src_stats target
              | POWTYPE_TRANSFORM =>
                  transform E (activate E fuel) power_index src_stats target
              | POWTYPE_BLOCK | POWTYPE_NONE => ret false
              end) w).
Proof.
  intros Hi Hp Hsrc Hhero. split.
  - intros Hmp. cbn [activate]. unfold activate_body. rewrite bind_gets.
    rewrite (bounds_pass power_index w p Hi Hp).
    rewrite bind_deref by assumption. erewrite bind_power_at by eassumption.
    rewrite Hhero. destruct (Z.ltb_spec (StatBlock.mp (stats w)) (Power.requires_mp p));
      [reflexivity | lia].
  - intros Hmp Hhp.
    apply activate_dispatch; try assumption.
    split; [intros _; lia | exact Hhp].
Qed.

(** ** Teleporting buffs *)

(** X23.  A teleporting power with no neighbour search marks the actor for
    teleportation to the target, brought within the range of the power.  With
    a neighbour search the destination is the neighbour drawn, and the
    teleportation is called off when the neighbour lies on the tile of the
    target. *)
Theorem buff_teleport_destination act power_index src_stats target w p c :
  0 <= power_index ->
  powers w !! Z.to_nat power_index = Some p ->
  src_stats <> 0 ->
  collider w = Some c ->
  Power.buff_teleport p = true ->
  Power.buff p = false ->
  Power.buff_party p = false ->
  Power.use_hazard p = true ->
  let aimed_at := limitRange (Power.target_range p) (StatBlock.pos (stats w)) target in
  let drawn :=
    get_random_neighbor E c (floor_FPoint E aimed_at) (Power.target_neighbor p) false
      (rng w) in
  let same_tile :=
    F32.eqb (floorf E (fp_x (fst drawn))) (floorf E (fp_x aimed_at))
    && F32.eqb (floorf E (fp_y (fst drawn))) (floorf E (fp_y aimed_at)) in
  buff E act power_index src_stats target w
  = Some (tt,
          if 0 <? Power.target_neighbor p then
            if same_tile then
              set_stats (StatBlock.set_teleportation false (stats w))
                (set_rng (snd drawn) w)
            else
              set_stats
                (StatBlock.set_teleport_destination (fst drawn)
                   (StatBlock.set_teleportation true (stats w)))
                (set_rng (snd drawn) w)
          else
            set_stats
              (StatBlock.set_teleport_destination aimed_at
                 (StatBlock.set_teleportation true (stats w))) w).
Proof.
  intros Hi Hp Hsrc Hc Htele Hbuff Hparty Hhaz aimed_at drawn same_tile.
  unfold buff. erewrite bind_power_at by eassumption.
  rewrite Htele, Hbuff, Hparty, Hhaz. cbn [orb andb negb].
  rewrite bind_assoc, bind_deref by assumption. cbv zeta. fold aimed_at.
  destruct (0 <? Power.target_neighbor p).
  - mrun. fold drawn. fold same_tile.
    destruct same_tile; mrun; wsimpl; reflexivity.
  - mrun. wsimpl. reflexivity.
Qed.

(** ** effect *)

#[local] Instance hp_capped_preorder : PreOrder (hp_capped E).
Proof.
  split.
  - intros w H. exact H.
  - intros w1 w2 w3 H12 H23 H. exact (H23 (H12 H)).
Qed.







(** ** isValidEffect *)

(** X25.  The ids [isValidEffect] accepts are the five primary ones, the keys of the
    stats, the elements with the suffix "_resist", and the identifiers of the
    effect definitions loaded. *)
Theorem isValidEffect_accepts effs type :
  isValidEffect E effs type = true
  <-> type ∈ builtin_effects
      \/ type ∈ STAT_KEY E
      \/ (exists e, e ∈ ELEMENTS E /\ type = (e +:+ "_resist")%string)
      \/ (exists d, d ∈ effs /\ EffectDef.id d = type).
Proof.
  unfold isValidEffect, builtin_effects. split.
  - repeat match goal with
           | |- (if ?a =s ?b then _ else _) = _ -> _ =>
               destruct (String.eqb_spec a b) as [->|?];
               [intros _; left;
                repeat first [ apply elem_of_cons; left; reflexivity
                             | apply elem_of_cons; right ]|]
           end.
    destruct (existsb (fun k => type =s k) (STAT_KEY E)) eqn:Hstat.
    { intros _. right. left. apply existsb_exists in Hstat as (k & Hin & Heq).
      apply String.eqb_eq in Heq. subst. apply list_elem_of_In. exact Hin. }
    destruct (existsb (fun e => type =s (e +:+ "_resist")) (ELEMENTS E)) eqn:Hel.
    { intros _. right. right. left. apply existsb_exists in Hel as (e & Hin & Heq).
      apply String.eqb_eq in Heq. exists e.
      split; [apply list_elem_of_In; exact Hin | exact Heq]. }
    unfold getEffectDef.
    destruct (find (fun e => EffectDef.id e =s type) effs) as [d|] eqn:Hfind;
      [intros _|discriminate].
    right. right. right.
    apply find_some in Hfind as [Hin Heq]. apply String.eqb_eq in Heq.
    exists d. split; [apply list_elem_of_In; exact Hin | exact Heq].
  - intros [Hb | [Hs | [(e & He & ->) | (d & Hd & <-)]]].
    + repeat (apply elem_of_cons in Hb as [->|Hb]; [reflexivity|]).
      inversion Hb.
    + assert (Ht : existsb (fun k => type =s k) (STAT_KEY E) = true).
      { apply existsb_exists. exists type. split; [apply list_elem_of_In; exact Hs|].
        apply String.eqb_refl. }
      rewrite Ht.
      repeat match goal with
             | |- (if ?a =s ?b then _ else _) = _ => destruct (a =s b); [reflexivity|]
             end.
      reflexivity.
    + assert (Ht : existsb (fun e0 => (e +:+ "_resist") =s (e0 +:+ "_resist"))
                     (ELEMENTS E) = true).
      { apply existsb_exists. exists e. split; [apply list_elem_of_In; exact He|].
        apply String.eqb_refl. }
      rewrite Ht.
      repeat match goal with
             | |- (if ?a =s ?b then _ else _) = _ => destruct (a =s b); [reflexivity|]
             end.
      destruct (existsb _ (STAT_KEY E)); reflexivity.
    + destruct (getEffectDef_finds effs d Hd) as (e' & Hget & _).
      rewrite Hget.
      repeat match goal with
             | |- (if ?b then _ else _) = _ => destruct b; [reflexivity|]
             end.
      reflexivity.
Qed.

(** ** Records with a value that is not one of the listed ones *)

(** X26.  The records [type], [source_type], [passive_trigger], [base_damage] and
    [starting_pos] take their value from a fixed list.  Any other value is
    reported and changes nothing: the power keeps what it had, and the entry
    is not even read. *)
Theorem unlisted_value_changes_nothing lootm val id st w :
  let reported (e : LoadError) := Some (st, set_errors (errors w ++ [e]) w) in
  (Forall (fun v => val <> v)
     ["fixed"; "missile"; "repeater"; "spawn"; "transform"; "block"]%string ->
   loadPowers_key E lootm "type" val id st w = reported (ErrUnknownType val))
  /\ (Forall (fun v => val <> v) ["hero"; "neutral"; "enemy"]%string ->
      loadPowers_key E lootm "source_type" val id st w
      = reported (ErrUnknownSourceType val))
  /\ (Forall (fun v => val <> v)
        ["on_block"; "on_hit"; "on_halfdeath"; "on_joincombat"; "on_death"]%string ->
      loadPowers_key E lootm "passive_trigger" val id st w
      = reported (ErrUnknownPassiveTrigger val))
  /\ (Forall (fun v => val <> v) ["none"; "melee"; "ranged"; "ment"]%string ->
      loadPowers_key E lootm "base_damage" val id st w
      = reported (ErrUnknownBaseDamage val))
  /\ (Forall (fun v => val <> v) ["source"; "target"; "melee"]%string ->
      loadPowers_key E lootm "starting_pos" val id st w
      = reported (ErrUnknownStartingPos val)).
Proof.
  intros reported. unfold reported.
  repeat match goal with |- _ /\ _ => split end;
    intros Hval; unfold loadPowers_key;
    repeat match goal with
           | H : Forall _ (_ :: _) |- _ =>
               let Hne := fresh "Hne" in
               apply Forall_cons in H as [Hne H];
               apply String.eqb_neq in Hne; rewrite Hne
           end;
    reflexivity.
Qed.

End Proofs.

(** * The claims on the concrete environment *)

Import Demo.

(** C10 at a negative index. *)
Lemma activate_rejects_out_of_range_witness :
  activate env 1 (-1) hero_ptr origin w0 = Some (false, w0).
Proof.
  apply (activate_rejects_out_of_range env 0 (-1) hero_ptr origin w0).
  - unfold Int.in_range, Int.min_int, Int.max_int. lia.
  - unfold Int.max_int. cbn. lia.
  - left. lia.
Defined.

(** C6: the hero has 10 hp, the power costs 10. *)
Lemma activate_rejects_lethal_hp_cost_witness :
  activate env 1 6 hero_ptr origin w0 = Some (false, w0).
Proof.
  apply (activate_rejects_lethal_hp_cost env 0 6 hero_ptr origin w0 costly_power).
  - lia.
  - reflexivity.
  - discriminate.
  - reflexivity.
  - cbn. lia.
  - cbn. lia.
Defined.

(** C5: the hero's tile is blocked and the neighbour search returns it. *)
Lemma spawn_without_empty_tile_fails_witness :
  exists r, activate env 1 5 hero_ptr origin (crowded w0)
            = Some (false, set_rng r (crowded w0)).
Proof.
  apply (spawn_without_empty_tile_fails env 0 5 hero_ptr origin (crowded w0)
           spawn_power {| walls := []; blocked := [(0, 0)] |}).
  - lia.
  - reflexivity.
  - reflexivity.
  - discriminate.
  - reflexivity.
  - reflexivity.
Defined.

(** C2 as stated fails: a block activation writes the passive trigger of the
    power it runs, so the table is not what [loadPowers] left. *)
Lemma block_writes_power_table :
  exists w',
    activate env 1 8 hero_ptr origin w0 = Some (true, w')
    /\ powers w' <> powers w0
    /\ Power.passive_trigger <$> powers w0 !! 8%nat = Some (-1)
    /\ Power.passive_trigger <$> powers w' !! 8%nat = Some (TRIGGER_BLOCK env).
Proof.
  eexists. split; [reflexivity|].
  split; [|split; reflexivity].
  intros H. apply (f_equal (fun T => Power.passive_trigger <$> T !! 8%nat)) in H.
  vm_compute in H. discriminate.
Defined.

(** C2 (amended) on the same activation. *)
Lemma activation_keeps_power_table_witness :
  exists w',
    activate env 1 8 hero_ptr origin w0 = Some (true, w')
    /\ table_kept env (powers w0) (powers w').
Proof.
  eexists. split; [reflexivity|].
  apply (proj1 (activation_keeps_power_table env) 1%nat 8 hero_ptr origin w0 true).
  reflexivity.
Defined.

(** C9: the ring is already queued, paying for the ring power queues
    nothing. *)
Lemma used_equipped_items_once_witness :
  exists w',
    payPowerCost env 7 hero_ptr (ring_pending w0) = Some (tt, w')
    /\ used_equipped_items w' = used_equipped_items (ring_pending w0).
Proof.
  apply (proj1 (used_equipped_items_once env) 7 hero_ptr (ring_pending w0) ring_power).
  - lia.
  - reflexivity.
  - discriminate.
  - reflexivity.
  - constructor.
Defined.

(** C7: five steps of speed 1 from (0, 0) toward a wall at (2, 0): the wall
    is met on step 2, one hazard is emitted. *)
Lemma repeater_stops_at_wall_witness :
  exists w' hs,
    activate env 1 1 hero_ptr origin w0 = Some (true, w')
    /\ hazards w' = hs
    /\ length hs = 1%nat.
Proof.
  destruct (repeater_stops_at_wall env 0 1 hero_ptr origin w0 repeater_power
              {| walls := [(2, 0)]; blocked := [] |})
    as (w' & hs & Hrun & Hhaz & _ & _ & Hwall & _).
  - lia.
  - reflexivity.
  - reflexivity.
  - discriminate.
  - split; cbn; intros; lia.
  - reflexivity.
  - left. reflexivity.
  - exists w', hs. split; [exact Hrun|]. split; [exact Hhaz|].
    apply (Hwall 2%nat).
    + cbn. lia.
    + reflexivity.
    + intros j Hj. assert (j = 1%nat) as -> by lia. reflexivity.
Defined.

(** C8: three missiles 30 degrees apart. *)
Lemma missile_fan_witness :
  exists w' h0 h1 h2,
    activate env 1 2 hero_ptr origin w0 = Some (true, w')
    /\ hazards w' = hazards w0 ++ [h0; h1; h2]
    /\ aimed env (F32.add (F32.add F32.zero (SFopp deg30)) F32.zero) h0
    /\ aimed env (F32.add (F32.add F32.zero F32.zero) F32.zero) h1
    /\ aimed env (F32.add (F32.add F32.zero deg30) F32.zero) h2.
Proof.
  apply (proj2 (missile_fan env 0 2 hero_ptr origin w0 missile_power
                  ltac:(lia) eq_refl eq_refl ltac:(discriminate)
                  ltac:(split; cbn; intros; lia)
                  ltac:(eexists; reflexivity)
                  ltac:(left; reflexivity) eq_refl)).
  - reflexivity.
  - reflexivity.
Defined.

(** C3 as stated fails: the hero is not transformed, the untransform power
    is activated all the same: the call returns true, sets no message, records
    the transform type and takes the hp cost. *)
Lemma untransform_not_rejected :
  StatBlock.transformed (stats w0) = false
  /\ StatBlock.transform_type (stats w0) = ""%string
  /\ StatBlock.hp (stats w0) = 10
  /\ (fun r => (fst r, log_msg (snd r), StatBlock.transform_type (stats (snd r)),
                StatBlock.hp (stats (snd r))))
       <$> activate env 1 4 hero_ptr origin w0
     = Some (true, ""%string, "untransform"%string, 7).
Proof.
  split; [reflexivity|]. split; [reflexivity|]. split; [reflexivity|].
  vm_compute. reflexivity.
Defined.

(** C3 (amended) on the same activation. *)
Lemma untransform_when_not_transformed_witness :
  exists w',
    activate env 1 4 hero_ptr origin w0 = Some (true, w')
    /\ log_msg w' = log_msg w0
    /\ collider w' = collider w0
    /\ action_bar_locked w' = true
    /\ StatBlock.transform_type (stats w') = "untransform"%string
    /\ StatBlock.hp (stats w') = StatBlock.hp (paid untransform_power (stats w0))
    /\ StatBlock.mp (stats w') = StatBlock.mp (paid untransform_power (stats w0)).
Proof.
  apply (proj2 (proj2 (untransform_when_not_transformed env 0 4 hero_ptr origin w0
                         untransform_power
                         ltac:(lia) eq_refl eq_refl ltac:(discriminate)
                         ltac:(split; cbn; intros; lia) eq_refl eq_refl))).
  - repeat split.
  - left. reflexivity.
Defined.




(** * The further properties on the concrete environment *)

(** Two sounds are loaded; loading the second again returns index 1. *)
Lemma loadSFX_round_trip_witness :
  exists i w',
    loadSFX env "ab" (set_sfx [1; 2] w0) = Some (i, w')
    /\ w' = set_sfx (sfx w') (set_sfx [1; 2] w0)
    /\ sfx (set_sfx [1; 2] w0) `prefix_of` sfx w'
    /\ (snd_load env "ab" ∈ sfx (set_sfx [1; 2] w0) -> sfx w' = sfx (set_sfx [1; 2] w0))
    /\ 0 <= i
    /\ sfx w' !! Z.to_nat i = Some (snd_load env "ab")
    /\ loadSFX env "ab" w' = Some (i, w').
Proof.
  apply (loadSFX_round_trip env "ab" (set_sfx [1; 2] w0)).
  unfold Int.max_int. cbn. lia.
Defined.

(** The power of [chained_file] chains to 7 and to 1 in a table of two
    entries: after the load both ids are ids of the table. *)
Lemma loadPowers_chain_ids_verified_witness :
  exists w',
    loadPowers env true (Some chained_file) (world []) = Some (tt, w')
    /\ Forall2 same_but_chain_ids
         (powers
            (world
               [blank_power;
                Power.set_wall_power 1
                  (Power.set_post_power 7
                     (Power.set_type POWTYPE_FIXED blank_power))]))
         (powers w')
    /\ Forall (chain_ids_ok (powers w')) (powers w').
Proof.
  apply (loadPowers_chain_ids_verified env true chained_file (world [])
           {| clear_post_effects := true; clear_loot := true;
              input_id := 1; skippingEntry := false |}
           (world
              [blank_power;
               Power.set_wall_power 1
                 (Power.set_post_power 7
                    (Power.set_type POWTYPE_FIXED blank_power))])).
  reflexivity.
Defined.

(** The hero pays 3 hp of 10 for the untransform power. *)
Lemma payPowerCost_hp_floor_witness :
  payPowerCost env 4 0 w0 = Some (tt, w0)
  /\ exists w',
       payPowerCost env 4 hero_ptr w0 = Some (tt, w')
       /\ 0 <= StatBlock.hp (stats w')
       /\ (Int.in_range (StatBlock.hp (stats w0) - Power.requires_hp untransform_power) ->
           StatBlock.hp (stats w')
           = Z.max 0 (StatBlock.hp (stats w0) - Power.requires_hp untransform_power))
       /\ (StatBlock.hero (stats w0) = true ->
           StatBlock.mp (stats w')
           = Int.sub (StatBlock.mp (stats w0)) (Power.requires_mp untransform_power))
       /\ (StatBlock.hero (stats w0) = false ->
           StatBlock.mp (stats w') = StatBlock.mp (stats w0)
           /\ used_items w' = used_items w0
           /\ used_equipped_items w' = used_equipped_items w0).
Proof.
  apply (payPowerCost_hp_floor env 4 hero_ptr w0 untransform_power).
  - lia.
  - reflexivity.
  - discriminate.
Defined.

(** The transformed hero asks for the wolf form. *)
Lemma transform_refused_when_transformed_witness :
  activate env 1 9 hero_ptr origin (transformed w1)
  = Some (false,
          set_log_msg (msg_get env "You are already transformed, untransform first.")
            (set_action_bar_locked true (transformed w1))).
Proof.
  apply (transform_refused_when_transformed env 0 9 hero_ptr origin (transformed w1)
           wolf_power).
  - lia.
  - reflexivity.
  - reflexivity.
  - discriminate.
  - split; cbn; intros; lia.
  - reflexivity.
  - discriminate.
Defined.

(** The transformed hero untransforms inside a wall. *)
Lemma untransform_checks_position_witness :
  activate env 1 4 hero_ptr origin (transformed (walled_in w1))
  = Some (false,
          set_collider
            (Some (block_tile env
                     (unblock env {| walls := [(0, 0)]; blocked := [] |}
                        F32.zero F32.zero)
                     F32.zero F32.zero false))
            (set_action_bar_locked false
               (set_log_msg (msg_get env "Could not untransform at this position.")
                  (transformed (walled_in w1))))).
Proof.
  apply (proj1 (untransform_checks_position env 0 4 hero_ptr origin
                  (transformed (walled_in w1))
                  untransform_power {| walls := [(0, 0)]; blocked := [] |}
                  ltac:(lia) eq_refl eq_refl ltac:(discriminate)
                  ltac:(split; cbn; intros; lia) eq_refl eq_refl eq_refl)).
  reflexivity.
Defined.

(** The hero raises the shield (power 8); while it is up, the shield and the
    other block power (3) are refused. *)
Lemma block_refused_while_blocking_witness :
  exists w',
    activate env 1 8 hero_ptr origin w0 = Some (true, w')
    /\ EffectManager.triggered_block (StatBlock.effects (stats w')) = true
    /\ activate env 1 8 hero_ptr origin w' = Some (false, w')
    /\ activate env 1 3 hero_ptr origin w' = Some (false, w').
Proof.
  eexists. split; [reflexivity|].
  pose proof (block_refused_while_blocking env 0 8 hero_ptr origin w0 shield_power _
                eq_refl eq_refl eq_refl) as (_ & Hset & Hrefused).
  split; [exact Hset|]. split.
  - apply (Hrefused 0%nat 8 origin (Power.set_passive_trigger 0 shield_power));
      [lia | reflexivity | reflexivity].
  - apply (Hrefused 0%nat 3 origin block_power); [lia | reflexivity | reflexivity].
Defined.

(** The scan of the hero's passive powers fires the aura (power 10), which
    emits a hazard; on return the hit and death triggers are reset. *)
Lemma activatePassives_resets_hit_and_death_witness :
  exists w',
    activatePassives env 1 hero_ptr w1 = Some (tt, w')
    /\ length (hazards w') = 1%nat
    /\ EffectManager.triggered_hit (StatBlock.effects (stats w')) = false
    /\ EffectManager.triggered_death (StatBlock.effects (stats w')) = false.
Proof.
  assert (Hlen : (fun r => length (hazards (snd r)))
                   <$> activatePassives env 1 hero_ptr w1 = Some 1%nat)
    by (vm_compute; reflexivity).
  destruct (activatePassives env 1 hero_ptr w1) as [[[] w']|] eqn:Hrun;
    [|discriminate Hlen].
  exists w'. split; [reflexivity|].
  split; [injection Hlen as Hlen; exact Hlen|].
  exact (activatePassives_resets_hit_and_death env 1 hero_ptr w1 tt w' Hrun).
Defined.

(** Once the normal passives have fired, the scan leaves the aura alone. *)
Lemma normal_passives_fire_once_witness :
  activatePassives env 1 hero_ptr (fired w1)
  = Some (tt, set_stats (hit_and_death_reset (stats (fired w1))) (fired w1)).
Proof.
  apply (normal_passives_fire_once env 1 hero_ptr (fired w1)).
  - discriminate.
  - reflexivity.
  - constructor; [|constructor]. split; [lia|].
    exists aura_power. split; [reflexivity|]. right. reflexivity.
  - constructor.
Defined.

(** Unlocking the volley (power 11), which is not passive, does nothing. *)
Lemma activateSinglePassive_normal_only_witness :
  activateSinglePassive env 1 hero_ptr 11 w1 = Some (tt, w1).
Proof.
  apply (proj1 (activateSinglePassive_normal_only env 1 hero_ptr 11 w1 volley_power
                  ltac:(lia) eq_refl)).
  left. reflexivity.
Defined.

(** A hazard for the volley. *)
Lemma initHazard_carries_power_witness :
  exists h w',
    initHazard env 11 hero_ptr origin blank_hazard w1 = Some (h, w')
    /\ w' = set_rng (rng w') w1
    /\ carries_power volley_power h.
Proof.
  apply (initHazard_carries_power env 11 hero_ptr origin blank_hazard w1 volley_power).
  - lia.
  - reflexivity.
  - discriminate.
  - eexists. reflexivity.
Defined.

(** The volley emits three hazards, delayed by 0, 5 and 10 frames. *)
Lemma fixed_emits_staggered_hazards_witness :
  exists w' hs,
    activate env 1 11 hero_ptr origin w1 = Some (true, w')
    /\ hazards w' = hazards w1 ++ hs
    /\ length hs = 3%nat
    /\ (forall k h, hs !! k = Some h ->
          Hazard.delay_frames h = staggered 5 k /\ carries_power volley_power h)
    /\ stats w' = paid volley_power (stats w1).
Proof.
  apply (fixed_emits_staggered_hazards env 0 11 hero_ptr origin w1 volley_power).
  - lia.
  - reflexivity.
  - reflexivity.
  - discriminate.
  - split; cbn; intros; lia.
  - eexists. reflexivity.
  - repeat split.
  - left. reflexivity.
Defined.

(** The spawn power (5, default flags) queues one zombie on the hero's tile
    and goes on to its post power; the summon power (12, with a hazard) queues
    exactly two. *)
Lemma spawn_queues_count_enemies_witness :
  (exists w' e,
     activate env 2 5 hero_ptr origin w1 = Some (true, w')
     /\ (enemies w1 ++ [e]) `prefix_of` enemies w'
     /\ Map_Enemy.type e = "zombie"%string
     /\ Map_Enemy.summoner e = hero_ptr)
  /\ (exists w' e,
        activate env 1 12 hero_ptr origin w1 = Some (true, w')
        /\ enemies w' = enemies w1 ++ replicate 2 e
        /\ Map_Enemy.type e = "zombie"%string
        /\ Map_Enemy.pos e = origin
        /\ Map_Enemy.summoner e = hero_ptr
        /\ Map_Enemy.summon_power_index e = 12
        /\ Map_Enemy.hero_ally e = true
        /\ stats w' = paid summon_power (stats w1)).
Proof.
  split.
  - assert (H0 : fst <$> activate env 2 5 hero_ptr origin w1 = Some true)
      by (vm_compute; reflexivity).
    destruct (activate env 2 5 hero_ptr origin w1) as [[b w']|] eqn:Hrun;
      [|discriminate H0].
    destruct (spawn_queues_count_enemies env 1 5 hero_ptr origin w1 spawn_power
                {| walls := [(2, 0)]; blocked := [] |}
                ltac:(lia) eq_refl eq_refl ltac:(discriminate)
                ltac:(split; cbn; intros; lia) eq_refl eq_refl)
      as (e & Hty & _ & Hsum & _ & _ & Hany & _).
    destruct (Hany b w' Hrun) as [-> Hpre].
    exists w', e. split; [reflexivity|]. split; [exact Hpre|].
    split; [exact Hty | exact Hsum].
  - destruct (spawn_queues_count_enemies env 0 12 hero_ptr origin w1 summon_power
                {| walls := [(2, 0)]; blocked := [] |}
                ltac:(lia) eq_refl eq_refl ltac:(discriminate)
                ltac:(split; cbn; intros; lia) eq_refl eq_refl)
      as (e & Hty & Hpos & Hsum & Hidx & Hally & _ & Hplain).
    destruct (Hplain ltac:(repeat split) ltac:(left; reflexivity))
      as (w' & Hrun & Hen & Hst).
    exists w', e. repeat split; assumption.
Defined.

(** A block for power 1 in a table of three: the entries 0 and 2 stay. *)
Lemma block_writes_own_entry_witness :
  (length (powers (world [blank_power; blank_power; spawn_power]))
   <= length (powers (world [blank_power;
                             Power.set_count 4 (Power.set_type POWTYPE_FIXED blank_power);
                             spawn_power])))%nat
  /\ forall i p,
       i <> Z.to_nat (to_int env "1" 0) ->
       powers (world [blank_power; blank_power; spawn_power]) !! i = Some p ->
       powers (world [blank_power;
                      Power.set_count 4 (Power.set_type POWTYPE_FIXED blank_power);
                      spawn_power]) !! i = Some p.
Proof.
  apply (block_writes_own_entry env true "1" [("type", "fixed"); ("count", "4")]%string
           {| clear_post_effects := true; clear_loot := true;
              input_id := 0; skippingEntry := false |}
           (world [blank_power; blank_power; spawn_power])
           {| clear_post_effects := true; clear_loot := true;
              input_id := 1; skippingEntry := false |}).
  - unfold table_fits, Int.max_int. cbn. lia.
  - repeat constructor; discriminate.
  - reflexivity.
Defined.

(** A block with the id 0 in front of a table of three: its records are not
    read. *)
Lemma block_with_invalid_id_skipped_witness :
  exists T,
    loadPowers_loop env true [("id", "0"); ("type", "fixed"); ("count", "4")]%string
      {| clear_post_effects := false; clear_loot := false;
         input_id := 2; skippingEntry := false |}
      (world [blank_power; blank_power; spawn_power])
    = Some ({| clear_post_effects := true; clear_loot := true;
               input_id := to_int env "0" 0; skippingEntry := true |},
            set_powers T
              (set_errors
                 (errors (world [blank_power; blank_power; spawn_power])
                  ++ [ErrIndexOutOfBounds])
                 (world [blank_power; blank_power; spawn_power])))
    /\ (T = powers (world [blank_power; blank_power; spawn_power])
        \/ (powers (world [blank_power; blank_power; spawn_power]) = []
            /\ to_int env "0" 0 = 0 /\ T = [Power_default env])).
Proof.
  apply (block_with_invalid_id_skipped env true "0"
           [("type", "fixed"); ("count", "4")]%string
           {| clear_post_effects := false; clear_loot := false;
              input_id := 2; skippingEntry := false |}
           (world [blank_power; blank_power; spawn_power])).
  - unfold table_fits, Int.max_int. cbn. lia.
  - vm_compute. reflexivity.
  - repeat constructor; discriminate.
Defined.

(** [effects_file] has a section without id and the section of "ward". *)
Lemma loadEffects_keeps_named_effects_witness :
  exists w',
    loadEffects env (Some effects_file) (world []) = Some (tt, w')
    /\ Forall named (effects w')
    /\ forall e,
         e ∈ effects w' ->
         isValidEffect env (effects w') (EffectDef.id e) = true
         /\ exists e', getEffectDef (effects w') (EffectDef.id e) = Some e'
                       /\ EffectDef.id e' = EffectDef.id e.
Proof.
  apply (loadEffects_keeps_named_effects env (Some effects_file) (world [])).
  constructor.
Defined.

(** No effect is called "bogus". *)
Lemma unknown_post_effect_not_added_witness :
  load_post_effect env "bogus,1,100" 1
    {| clear_post_effects := false; clear_loot := true;
       input_id := 1; skippingEntry := false |}
    (world [blank_power; Power.set_post_effects [speed_effect] blank_power])
  = Some ({| clear_post_effects := false; clear_loot := true;
             input_id := 1; skippingEntry := false |},
          set_errors [ErrUnknownEffect "bogus"]
            (world [blank_power; Power.set_post_effects [speed_effect] blank_power])).
Proof.
  apply (unknown_post_effect_not_added env "bogus,1,100" 1
           {| clear_post_effects := false; clear_loot := true;
              input_id := 1; skippingEntry := false |}
           (world [blank_power; Power.set_post_effects [speed_effect] blank_power])
           (Power.set_post_effects [speed_effect] blank_power)).
  - lia.
  - reflexivity.
  - reflexivity.
Defined.

(** The sound of power 1 of [sound_file] can be played after the load. *)
Lemma loadPowers_sounds_playable_witness :
  exists w',
    loadPowers env true (Some sound_file) (world []) = Some (tt, w')
    /\ sounds_ok env w'
    /\ exists played, playSound env 1 w' = Some (tt, set_sounds_played played w').
Proof.
  assert (Hlen : (fun r => Z.of_nat (length (sfx (snd r))) <=? Int.max_int)
                   <$> loadPowers env true (Some sound_file) (world []) = Some true)
    by (vm_compute; reflexivity).
  assert (Hp : (fun r => Power.sfx_index <$> powers (snd r) !! 1%nat)
                 <$> loadPowers env true (Some sound_file) (world []) = Some (Some 0))
    by (vm_compute; reflexivity).
  destruct (loadPowers env true (Some sound_file) (world [])) as [[[] w']|] eqn:Hrun;
    [|discriminate Hlen].
  injection Hlen as Hlen. apply Z.leb_le in Hlen.
  injection Hp as Hp.
  destruct (powers w' !! 1%nat) as [p|] eqn:Hp1; [|discriminate Hp].
  destruct (loadPowers_sounds_playable env true (Some sound_file) (world []) tt w'
              eq_refl ltac:(constructor) Hrun Hlen) as [Hok Hplay].
  exists w'. split; [reflexivity|]. split; [exact Hok|].
  apply (Hplay 1 p); [lia | exact Hp1].
Defined.

(** The hero has 10 mp, the block power 3 requires 50: the call is rejected.
    With 50 mp the call is the call of [block], and returns true. *)
Lemma activate_rejects_insufficient_mp_witness :
  activate env 1 3 hero_ptr origin w0 = Some (false, w0)
  /\ activate env 1 3 hero_ptr origin (rested w0) = block env 3 hero_ptr (rested w0)
  /\ fst <$> block env 3 hero_ptr (rested w0) = Some true.
Proof.
  split; [|split].
  - apply (proj1 (activate_rejects_insufficient_mp env 0 3 hero_ptr origin w0 block_power
                    ltac:(lia) eq_refl ltac:(discriminate) eq_refl)).
    cbn. lia.
  - apply (proj2 (activate_rejects_insufficient_mp env 0 3 hero_ptr origin (rested w0)
                    block_power ltac:(lia) eq_refl ltac:(discriminate) eq_refl)).
    + reflexivity.
    + cbn. intros. lia.
  - vm_compute. reflexivity.
Defined.

(** The blink power (13) teleports the hero to the target. *)
Lemma buff_teleport_destination_witness :
  buff env (activate env 0) 13 hero_ptr origin w1
  = Some (tt,
          set_stats
            (StatBlock.set_teleport_destination origin
               (StatBlock.set_teleportation true (stats w1))) w1).
Proof.
  apply (buff_teleport_destination env (activate env 0) 13 hero_ptr origin w1
           blink_power {| walls := [(2, 0)]; blocked := [] |}
           ltac:(lia) eq_refl ltac:(discriminate) eq_refl eq_refl eq_refl eq_refl
           eq_refl).
Defined.


(** "ranged" is a base damage, not a type of power. *)
Lemma unlisted_value_changes_nothing_witness :
  loadPowers_key env true "type" "ranged" 1
    {| clear_post_effects := true; clear_loot := true;
       input_id := 1; skippingEntry := false |} w0
  = Some ({| clear_post_effects := true; clear_loot := true;
             input_id := 1; skippingEntry := false |},
          set_errors (errors w0 ++ [ErrUnknownType "ranged"]) w0).
Proof.
  apply (proj1 (unlisted_value_changes_nothing env true "ranged" 1
                  {| clear_post_effects := true; clear_loot := true;
                     input_id := 1; skippingEntry := false |} w0)).
  repeat constructor; discriminate.
Defined.
